(** * Switchdev representor resolution (sriovnet_switchdev.go)

    A shallow embedding of the port-name codec and of the uplink / VF
    representor resolvers of [github.com/Mellanox/sriovnet], as vendored
    under [go-controller/vendor], together with the properties of the
    design document that concern them.

    Go strings are byte sequences: they are modelled by [string], whose
    characters are the 256 values of [ascii].  Go's [int] is the 64-bit
    signed integer of the platforms the package is built for; it is
    modelled by [Z], with the range checks of [strconv] written out. *)

From Stdlib Require Import ZArith List String Ascii Bool Lia.
Import ListNotations.

Local Open Scope string_scope.
Local Open Scope Z_scope.

(** ** Bytes and strings *)

Definition byteOf (c : ascii) : Z := Z.of_N (N_of_ascii c).

Definition isDigit (c : ascii) : bool := (48 <=? byteOf c) && (byteOf c <=? 57).

Fixpoint allDigits (s : string) : bool :=
  match s with
  | EmptyString => true
  | String c s' => isDigit c && allDigits s'
  end.

(** A non-empty run of decimal digits, the [\d+] of the port-name shapes. *)
Definition isNumeral (s : string) : bool :=
  match s with
  | EmptyString => false
  | _ => allDigits s
  end.

(** The number a run of digits denotes, most significant digit first. *)
Fixpoint digitsValue (acc : Z) (s : string) : Z :=
  match s with
  | EmptyString => acc
  | String c s' => digitsValue (acc * 10 + (byteOf c - 48)) s'
  end.

Definition decimalValue (s : string) : Z := digitsValue 0 s.

Fixpoint string_rev (s : string) : string :=
  match s with
  | EmptyString => EmptyString
  | String c s' => string_rev s' ++ String c EmptyString
  end.

Definition startsWithDigit (s : string) : bool :=
  match s with
  | String c _ => isDigit c
  | EmptyString => false
  end.

(** ** Errors

    The package handles three kinds of [error] values: the [*NumError] of
    [strconv], the values built by [fmt.Errorf], and whatever the
    filesystem layer returns.  Of a filesystem error the code observes its
    text (through the [%v] verb) and whether [errors.Is(err, os.ErrNotExist)]
    holds. *)

Inductive numErr : Type := ErrSyntax | ErrRange.

Record fsError : Type := mkFsError {
  fsErrorText : string;
  fsIsNotExist : bool
}.

Inductive error : Type :=
| NumError (Func Num : string) (Err : numErr)
| ErrorString (msg : string)
| FsError (e : fsError).

(** [fmt.Errorf] with its verbs already substituted: [%s] of a string is the
    string, [%v] of an error is its text. *)
Definition Errorf (msg : string) : error := ErrorString msg.

Definition isNil {A : Type} (e : option A) : bool :=
  match e with
  | None => true
  | Some _ => false
  end.

(** ** strconv *)

Module strconv.

Definition IntSize : Z := 64.
Definition maxUint64 : Z := 2 ^ 64 - 1.

(** The digit loop of [ParseUint(s, 10, 64)]: [n] is the [uint64]
    accumulator, and the loop leaves at the first byte that is not a digit
    or at the first overflow. *)
Fixpoint parseUintLoop (s : string) (n : Z) : Z * option numErr :=
  match s with
  | EmptyString => (n, None)
  | String c s' =>
      if isDigit c then
        let d := byteOf c - 48 in
        let cutoff := maxUint64 / 10 + 1 in
        let maxVal := 2 ^ 64 - 1 in
        if n >=? cutoff then (maxVal, Some ErrRange)
        else
          let n := n * 10 in
          let n1 := (n + d) mod 2 ^ 64 in
          if (n1 <? n) || (n1 >? maxVal) then (maxVal, Some ErrRange)
          else parseUintLoop s' n1
      else (0, Some ErrSyntax)
  end.

Definition ParseUint (s : string) : Z * option numErr :=
  match s with
  | EmptyString => (0, Some ErrSyntax)
  | _ => parseUintLoop s 0
  end.

(** [ParseInt(s, 10, 0)]: the value and the kind of failure. *)
Definition ParseInt (s : string) : Z * option numErr :=
  match s with
  | EmptyString => (0, Some ErrSyntax)
  | String c0 s1 =>
      let neg := Ascii.eqb c0 "-" in
      let s' := if Ascii.eqb c0 "+" || neg then s1 else s in
      let '(un, err) := ParseUint s' in
      match err with
      | Some ErrSyntax => (0, Some ErrSyntax)
      | _ =>
          let cutoff := 2 ^ (IntSize - 1) in
          if negb neg && (un >=? cutoff) then (cutoff - 1, Some ErrRange)
          else if neg && (un >? cutoff) then (- cutoff, Some ErrRange)
          else (if neg then - un else un, None)
      end
  end.

(** [Atoi(s)] is [ParseInt(s, 10, 0)] converted to [int]; a failure is
    reported as a [*NumError] whose [Func] is "Atoi". *)
Definition Atoi (s : string) : Z * option error :=
  let '(i64, err) := ParseInt s in
  match err with
  | None => (i64, None)
  | Some e => (i64, Some (NumError "Atoi" s e))
  end.

(** [Itoa] for a non-negative argument, by the division loop of
    [formatBits]: digits are produced from the least significant one. *)
Fixpoint formatBits (fuel : nat) (u : Z) (buf : string) : string :=
  match fuel with
  | O => buf
  | S fuel' =>
      if u >=? 10 then
        let q := u / 10 in
        formatBits fuel' q (String (ascii_of_N (Z.to_N (u - q * 10 + 48))) buf)
      else String (ascii_of_N (Z.to_N (u + 48))) buf
  end.

Definition Itoa (i : Z) : string :=
  if i <? 0 then String "-" (formatBits 20 (- i) EmptyString)
  else formatBits 20 i EmptyString.

End strconv.

(** ** strings *)

Module strings.

(** [unicode.IsSpace] on the UTF-8 encoding of a rune.  White space is:
    the six ASCII bytes of [asciiSpace]; U+0085 and U+00A0, encoded on two
    bytes; U+1680, U+2000..U+200A, U+2028, U+2029, U+202F, U+205F and
    U+3000, encoded on three bytes.  No rune of four bytes is white space,
    and a byte sequence that is not valid UTF-8 decodes to U+FFFD, which is
    not white space either. *)
Definition asciiSpace (c : ascii) : bool :=
  let b := byteOf c in
  (b =? 9) || (b =? 10) || (b =? 11) || (b =? 12) || (b =? 13) || (b =? 32).

Definition isSpace2 (c0 c1 : ascii) : bool :=
  let b0 := byteOf c0 in
  let b1 := byteOf c1 in
  (b0 =? 194) && ((b1 =? 133) || (b1 =? 160)).

Definition isSpace3 (c0 c1 c2 : ascii) : bool :=
  let b0 := byteOf c0 in
  let b1 := byteOf c1 in
  let b2 := byteOf c2 in
  ((b0 =? 225) && (b1 =? 154) && (b2 =? 128))
  || ((b0 =? 226) && (b1 =? 128)
      && (((128 <=? b2) && (b2 <=? 138)) || (b2 =? 168) || (b2 =? 169) || (b2 =? 175)))
  || ((b0 =? 226) && (b1 =? 129) && (b2 =? 159))
  || ((b0 =? 227) && (b1 =? 128) && (b2 =? 128)).

(** The string is read rune by rune and cut at the first rune that is not
    white space; [is2] and [is3] recognise the white space of two and of
    three bytes in the order the bytes are met. *)
Fixpoint trimRunes (is2 : ascii -> ascii -> bool) (is3 : ascii -> ascii -> ascii -> bool)
    (s : string) : string :=
  match s with
  | EmptyString => EmptyString
  | String c0 s1 =>
      if asciiSpace c0 then trimRunes is2 is3 s1
      else
        match s1 with
        | EmptyString => s
        | String c1 s2 =>
            if is2 c0 c1 then trimRunes is2 is3 s2
            else
              match s2 with
              | EmptyString => s
              | String c2 s3 => if is3 c0 c1 c2 then trimRunes is2 is3 s3 else s
              end
        end
  end.

(** [TrimLeftFunc(s, unicode.IsSpace)]. *)
Definition trimLeftSpace (s : string) : string :=
  trimRunes isSpace2 isSpace3 s.

(** [TrimRightFunc(s, unicode.IsSpace)] reads the runes from the end, with
    [DecodeLastRuneInString]: on the reversed string, the bytes of an
    encoding are met last byte first. *)
Definition trimRightSpace (s : string) : string :=
  string_rev
    (trimRunes (fun c0 c1 => isSpace2 c1 c0) (fun c0 c1 c2 => isSpace3 c2 c1 c0)
       (string_rev s)).

(** [TrimSpace(s)]: leading white space goes first, then the trailing white
    space of what is left. *)
Definition TrimSpace (s : string) : string :=
  trimRightSpace (trimLeftSpace s).

End strings.

(** ** regexp

    The three expressions of the package use literals, [\d], concatenation,
    the greedy [?] and [+], capturing groups and the anchors [^] and [$]
    (without the [m] flag, so that they match at the two ends of the text
    only).  The matcher is a backtracking one: it lists the ways an
    expression matches at a position, the preferred way first, which is the
    leftmost-first rule of the [regexp] package. *)

Module regexp.

Inductive Regexp : Type :=
| Lit (c : ascii)
| Digit
| Cat (r1 r2 : Regexp)
| Quest (r : Regexp)
| Plus (r : Regexp)
| Group (n : nat) (r : Regexp)
| BeginText
| EndText.

(** A position in the subject: the offset, the text still to be read, and
    the groups captured so far (the latest binding of a group first). *)
Record mstate : Type := mkState {
  pos : nat;
  rest : string;
  caps : list (nat * string)
}.

(** The text read between two positions of one subject. *)
Definition consumed (from to : mstate) : string :=
  substring 0 (pos to - pos from) (rest from).

Definition advance (st : mstate) (s' : string) : mstate :=
  mkState (S (pos st)) s' (caps st).

(** One or more greedy repetitions of [f]: after each repetition, one more
    is tried before stopping.  A repetition that reads nothing is not
    repeated. *)
Definition many (f : mstate -> list mstate) : nat -> mstate -> list mstate :=
  fix go (fuel : nat) (st : mstate) : list mstate :=
    flat_map
      (fun st' =>
         match fuel with
         | O => [st']
         | S fuel' =>
             ((if Nat.ltb (pos st) (pos st') then go fuel' st' else []) ++ [st'])%list
         end)
      (f st).

Fixpoint step (r : Regexp) (st : mstate) : list mstate :=
  match r with
  | Lit c =>
      match rest st with
      | String c' s' => if Ascii.eqb c c' then [advance st s'] else []
      | EmptyString => []
      end
  | Digit =>
      match rest st with
      | String c' s' => if isDigit c' then [advance st s'] else []
      | EmptyString => []
      end
  | Cat r1 r2 => flat_map (step r2) (step r1 st)
  | Quest r1 => (step r1 st ++ [st])%list
  | Plus r1 => many (step r1) (String.length (rest st)) st
  | Group n r1 =>
      map (fun st' => mkState (pos st') (rest st') ((n, consumed st st') :: caps st'))
          (step r1 st)
  | BeginText => if Nat.eqb (pos st) 0 then [st] else []
  | EndText =>
      match rest st with
      | EmptyString => [st]
      | String _ _ => []
      end
  end.

Fixpoint NumSubexp (r : Regexp) : nat :=
  match r with
  | Cat r1 r2 => NumSubexp r1 + NumSubexp r2
  | Quest r1 | Plus r1 => NumSubexp r1
  | Group _ r1 => S (NumSubexp r1)
  | _ => 0
  end.

Fixpoint capture (n : nat) (cs : list (nat * string)) : string :=
  match cs with
  | [] => EmptyString
  | (m, s) :: cs' => if Nat.eqb n m then s else capture n cs'
  end.

(** The leftmost match: the first offset at which the expression matches,
    and there the preferred match. *)
Fixpoint findFrom (r : Regexp) (offset : nat) (s : string) : option (mstate * mstate) :=
  let st := mkState offset s [] in
  match step r st with
  | st' :: _ => Some (st, st')
  | [] =>
      match s with
      | EmptyString => None
      | String _ s' => findFrom r (S offset) s'
      end
  end.

(** [re.FindStringSubmatch(s)]: the text of the match followed by the text
    of each group, or the nil slice when there is no match. *)
Definition FindStringSubmatch (r : Regexp) (s : string) : list string :=
  match findFrom r 0 s with
  | None => []
  | Some (st, st') =>
      consumed st st' :: map (fun n => capture n (caps st')) (seq 1 (NumSubexp r))
  end.

Definition MatchString (r : Regexp) (s : string) : bool :=
  match findFrom r 0 s with
  | None => false
  | Some _ => true
  end.

(** A literal string. *)
Fixpoint Str (s : string) : Regexp -> Regexp :=
  match s with
  | EmptyString => fun k => k
  | String c s' => fun k => Cat (Lit c) (Str s' k)
  end.

End regexp.

(** ** path/filepath *)

Module filepath.

(** The elements of a path, cut at each separator. *)
Fixpoint split (s : string) : list string :=
  match s with
  | EmptyString => [EmptyString]
  | String c s' =>
      if Ascii.eqb c "/" then EmptyString :: split s'
      else
        match split s' with
        | h :: t => String c h :: t
        | [] => [String c EmptyString]
        end
  end.

(** One element of [Clean]'s loop; [out] holds the elements written so far,
    the last one first. *)
Definition cleanStep (rooted : bool) (out : list string) (elem : string) : list string :=
  if String.eqb elem "" || String.eqb elem "." then out
  else if String.eqb elem ".." then
    match out with
    | top :: out' => if String.eqb top ".." then elem :: out else out'
    | [] => if rooted then out else [elem]
    end
  else elem :: out.

Definition Clean (path : string) : string :=
  match path with
  | EmptyString => "."
  | String c _ =>
      let rooted := Ascii.eqb c "/" in
      let out := rev (fold_left (cleanStep rooted) (split path) []) in
      let body := String.concat "/" out in
      if rooted then String "/" body
      else match out with [] => "." | _ => body end
  end.

(** [Join(elem...)]: leading empty elements are dropped, the others are
    joined by the separator and the result is cleaned. *)
Fixpoint Join (elem : list string) : string :=
  match elem with
  | [] => EmptyString
  | e :: elem' =>
      if String.eqb e "" then Join elem' else Clean (String.concat "/" elem)
  end.

End filepath.

(** ** The filesystem capability and the programs over it

    [utilfs.Fs] is an interface value; the package reaches the device tree
    through its [ReadFile], [ReadDir] and [Stat] only.  A program over it is
    a tree of such calls, and running a program against a filesystem gives
    its outcome together with the calls it made, in order.

    [getPCIFromDeviceName] is declared in another file of the package; it
    reads the device tree too, and is taken as one more operation of the
    environment, returning a PCI address and an error. *)

Inductive prog (A : Type) : Type :=
| Ret (a : A)
| Panic (msg : string)
| ReadFileOp (name : string) (k : string * option fsError -> prog A)
| ReadDirOp (dirname : string) (k : list string * option fsError -> prog A)
| StatOp (name : string) (k : option fsError -> prog A)
| PCIFromDeviceNameOp (netdevName : string) (k : string * option error -> prog A).

Arguments Ret {A} a.
Arguments Panic {A} msg.
Arguments ReadFileOp {A} name k.
Arguments ReadDirOp {A} dirname k.
Arguments StatOp {A} name k.
Arguments PCIFromDeviceNameOp {A} netdevName k.

Fixpoint bind {A B : Type} (p : prog A) (f : A -> prog B) : prog B :=
  match p with
  | Ret a => f a
  | Panic msg => Panic msg
  | ReadFileOp name k => ReadFileOp name (fun x => bind (k x) f)
  | ReadDirOp dirname k => ReadDirOp dirname (fun x => bind (k x) f)
  | StatOp name k => StatOp name (fun x => bind (k x) f)
  | PCIFromDeviceNameOp n k => PCIFromDeviceNameOp n (fun x => bind (k x) f)
  end.

Declare Scope prog_scope.
Delimit Scope prog_scope with prog.
Bind Scope prog_scope with prog.

Notation "x <- c1 ;; c2" := (bind c1 (fun x => c2))
  (at level 61, c1 at next level, right associativity) : prog_scope.
Notation "' pat <- c1 ;; c2" := (bind c1 (fun x => match x with pat => c2 end))
  (at level 61, pat pattern, c1 at next level, right associativity) : prog_scope.

Module utilfs.
Definition ReadFile (name : string) : prog (string * option fsError) :=
  ReadFileOp name Ret.
Definition ReadDir (dirname : string) : prog (list string * option fsError) :=
  ReadDirOp dirname Ret.
Definition Stat (name : string) : prog (option fsError) :=
  StatOp name Ret.
End utilfs.

Definition getPCIFromDeviceName (netdevName : string) : prog (string * option error) :=
  PCIFromDeviceNameOp netdevName Ret.

(** What a filesystem answers.  [ReadFile] gives the bytes of a file,
    [ReadDir] the names of the entries of a directory, [Stat] only whether
    it failed. *)
Record Filesystem : Type := mkFilesystem {
  fsReadFile : string -> string * option fsError;
  fsReadDir : string -> list string * option fsError;
  fsStat : string -> option fsError;
  fsPCIFromDeviceName : string -> string * option error
}.

Inductive call : Type :=
| CallReadFile (name : string)
| CallReadDir (dirname : string)
| CallStat (name : string)
| CallPCIFromDeviceName (netdevName : string).

Inductive outcome (A : Type) : Type :=
| Returned (a : A)
| Panicked (msg : string).

Arguments Returned {A} a.
Arguments Panicked {A} msg.

Fixpoint run {A : Type} (fs : Filesystem) (p : prog A) : outcome A * list call :=
  match p with
  | Ret a => (Returned a, [])
  | Panic msg => (Panicked msg, [])
  | ReadFileOp name k =>
      let '(o, t) := run fs (k (fsReadFile fs name)) in (o, CallReadFile name :: t)
  | ReadDirOp dirname k =>
      let '(o, t) := run fs (k (fsReadDir fs dirname)) in (o, CallReadDir dirname :: t)
  | StatOp name k =>
      let '(o, t) := run fs (k (fsStat fs name)) in (o, CallStat name :: t)
  | PCIFromDeviceNameOp n k =>
      let '(o, t) := run fs (k (fsPCIFromDeviceName fs n)) in
      (o, CallPCIFromDeviceName n :: t)
  end.

Definition eval {A : Type} (fs : Filesystem) (p : prog A) : outcome A := fst (run fs p).
Definition trace {A : Type} (fs : Filesystem) (p : prog A) : list call := snd (run fs p).

(** ** sriovnet_switchdev.go *)

Definition netdevPhysSwitchID : string := "phys_switch_id".
Definition netdevPhysPortName : string := "phys_port_name".

Import regexp.

(** [^p(\d+)$]: the physical (uplink) port name. *)
Definition physPortRepRegex : Regexp :=
  Cat BeginText (Str "p" (Cat (Group 1 (Plus Digit)) EndText)).

(** [^(?:c\d+)?pf(\d+)$]: the PF representor port name. *)
Definition pfPortRepRegex : Regexp :=
  Cat BeginText
    (Cat (Quest (Str "c" (Plus Digit)))
       (Str "pf" (Cat (Group 1 (Plus Digit)) EndText))).

(** [^(?:c\d+)?pf(\d+)vf(\d+)$]: the VF representor port name. *)
Definition vfPortRepRegex : Regexp :=
  Cat BeginText
    (Cat (Quest (Str "c" (Plus Digit)))
       (Str "pf" (Cat (Group 1 (Plus Digit))
          (Str "vf" (Cat (Group 2 (Plus Digit)) EndText))))).

Definition parsePortName (physPortName : string) : Z * Z * option error :=
  let pfRepIndex := -1 in
  let vfRepIndex := -1 in
  (* old kernel syntax of phys_port_name is vf index *)
  let physPortName := strings.TrimSpace physPortName in
  let '(physPortNameInt, err) := strconv.Atoi physPortName in
  if isNil err then (pfRepIndex, physPortNameInt, err)
  else
    (* new kernel syntax of phys_port_name [cZ]pfXVfY *)
    let matches := FindStringSubmatch vfPortRepRegex physPortName in
    if negb (Nat.eqb (List.length matches) 3) then
      (pfRepIndex, vfRepIndex,
       Some (Errorf ("failed to parse physPortName " ++ physPortName)))
    else
      let '(pfRepIndex, err) := strconv.Atoi (nth 1 matches "") in
      if isNil err then
        let '(vfRepIndex, err) := strconv.Atoi (nth 2 matches "") in
        (pfRepIndex, vfRepIndex, err)
      else (pfRepIndex, vfRepIndex, err).

(** [s[len(s)-1]], which panics on the empty string. *)
Fixpoint lastByte (s : string) : option ascii :=
  match s with
  | EmptyString => None
  | String c EmptyString => Some c
  | String _ s' => lastByte s'
  end.

(** [string(b)] for a byte [b]: the UTF-8 encoding of the code point [b]. *)
Definition stringOfByte (c : ascii) : string :=
  let b := byteOf c in
  if b <? 128 then String c EmptyString
  else
    String (ascii_of_N (Z.to_N (Z.lor 192 (Z.shiftr b 6))))
      (String (ascii_of_N (Z.to_N (Z.lor 128 (Z.land b 63)))) EmptyString).

Section Switchdev.

(** The two roots of the device tree, declared in another file of the
    package. *)
Variables NetSysDir PciSysDir : string.

Local Open Scope prog_scope.

Definition isSwitchdev (netdevice : string) : prog bool :=
  let swIDFile := filepath.Join [NetSysDir; netdevice; netdevPhysSwitchID] in
  '(physSwitchID, err) <- utilfs.ReadFile swIDFile ;;
  if negb (isNil err) then Ret false
  else if negb (String.eqb physSwitchID "") then Ret true
  else Ret false.

Definition getNetDevPhysPortName (netDev : string) : prog (string * option error) :=
  let devicePortNameFile := filepath.Join [NetSysDir; netDev; netdevPhysPortName] in
  '(physPortName, err) <- utilfs.ReadFile devicePortNameFile ;;
  match err with
  | Some e => Ret ("", Some (FsError e))
  | None => Ret (strings.TrimSpace physPortName, None)
  end.

(** The loop of [GetUplinkRepresentor] over the listed devices, and what
    follows it. *)
Fixpoint uplinkLoop (pciAddress : string) (devices : list string)
  : prog (string * option error) :=
  match devices with
  | [] => Ret ("", Some (Errorf ("uplink for " ++ pciAddress ++ " not found")))
  | device :: devices' =>
      sw <- isSwitchdev device ;;
      if sw then
        (* Try to get the phys port name, if not exists then fallback to
           check without it *)
        '(devicePhysPortName, err) <- getNetDevPhysPortName device ;;
        if isNil err && negb (MatchString physPortRepRegex devicePhysPortName)
        then uplinkLoop pciAddress devices'
        else Ret (device, None)
      else uplinkLoop pciAddress devices'
  end.

Definition GetUplinkRepresentor (pciAddress : string) : prog (string * option error) :=
  let devicePath := filepath.Join [PciSysDir; pciAddress; "physfn"; "net"] in
  err <- utilfs.Stat devicePath ;;
  let devicePath :=
    match err with
    | Some e =>
        if fsIsNotExist e then
          (* If physfn symlink to the parent PF doesn't exist, use the
             current device's dir *)
          filepath.Join [PciSysDir; pciAddress; "net"]
        else devicePath
    | None => devicePath
    end in
  '(devices, err) <- utilfs.ReadDir devicePath ;;
  match err with
  | Some e =>
      Ret ("", Some (Errorf ("failed to lookup " ++ pciAddress ++ ": " ++ fsErrorText e)))
  | None => uplinkLoop pciAddress devices
  end.

(** The loop of [GetVfRepresentor] over the siblings, and what follows it. *)
Fixpoint vfRepresentorLoop (uplink physSwitchID : string) (vfIndex : Z)
    (devices : list string) : prog (string * option error) :=
  match devices with
  | [] => Ret ("", Some (Errorf ("failed to find VF representor for uplink " ++ uplink)))
  | device :: devices' =>
      let continue := vfRepresentorLoop uplink physSwitchID vfIndex devices' in
      let devicePath := filepath.Join [NetSysDir; device] in
      let deviceSwIDFile := filepath.Join [devicePath; netdevPhysSwitchID] in
      '(deviceSwID, err) <- utilfs.ReadFile deviceSwIDFile ;;
      if negb (isNil err) || negb (String.eqb deviceSwID physSwitchID) then continue
      else
        '(physPortNameStr, err) <- getNetDevPhysPortName device ;;
        if negb (isNil err) then continue
        else
          let '(pfRepIndex, vfRepIndex, _) := parsePortName physPortNameStr in
          (* At this point we're confident we have a representor. *)
          let found :=
            if vfRepIndex =? vfIndex then Ret (device, None) else continue in
          if negb (pfRepIndex =? -1) then
            '(pfPCIAddress, err) <- getPCIFromDeviceName uplink ;;
            if negb (isNil err) then continue
            else
              match lastByte pfPCIAddress with
              | None => Panic "index out of range"
              | Some b =>
                  let '(PCIFuncAddress, err) := strconv.Atoi (stringOfByte b) in
                  if negb (pfRepIndex =? PCIFuncAddress) || negb (isNil err)
                  then continue
                  else found
              end
          else found
  end.

Definition GetVfRepresentor (uplink : string) (vfIndex : Z)
  : prog (string * option error) :=
  let swIDFile := filepath.Join [NetSysDir; uplink; netdevPhysSwitchID] in
  '(physSwitchID, err) <- utilfs.ReadFile swIDFile ;;
  if negb (isNil err) || String.eqb physSwitchID "" then
    Ret ("", Some (Errorf ("cant get uplink " ++ uplink ++ " switch id")))
  else
    let pfSubsystemPath := filepath.Join [NetSysDir; uplink; "subsystem"] in
    '(devices, err) <- utilfs.ReadDir pfSubsystemPath ;;
    match err with
    | Some e => Ret ("", Some (FsError e))
    | None => vfRepresentorLoop uplink physSwitchID vfIndex devices
    end.

End Switchdev.


(** ** The vocabulary of the design document *)

(** The range of [int]. *)
Definition MaxInt : Z := 2 ^ 63 - 1.
Definition MinInt : Z := - 2 ^ 63.
Definition inIntRange (z : Z) : Prop := MinInt <= z <= MaxInt.

(** The white-space runes, each as its UTF-8 encoding. *)
Definition whiteSpaceRunes : list string :=
  [ String "009" ""; String "010" ""; String "011" ""; String "012" "";
    String "013" ""; String "032" "";
    String "194" (String "133" ""); String "194" (String "160" "");
    String "225" (String "154" (String "128" ""));
    String "226" (String "128" (String "128" ""));
    String "226" (String "128" (String "129" ""));
    String "226" (String "128" (String "130" ""));
    String "226" (String "128" (String "131" ""));
    String "226" (String "128" (String "132" ""));
    String "226" (String "128" (String "133" ""));
    String "226" (String "128" (String "134" ""));
    String "226" (String "128" (String "135" ""));
    String "226" (String "128" (String "136" ""));
    String "226" (String "128" (String "137" ""));
    String "226" (String "128" (String "138" ""));
    String "226" (String "128" (String "168" ""));
    String "226" (String "128" (String "169" ""));
    String "226" (String "128" (String "175" ""));
    String "226" (String "129" (String "159" ""));
    String "227" (String "128" (String "128" "")) ].

(** A run of white space. *)
Inductive whiteSpace : string -> Prop :=
| whiteSpace_nil : whiteSpace ""
| whiteSpace_rune (r s : string) :
    In r whiteSpaceRunes -> whiteSpace s -> whiteSpace (r ++ s).

(** A pure integer: an optional sign and a run of digits; and its value. *)
Definition isIntLiteral (s : string) : bool :=
  match s with
  | EmptyString => false
  | String c s' =>
      if Ascii.eqb c "+" || Ascii.eqb c "-" then isNumeral s' else isNumeral s
  end.

Definition intLiteralValue (s : string) : Z :=
  match s with
  | EmptyString => 0
  | String c s' =>
      if Ascii.eqb c "-" then - decimalValue s'
      else if Ascii.eqb c "+" then decimalValue s'
      else decimalValue s
  end.

(** The legacy shape: the pure integer [n], optionally surrounded by white
    space. *)
Definition legacyShape (s n : string) : Prop :=
  exists w1 w2,
    whiteSpace w1 /\ whiteSpace w2 /\ isIntLiteral n = true /\ s = w1 ++ n ++ w2.

(** The optional controller prefix [c<digits>]. *)
Definition controllerPrefix (c : string) : Prop :=
  c = "" \/ exists n, isNumeral n = true /\ c = "c" ++ n.

(** The modern shape [^(?:c<digits>)?pf<digits>vf<digits>$], with its two
    digit groups. *)
Definition modernShape (s pf vf : string) : Prop :=
  exists c,
    controllerPrefix c /\ isNumeral pf = true /\ isNumeral vf = true
    /\ s = c ++ "pf" ++ pf ++ "vf" ++ vf.

(** A name that decodes: a pure integer whose value is in the range of
    [int], or a name of the modern shape whose two digit groups are. *)
Definition decodableName (t : string) : Prop :=
  (isIntLiteral t = true /\ inIntRange (intLiteralValue t))
  \/ (exists pf vf,
        modernShape t pf vf /\ decimalValue pf <= MaxInt /\ decimalValue vf <= MaxInt).

(** The uplink shape [^p<digits>$]. *)
Definition uplinkShape (s : string) : Prop :=
  exists n, isNumeral n = true /\ s = "p" ++ n.

Definition isUplinkShape (s : string) : bool :=
  match s with
  | String c n => Ascii.eqb c "p" && isNumeral n
  | EmptyString => false
  end.

(** The encoding ["pf{pf}vf{vf}"] of a pair of indices. *)
Definition encodePortName (pf vf : Z) : string :=
  "pf" ++ strconv.Itoa pf ++ "vf" ++ strconv.Itoa vf.

(** A message names a string when the string occurs in it. *)
Definition names (msg x : string) : Prop := exists a b, msg = a ++ x ++ b.

Fixpoint occurs (c : ascii) (s : string) : bool :=
  match s with
  | EmptyString => false
  | String c' s' => Ascii.eqb c c' || occurs c s'
  end.

(** The outcome of a resolver: the parsing succeeded, the parsing failed. *)
Definition succeeds (r : Z * Z * option error) : Prop := snd r = None.
Definition fails (r : Z * Z * option error) : Prop := snd r <> None.

(** Steps 3 and 4 of the uplink resolution, on a static filesystem: the
    candidate is switchdev-capable, and its port name is either unreadable or
    of the uplink shape. *)
Definition switchdevCapable (NetSysDir : string) (fs : Filesystem) (dev : string) : bool :=
  let '(id, err) :=
    fsReadFile fs (filepath.Join [NetSysDir; dev; netdevPhysSwitchID]) in
  isNil err && negb (String.eqb id "").

Definition uplinkCandidate (NetSysDir : string) (fs : Filesystem) (dev : string) : bool :=
  switchdevCapable NetSysDir fs dev
  && (let '(name, err) :=
        fsReadFile fs (filepath.Join [NetSysDir; dev; netdevPhysPortName]) in
      match err with
      | Some _ => true
      | None => isUplinkShape (strings.TrimSpace name)
      end).

(** On a filesystem at rest, a path that cannot be statted cannot be listed
    either: listing it resolves the same path. *)
Definition statCoherent (fs : Filesystem) : Prop :=
  forall name e,
    fsStat fs name = Some e ->
    exists entries e', fsReadDir fs name = (entries, Some e').

(** ** A device tree for the examples

    A filesystem given by the content of its files and the entries of its
    directories; a path of [denied] can be neither statted nor listed, and a
    path that is nowhere does not exist. *)

Record fixture : Type := mkFixture {
  files : list (string * string);
  dirs : list (string * list string);
  denied : list string;
  pciAddresses : list (string * string)
}.

Fixpoint assoc {V : Type} (k : string) (l : list (string * V)) : option V :=
  match l with
  | [] => None
  | (k', v) :: l' => if String.eqb k k' then Some v else assoc k l'
  end.

Definition isDenied (fx : fixture) (name : string) : bool :=
  existsb (String.eqb name) (denied fx).

Definition errNotExist (op name : string) : fsError :=
  mkFsError (op ++ " " ++ name ++ ": no such file or directory") true.

Definition errPermission (op name : string) : fsError :=
  mkFsError (op ++ " " ++ name ++ ": permission denied") false.

Definition fixtureFs (fx : fixture) : Filesystem :=
  mkFilesystem
    (fun name =>
       if isDenied fx name then ("", Some (errPermission "open" name))
       else match assoc name (files fx) with
            | Some content => (content, None)
            | None => ("", Some (errNotExist "open" name))
            end)
    (fun dirname =>
       if isDenied fx dirname then ([], Some (errPermission "open" dirname))
       else match assoc dirname (dirs fx) with
            | Some entries => (entries, None)
            | None => ([], Some (errNotExist "open" dirname))
            end)
    (fun name =>
       if isDenied fx name then Some (errPermission "stat" name)
       else match assoc name (files fx), assoc name (dirs fx) with
            | None, None => Some (errNotExist "stat" name)
            | _, _ => None
            end)
    (fun netdevName =>
       match assoc netdevName (pciAddresses fx) with
       | Some addr => (addr, None)
       | None => ("", Some (Errorf "could not find PCI Address"))
       end).

Definition netSysDir : string := "/sys/class/net".
Definition pciSysDir : string := "/sys/bus/pci/devices".

(** The uplink [p0] on switch [sw1], with the representor [pf0vf0] on the same
    switch and [pf0vf1] on another one; the VF [0000:03:00.4] of the PF
    [0000:03:00.0]; and a function [0000:03:00.5] whose [physfn] link cannot
    be followed. *)
Definition deviceTree : fixture :=
  mkFixture
    [ ("/sys/class/net/p0/phys_switch_id", "sw1");
      ("/sys/class/net/p0/phys_port_name", String "p" (String "0" (String "010" "")));
      ("/sys/class/net/pf0vf0/phys_switch_id", "sw1");
      ("/sys/class/net/pf0vf0/phys_port_name", "pf0vf0");
      ("/sys/class/net/pf0vf1/phys_switch_id", "sw2");
      ("/sys/class/net/pf0vf1/phys_port_name", "pf0vf1");
      ("/sys/class/net/eth0/phys_switch_id", "") ]
    [ ("/sys/class/net/p0/subsystem", ["eth0"; "p0"; "pf0vf0"; "pf0vf1"]);
      ("/sys/bus/pci/devices/0000:03:00.4/physfn/net", ["eth0"; "p0"]);
      ("/sys/bus/pci/devices/0000:03:00.5/net", ["p0"]) ]
    [ "/sys/bus/pci/devices/0000:03:00.5/physfn/net" ]
    [ ("p0", "0000:03:00.0") ].

(** ** The rest of sriovnet_switchdev.go *)

(** *** More of strings

    [Split], [SplitN], [TrimSuffix] and [Trim], for the separators and the
    cutset the package passes: one-byte separators, an ASCII cutset (which
    [Trim] then handles byte by byte). *)

Fixpoint Split (s : string) (sep : ascii) : list string :=
  match s with
  | EmptyString => [EmptyString]
  | String c s' =>
      if Ascii.eqb c sep then EmptyString :: Split s' sep
      else
        match Split s' sep with
        | h :: t => String c h :: t
        | [] => [String c EmptyString]
        end
  end.

(** [SplitN(s, sep, n)]: at most [n] substrings, the last one being the
    unsplit remainder; none at all when [n] is 0. *)
Fixpoint SplitN (s : string) (sep : ascii) (n : nat) {struct s} : list string :=
  match n with
  | O => []
  | S O => [s]
  | S (S _ as n') =>
      match s with
      | EmptyString => [EmptyString]
      | String c s' =>
          if Ascii.eqb c sep then EmptyString :: SplitN s' sep n'
          else
            match SplitN s' sep n with
            | h :: t => String c h :: t
            | [] => [String c EmptyString]
            end
      end
  end.

Definition HasSuffix (s suffix : string) : bool :=
  Nat.leb (String.length suffix) (String.length s)
  && String.eqb
       (substring (String.length s - String.length suffix) (String.length suffix) s)
       suffix.

Definition TrimSuffix (s suffix : string) : string :=
  if HasSuffix s suffix
  then substring 0 (String.length s - String.length suffix) s
  else s.

Fixpoint trimLeftBytes (cutset : string) (s : string) : string :=
  match s with
  | EmptyString => EmptyString
  | String c s' => if occurs c cutset then trimLeftBytes cutset s' else s
  end.

Definition trimRightBytes (cutset : string) (s : string) : string :=
  string_rev (trimLeftBytes cutset (string_rev s)).

Definition Trim (s cutset : string) : string :=
  trimLeftBytes cutset (trimRightBytes cutset s).

(** *** A [map[string]string]

    The map is the list of its entries, a key occurring once; [assoc] is the
    lookup and [mapSet] the assignment [m[k] = v]. *)
Definition mapSet (k v : string) (m : list (string * string)) : list (string * string) :=
  (k, v) :: filter (fun kv => negb (String.eqb k (fst kv))) m.

(** The cutset [" \t\n"]. *)
Definition configCutset : string := String " " (String "009" (String "010" "")).

Definition newline : string := String "010" "".

(** One iteration of the loop of [parseDPUConfigFileOutput]. *)
Definition parseDPUConfigLine (configMap : list (string * string)) (line : string)
  : list (string * string) :=
  let entry := SplitN line ":" 2 in
  if negb (Nat.eqb (List.length entry) 2) then
    (* unexpected line format *)
    configMap
  else
    mapSet (Trim (nth 0 entry "") configCutset) (Trim (nth 1 entry "") configCutset)
      configMap.

Definition parseDPUConfigFileOutput (out : string) : list (string * string) :=
  fold_left parseDPUConfigLine (Split (TrimSuffix out newline) "010") [].

(** *** The port flavours and the DPU stubs *)

Definition PORT_FLAVOUR_PHYSICAL : Z := 0.
Definition PORT_FLAVOUR_CPU : Z := 1.
Definition PORT_FLAVOUR_DSA : Z := 2.
Definition PORT_FLAVOUR_PCI_PF : Z := 3.
Definition PORT_FLAVOUR_PCI_VF : Z := 4.
Definition PORT_FLAVOUR_VIRTUAL : Z := 5.
Definition PORT_FLAVOUR_UNUSED : Z := 6.
Definition PORT_FLAVOUR_PCI_SF : Z := 7.
Definition PORT_FLAVOUR_UNKNOWN : Z := 65535.

Definition GetVfRepresentorDPU (pfID vfIndex : string) : string * option error :=
  if String.eqb vfIndex "0" then ("enP2p15s0v1", None)
  else if String.eqb vfIndex "1" then ("enP2p15s0v2", None)
  else if String.eqb vfIndex "2" then ("enP2p15s0v3", None)
  else if String.eqb vfIndex "3" then ("enP2p15s0v4", None)
  else if String.eqb vfIndex "4" then ("enP2p15s0v5", None)
  else if String.eqb vfIndex "5" then ("enP2p15s0v6", None)
  else if String.eqb vfIndex "6" then ("enP2p15s0v7", None)
  else if String.eqb vfIndex "7" then ("enP2p15s0v8", None)
  else ("", Some (Errorf ("naftaly: unexpected pfID(" ++ pfID ++ "). It should be 0 or 1"))).

(** The two [fmt.Errorf] calls of the source build values that are dropped. *)
Definition GetRepresentorPortFlavour (netdev : string) : Z * option error :=
  if String.eqb netdev "enP2p3s0" then (PORT_FLAVOUR_PCI_PF, None)
  else (PORT_FLAVOUR_UNKNOWN, None).

(** *** The search by port name *)

Section SwitchdevSearch.

Variable NetSysDir : string.

Local Open Scope prog_scope.

Fixpoint findNetdevLoop (criteria : string -> bool) (netdevs : list string)
  : prog (string * option error) :=
  match netdevs with
  | [] => Ret ("", Some (Errorf "no representor matched criteria"))
  | netdevName :: netdevs' =>
      (* skip non switchdev netdevs *)
      sw <- isSwitchdev NetSysDir netdevName ;;
      if negb sw then findNetdevLoop criteria netdevs'
      else
        '(portName, err) <- getNetDevPhysPortName NetSysDir netdevName ;;
        if negb (isNil err) then findNetdevLoop criteria netdevs'
        else if criteria portName then Ret (netdevName, None)
        else findNetdevLoop criteria netdevs'
  end.

Definition findNetdevWithPortNameCriteria (criteria : string -> bool)
  : prog (string * option error) :=
  '(netdevs, err) <- utilfs.ReadDir NetSysDir ;;
  match err with
  | Some e => Ret ("", Some (FsError e))
  | None => findNetdevLoop criteria netdevs
  end.

End SwitchdevSearch.

(** *** Vocabulary for the properties of these functions *)

(** The PF representor shape [^(?:c<digits>)?pf<digits>$]. *)
Definition pfShape (s : string) : Prop :=
  exists c n, controllerPrefix c /\ isNumeral n = true /\ s = c ++ "pf" ++ n.

(** No white-space rune at the front, for the recognisers of [trimRunes]. *)
Definition startsClean (is2 : ascii -> ascii -> bool)
    (is3 : ascii -> ascii -> ascii -> bool) (s : string) : bool :=
  match s with
  | EmptyString => true
  | String c0 s1 =>
      negb (strings.asciiSpace c0)
      && match s1 with
         | EmptyString => true
         | String c1 s2 =>
             negb (is2 c0 c1)
             && match s2 with
                | EmptyString => true
                | String c2 _ => negb (is3 c0 c1 c2)
                end
         end
  end.

(** What the loop of [GetVfRepresentor] requires of a sibling before it
    returns it: the switch identifier of the uplink, a port name that is read
    and gives the requested VF index, and, when the port name gives a PF
    index, the function digit of the uplink's PCI address equal to it. *)
Definition representorOf (NetSysDir : string) (fs : Filesystem)
    (uplink physSwitchID : string) (vfIndex : Z) (device : string) : Prop :=
  fsReadFile fs (filepath.Join [filepath.Join [NetSysDir; device]; netdevPhysSwitchID])
  = (physSwitchID, None)
  /\ exists raw pfRepIndex perr,
      fsReadFile fs (filepath.Join [NetSysDir; device; netdevPhysPortName]) = (raw, None)
      /\ parsePortName (strings.TrimSpace raw) = (pfRepIndex, vfIndex, perr)
      /\ (pfRepIndex = -1
          \/ exists pfPCIAddress b,
              fsPCIFromDeviceName fs uplink = (pfPCIAddress, None)
              /\ lastByte pfPCIAddress = Some b
              /\ strconv.Atoi (stringOfByte b) = (pfRepIndex, None)).

Definition isReadFileCall (c : call) : bool :=
  match c with
  | CallReadFile _ => true
  | _ => false
  end.

(** The device tree of the examples, with a PCI lookup of the uplink that
    succeeds on an empty address. *)
Definition deviceTreeEmptyPCI : fixture :=
  mkFixture (files deviceTree) (dirs deviceTree) (denied deviceTree) [ ("p0", "") ].

(** A DPU with two switchdev interfaces, for the search by port name. *)
Definition dpuTree : fixture :=
  mkFixture
    [ ("/sys/class/net/p0/phys_switch_id", "sw1");
      ("/sys/class/net/p0/phys_port_name", String "p" (String "0" (String "010" "")));
      ("/sys/class/net/p1/phys_switch_id", "sw1");
      ("/sys/class/net/p1/phys_port_name", String "p" (String "1" (String "010" "")));
      ("/sys/class/net/lo/phys_port_name", "p1") ]
    [ ("/sys/class/net", ["lo"; "p0"; "p1"]) ]
    []
    [].

(** What the search by port name requires of an interface: it is
    switchdev-capable, its port name is read, and the criteria holds of it. *)
Definition searchCandidate (NetSysDir : string) (fs : Filesystem)
    (criteria : string -> bool) (dev : string) : bool :=
  switchdevCapable NetSysDir fs dev
  && (let '(name, err) :=
        fsReadFile fs (filepath.Join [NetSysDir; dev; netdevPhysPortName]) in
      isNil err && criteria (strings.TrimSpace name)).

(** The calls the loop of [GetVfRepresentor] makes: readings of files, and
    the PCI lookup of the uplink. *)
Definition isSiblingCall (uplink : string) (c : call) : bool :=
  match c with
  | CallReadFile _ => true
  | CallPCIFromDeviceName n => String.eqb n uplink
  | _ => false
  end.

(** The text of a configuration: one line ["<key> : <value>"] for each
    entry, each line ended by a newline, as in the comment of
    [parseDPUConfigFileOutput]. *)
Fixpoint renderDPUConfig (entries : list (string * string)) : string :=
  match entries with
  | [] => EmptyString
  | (k, v) :: entries' => k ++ " : " ++ v ++ newline ++ renderDPUConfig entries'
  end.

(** * Properties *)

(** ** Strings *)

Lemma append_nil_r (s : string) : s ++ "" = s.
Proof. induction s as [|c s IH]; simpl; [reflexivity | now rewrite IH]. Qed.

Lemma append_assoc (a b c : string) : (a ++ b) ++ c = a ++ b ++ c.
Proof. induction a as [|x a IH]; simpl; [reflexivity | now rewrite IH]. Qed.

Lemma length_append (a b : string) :
  String.length (a ++ b) = (String.length a + String.length b)%nat.
Proof. induction a as [|x a IH]; simpl; [reflexivity | now rewrite IH]. Qed.

Lemma append_inv_head (a b c : string) : a ++ b = a ++ c -> b = c.
Proof.
  induction a as [|x a IH]; simpl; intros H; [exact H | injection H as H; auto].
Qed.

Lemma string_rev_append (a b : string) :
  string_rev (a ++ b) = string_rev b ++ string_rev a.
Proof.
  induction a as [|x a IH]; simpl.
  - now rewrite append_nil_r.
  - now rewrite IH, append_assoc.
Qed.

Lemma string_rev_involutive (s : string) : string_rev (string_rev s) = s.
Proof.
  induction s as [|c s IH]; simpl; [reflexivity|].
  now rewrite string_rev_append, IH.
Qed.

Lemma substring_append_prefix (a b : string) :
  substring 0 (String.length a) (a ++ b) = a.
Proof.
  induction a as [|x a IH]; simpl.
  - now destruct b.
  - now rewrite IH.
Qed.

Lemma byteOf_range (c : ascii) : 0 <= byteOf c < 256.
Proof.
  unfold byteOf. pose proof (N_ascii_bounded c) as H. lia.
Qed.

Lemma byteOf_inj (c c' : ascii) : byteOf c = byteOf c' -> c = c'.
Proof.
  unfold byteOf. intros H. apply N2Z.inj in H.
  rewrite <- (ascii_N_embedding c), <- (ascii_N_embedding c'). now rewrite H.
Qed.

Lemma isDigit_range (c : ascii) : isDigit c = true -> 0 <= byteOf c - 48 <= 9.
Proof. unfold isDigit. intros H. apply andb_prop in H as [H1 H2]. lia. Qed.

Lemma allDigits_append (a b : string) :
  allDigits (a ++ b) = allDigits a && allDigits b.
Proof.
  induction a as [|x a IH]; simpl; [reflexivity|].
  now rewrite IH, andb_assoc.
Qed.

Lemma isNumeral_allDigits (s : string) : isNumeral s = true -> allDigits s = true.
Proof. destruct s; simpl; [discriminate | auto]. Qed.

Lemma isNumeral_cons (s : string) :
  isNumeral s = true -> exists c s', s = String c s' /\ isDigit c = true /\ allDigits s' = true.
Proof.
  destruct s as [|c s']; simpl; [discriminate|].
  intros H. apply andb_prop in H as [H1 H2]. eauto.
Qed.

Lemma digitsValue_lower (s : string) (acc : Z) :
  allDigits s = true -> 0 <= acc -> acc <= digitsValue acc s.
Proof.
  revert acc. induction s as [|c s IH]; simpl; intros acc Hd Hacc; [lia|].
  apply andb_prop in Hd as [Hc Hs]. apply isDigit_range in Hc.
  specialize (IH (acc * 10 + (byteOf c - 48)) Hs). lia.
Qed.

Lemma decimalValue_nonneg (s : string) : allDigits s = true -> 0 <= decimalValue s.
Proof. intros H. apply (digitsValue_lower s 0 H). lia. Qed.

(** ** strconv *)

Lemma parseUintLoop_cases (s : string) (n : Z) :
  0 <= n <= 18446744073709551615 ->
  (allDigits s = true /\ digitsValue n s <= 18446744073709551615
   /\ strconv.parseUintLoop s n = (digitsValue n s, None))
  \/ (strconv.parseUintLoop s n = (18446744073709551615, Some ErrRange)
      /\ ~ (allDigits s = true /\ digitsValue n s <= 18446744073709551615))
  \/ (strconv.parseUintLoop s n = (0, Some ErrSyntax) /\ allDigits s = false).
Proof.
  revert n. induction s as [|c s IH]; intros n Hn.
  - left. simpl. repeat split; lia.
  - cbn [strconv.parseUintLoop allDigits digitsValue].
    destruct (isDigit c) eqn:Hc; [|right; right; split; reflexivity].
    apply isDigit_range in Hc.
    change (strconv.maxUint64 / 10 + 1) with 1844674407370955162.
    change (2 ^ 64 - 1) with 18446744073709551615.
    change (2 ^ 64) with 18446744073709551616.
    cbn [andb].
    destruct (n >=? 1844674407370955162) eqn:Hcut.
    + right; left. split; [reflexivity|]. intros [Hs Hv].
      pose proof (digitsValue_lower s (n * 10 + (byteOf c - 48)) Hs). lia.
    + assert (Hlt : n < 1844674407370955162) by lia.
      destruct (Z_lt_le_dec (n * 10 + (byteOf c - 48)) 18446744073709551616) as [Hsmall|Hbig].
      * rewrite Z.mod_small by lia.
        replace ((n * 10 + (byteOf c - 48) <? n * 10)
                 || (n * 10 + (byteOf c - 48) >? 18446744073709551615)) with false
          by (symmetry; apply orb_false_intro; lia).
        destruct (IH (n * 10 + (byteOf c - 48))) as [(Ha & Hb & Hr)|[(Hr & Hn')|(Hr & Hn')]];
          try lia.
        -- left. auto.
        -- right; left. split; [exact Hr|]. intros [Hs Hv]. apply Hn'. auto.
        -- right; right. auto.
      * assert (Hm : (n * 10 + (byteOf c - 48)) mod 18446744073709551616
                     = n * 10 + (byteOf c - 48) - 18446744073709551616).
        { symmetry. apply (Z.mod_unique _ _ 1); lia. }
        rewrite Hm.
        replace ((n * 10 + (byteOf c - 48) - 18446744073709551616 <? n * 10)
                 || (n * 10 + (byteOf c - 48) - 18446744073709551616 >? 18446744073709551615))
          with true by (symmetry; apply orb_true_intro; left; lia).
        right; left. split; [reflexivity|]. intros [Hs Hv].
        pose proof (digitsValue_lower s (n * 10 + (byteOf c - 48)) Hs). lia.
Qed.

Lemma ParseUint_cases (s : string) :
  (isNumeral s = true /\ decimalValue s <= 18446744073709551615
   /\ strconv.ParseUint s = (decimalValue s, None))
  \/ (strconv.ParseUint s = (18446744073709551615, Some ErrRange)
      /\ ~ (isNumeral s = true /\ decimalValue s <= 18446744073709551615))
  \/ (strconv.ParseUint s = (0, Some ErrSyntax) /\ isNumeral s = false).
Proof.
  destruct s as [|c s].
  - right; right. split; reflexivity.
  - unfold strconv.ParseUint, isNumeral, decimalValue.
    apply parseUintLoop_cases. lia.
Qed.

(** [ParseInt] succeeds exactly on the integer literals whose value is in the
    range of [int], and then returns that value. *)
Lemma ParseInt_spec (s : string) :
  (isIntLiteral s = true /\ inIntRange (intLiteralValue s)
   /\ strconv.ParseInt s = (intLiteralValue s, None))
  \/ (~ (isIntLiteral s = true /\ inIntRange (intLiteralValue s))
      /\ exists v e, strconv.ParseInt s = (v, Some e)).
Proof.
  destruct s as [|c0 s1].
  - right. split; [intros [H _]; discriminate | eexists _, _; reflexivity].
  - unfold strconv.ParseInt, isIntLiteral, intLiteralValue, inIntRange.
    change (2 ^ (strconv.IntSize - 1)) with 9223372036854775808.
    change MinInt with (-9223372036854775808).
    change MaxInt with 9223372036854775807.
    destruct (Ascii.eqb c0 "-") eqn:Hneg; destruct (Ascii.eqb c0 "+") eqn:Hplus;
      cbn [orb negb andb].
    1,2: destruct (ParseUint_cases s1) as [(Ha & Hb & Hr)|[(Hr & Hn)|(Hr & Hn)]];
      rewrite Hr;
      [ pose proof (decimalValue_nonneg s1 (isNumeral_allDigits _ Ha)) as Hpos;
        destruct (decimalValue s1 >? 9223372036854775808) eqn:Hc;
        [ right; split; [intros [_ H]; lia | eexists _, _; reflexivity]
        | left; repeat split; auto; lia ]
      | right; split;
        [ intros [H1 H2]; apply Hn; split; [exact H1 | lia]
        | cbn; eexists _, _; reflexivity ]
      | right; split; [intros [H _]; congruence | eexists _, _; reflexivity] ].
    + destruct (ParseUint_cases s1) as [(Ha & Hb & Hr)|[(Hr & Hn)|(Hr & Hn)]];
        rewrite Hr.
      * pose proof (decimalValue_nonneg s1 (isNumeral_allDigits _ Ha)) as Hpos.
        destruct (decimalValue s1 >=? 9223372036854775808) eqn:Hc.
        -- right. split; [intros [_ H]; lia | eexists _, _; reflexivity].
        -- left. repeat split; auto; lia.
      * right. split.
        -- intros [H1 H2]. apply Hn. split; [exact H1 | lia].
        -- cbn. eexists _, _; reflexivity.
      * right. split; [intros [H _]; congruence | eexists _, _; reflexivity].
    + destruct (ParseUint_cases (String c0 s1)) as [(Ha & Hb & Hr)|[(Hr & Hn)|(Hr & Hn)]];
        rewrite Hr.
      * pose proof (decimalValue_nonneg _ (isNumeral_allDigits _ Ha)) as Hpos.
        destruct (decimalValue (String c0 s1) >=? 9223372036854775808) eqn:Hc.
        -- right. split; [intros [_ H]; lia | eexists _, _; reflexivity].
        -- left. repeat split; auto; lia.
      * right. split.
        -- intros [H1 H2]. apply Hn. split; [exact H1 | lia].
        -- cbn. eexists _, _; reflexivity.
      * right. split; [intros [H _]; congruence | eexists _, _; reflexivity].
Qed.

Lemma Atoi_ok (s : string) :
  isIntLiteral s = true -> inIntRange (intLiteralValue s) ->
  strconv.Atoi s = (intLiteralValue s, None).
Proof.
  intros H1 H2. unfold strconv.Atoi.
  destruct (ParseInt_spec s) as [(_ & _ & Hr)|(Hn & _)]; [now rewrite Hr | tauto].
Qed.

Lemma Atoi_success (s : string) (v : Z) :
  strconv.Atoi s = (v, None) ->
  isIntLiteral s = true /\ inIntRange (intLiteralValue s) /\ v = intLiteralValue s.
Proof.
  unfold strconv.Atoi.
  destruct (ParseInt_spec s) as [(Ha & Hb & Hr)|(Hn & v' & e & Hr)]; rewrite Hr.
  - intros H. injection H as H. auto.
  - discriminate.
Qed.

Lemma Atoi_failure (s : string) :
  ~ (isIntLiteral s = true /\ inIntRange (intLiteralValue s)) ->
  exists v e, strconv.Atoi s = (v, Some e).
Proof.
  intros Hn. unfold strconv.Atoi.
  destruct (ParseInt_spec s) as [(Ha & Hb & _)|(_ & v' & e & Hr)]; [tauto|].
  rewrite Hr. eexists _, _; reflexivity.
Qed.

Lemma digitsValue_append (a b : string) (acc : Z) :
  digitsValue acc (a ++ b) = digitsValue (digitsValue acc a) b.
Proof. revert acc. induction a as [|x a IH]; simpl; intros acc; [reflexivity | apply IH]. Qed.

Lemma byteOf_ascii_of_N (z : Z) :
  0 <= z < 256 -> byteOf (ascii_of_N (Z.to_N z)) = z.
Proof.
  intros H. unfold byteOf. rewrite N_ascii_embedding by lia. lia.
Qed.

Lemma formatBits_S (fuel : nat) (u : Z) (buf : string) :
  strconv.formatBits (S fuel) u buf =
  if u >=? 10 then
    strconv.formatBits fuel (u / 10)
      (String (ascii_of_N (Z.to_N (u - u / 10 * 10 + 48))) buf)
  else String (ascii_of_N (Z.to_N (u + 48))) buf.
Proof. reflexivity. Qed.

Lemma formatBits_spec (fuel : nat) (u : Z) (buf : string) :
  0 <= u < 10 ^ Z.of_nat (S fuel) ->
  exists ds,
    strconv.formatBits (S fuel) u buf = ds ++ buf
    /\ isNumeral ds = true /\ decimalValue ds = u.
Proof.
  revert u buf. induction fuel as [|fuel IH]; intros u buf Hu;
    rewrite formatBits_S; destruct (u >=? 10) eqn:H10.
  - change (10 ^ Z.of_nat 1) with 10 in Hu. lia.
  - exists (String (ascii_of_N (Z.to_N (u + 48))) "").
    assert (Hb : byteOf (ascii_of_N (Z.to_N (u + 48))) = u + 48)
      by (apply byteOf_ascii_of_N; lia).
    split; [reflexivity|]. split.
    + cbn [isNumeral allDigits]. unfold isDigit. rewrite Hb.
      rewrite andb_true_r. apply andb_true_intro. lia.
    + unfold decimalValue. cbn [digitsValue]. rewrite Hb. lia.
  - assert (Hq : 0 <= u / 10 < 10 ^ Z.of_nat (S fuel)).
    { rewrite (Nat2Z.inj_succ (S fuel)), Z.pow_succ_r in Hu by lia.
      split; [apply Z.div_pos; lia | apply Z.div_lt_upper_bound; lia]. }
    destruct (IH (u / 10)
                (String (ascii_of_N (Z.to_N (u - u / 10 * 10 + 48))) buf) Hq)
      as (ds & Hf & Hnum & Hval).
    pose proof (Z.div_mod u 10 ltac:(lia)) as Hdm.
    pose proof (Z.mod_pos_bound u 10 ltac:(lia)) as Hmod.
    assert (Hb : byteOf (ascii_of_N (Z.to_N (u - u / 10 * 10 + 48)))
                 = u - u / 10 * 10 + 48) by (apply byteOf_ascii_of_N; lia).
    exists (ds ++ String (ascii_of_N (Z.to_N (u - u / 10 * 10 + 48))) "").
    split; [|split].
    + rewrite Hf, append_assoc. reflexivity.
    + destruct ds as [|d ds]; [discriminate|].
      cbn [append isNumeral]. cbn [isNumeral] in Hnum. cbn [allDigits] in *.
      apply andb_prop in Hnum as [Hd Hds]. rewrite Hd, allDigits_append, Hds.
      cbn [allDigits andb]. unfold isDigit. rewrite Hb.
      rewrite andb_true_r. apply andb_true_intro. lia.
    + unfold decimalValue in *. rewrite digitsValue_append, Hval.
      cbn [digitsValue]. rewrite Hb. lia.
  - exists (String (ascii_of_N (Z.to_N (u + 48))) "").
    assert (Hb : byteOf (ascii_of_N (Z.to_N (u + 48))) = u + 48)
      by (apply byteOf_ascii_of_N; lia).
    split; [reflexivity|]. split.
    + cbn [isNumeral allDigits]. unfold isDigit. rewrite Hb.
      rewrite andb_true_r. apply andb_true_intro. lia.
    + unfold decimalValue. cbn [digitsValue]. rewrite Hb. lia.
Qed.

Lemma Itoa_nonneg (i : Z) :
  0 <= i <= MaxInt ->
  isNumeral (strconv.Itoa i) = true /\ decimalValue (strconv.Itoa i) = i.
Proof.
  intros Hi. unfold strconv.Itoa.
  replace (i <? 0) with false by (symmetry; apply Z.ltb_ge; lia).
  destruct (formatBits_spec 19 i "") as (ds & Hf & Hnum & Hval).
  { change MaxInt with 9223372036854775807 in Hi.
    change (10 ^ Z.of_nat 20) with 100000000000000000000. lia. }
  rewrite Hf, append_nil_r. auto.
Qed.

Lemma isNumeral_isIntLiteral (s : string) :
  isNumeral s = true -> isIntLiteral s = true /\ intLiteralValue s = decimalValue s.
Proof.
  intros H. destruct (isNumeral_cons s H) as (c & s' & -> & Hc & Hs).
  unfold isIntLiteral, intLiteralValue.
  assert (Hp : Ascii.eqb c "+" = false).
  { apply Ascii.eqb_neq. intros ->. discriminate. }
  assert (Hm : Ascii.eqb c "-" = false).
  { apply Ascii.eqb_neq. intros ->. discriminate. }
  rewrite Hp, Hm. cbn [orb]. auto.
Qed.

(** A run of digits within the range of [int] is read back by [Atoi]. *)
Lemma Atoi_numeral (s : string) :
  isNumeral s = true -> decimalValue s <= MaxInt ->
  strconv.Atoi s = (decimalValue s, None).
Proof.
  intros H Hv. destruct (isNumeral_isIntLiteral s H) as [Hl Hval].
  rewrite <- Hval. apply Atoi_ok; [exact Hl|].
  rewrite Hval. unfold inIntRange.
  pose proof (decimalValue_nonneg s (isNumeral_allDigits _ H)).
  change MinInt with (-9223372036854775808). lia.
Qed.

Lemma Atoi_numeral_inv (s : string) (v : Z) :
  isNumeral s = true -> strconv.Atoi s = (v, None) ->
  v = decimalValue s /\ 0 <= v <= MaxInt.
Proof.
  intros H Ha. destruct (isNumeral_isIntLiteral s H) as [Hl Hval].
  apply Atoi_success in Ha as (_ & Hr & ->). rewrite Hval in *.
  pose proof (decimalValue_nonneg s (isNumeral_allDigits _ H)).
  unfold inIntRange in Hr. lia.
Qed.

(** ** strings.TrimSpace *)

Ltac byte_eq H :=
  match type of H with
  | byteOf ?c = ?k =>
      let E := fresh "E" in
      assert (E : c = ascii_of_N (Z.to_N k))
        by (apply byteOf_inj; rewrite H; reflexivity);
      cbv in E; subst c; clear H
  end.

Ltac in_runes :=
  unfold whiteSpaceRunes; cbn [In]; repeat (first [left; reflexivity | right]).

Lemma asciiSpace_rune (c : ascii) :
  strings.asciiSpace c = true -> In (String c "") whiteSpaceRunes.
Proof.
  unfold strings.asciiSpace. cbv zeta.
  rewrite !orb_true_iff, !Z.eqb_eq.
  intros H. repeat destruct H as [H|H]; byte_eq H; in_runes.
Qed.

Lemma isSpace2_rune (c0 c1 : ascii) :
  strings.isSpace2 c0 c1 = true -> In (String c0 (String c1 "")) whiteSpaceRunes.
Proof.
  unfold strings.isSpace2. cbv zeta.
  rewrite andb_true_iff, orb_true_iff, !Z.eqb_eq.
  intros [H0 H1]. byte_eq H0. destruct H1 as [H1|H1]; byte_eq H1; in_runes.
Qed.

Lemma isSpace3_rune (c0 c1 c2 : ascii) :
  strings.isSpace3 c0 c1 c2 = true ->
  In (String c0 (String c1 (String c2 ""))) whiteSpaceRunes.
Proof.
  unfold strings.isSpace3. cbv zeta.
  rewrite !orb_true_iff, !andb_true_iff, !orb_true_iff, !andb_true_iff,
    !Z.eqb_eq, !Z.leb_le.
  intros H.
  assert (Hcases :
    (byteOf c0 = 225 /\ byteOf c1 = 154 /\ byteOf c2 = 128)
    \/ (byteOf c0 = 226 /\ byteOf c1 = 128
        /\ (byteOf c2 = 128 \/ byteOf c2 = 129 \/ byteOf c2 = 130 \/ byteOf c2 = 131
            \/ byteOf c2 = 132 \/ byteOf c2 = 133 \/ byteOf c2 = 134
            \/ byteOf c2 = 135 \/ byteOf c2 = 136 \/ byteOf c2 = 137
            \/ byteOf c2 = 138 \/ byteOf c2 = 168 \/ byteOf c2 = 169
            \/ byteOf c2 = 175))
    \/ (byteOf c0 = 226 /\ byteOf c1 = 129 /\ byteOf c2 = 159)
    \/ (byteOf c0 = 227 /\ byteOf c1 = 128 /\ byteOf c2 = 128)) by lia.
  clear H.
  destruct Hcases as [(H0 & H1 & H2)|[(H0 & H1 & H2)|[(H0 & H1 & H2)|(H0 & H1 & H2)]]];
    byte_eq H0; byte_eq H1; repeat destruct H2 as [H2|H2]; byte_eq H2; in_runes.
Qed.

Lemma whiteSpace_app (a b : string) :
  whiteSpace a -> whiteSpace b -> whiteSpace (a ++ b).
Proof.
  intros Ha Hb. induction Ha as [|r s Hr Hs IH]; [exact Hb|].
  rewrite append_assoc. now apply whiteSpace_rune.
Qed.

Lemma whiteSpace_single (r : string) : In r whiteSpaceRunes -> whiteSpace r.
Proof.
  intros H. rewrite <- (append_nil_r r). apply whiteSpace_rune; [exact H | constructor].
Qed.

(** What [trimRunes] removes is a run of the runes it recognises. *)
Lemma trimRunes_decompose (is2 : ascii -> ascii -> bool)
    (is3 : ascii -> ascii -> ascii -> bool) (P : string -> Prop) :
  P "" ->
  (forall c w, strings.asciiSpace c = true -> P w -> P (String c w)) ->
  (forall c0 c1 w, is2 c0 c1 = true -> P w -> P (String c0 (String c1 w))) ->
  (forall c0 c1 c2 w, is3 c0 c1 c2 = true -> P w ->
                      P (String c0 (String c1 (String c2 w)))) ->
  forall s, exists w, P w /\ s = w ++ strings.trimRunes is2 is3 s.
Proof.
  intros P0 P1 P2 P3 s.
  assert (H : forall n s, (String.length s <= n)%nat ->
                          exists w, P w /\ s = w ++ strings.trimRunes is2 is3 s).
  { clear s. induction n as [|n IH]; intros s Hlen.
    - destruct s; [|simpl in Hlen; lia]. exists "". split; [exact P0 | reflexivity].
    - destruct s as [|c0 s1]; [exists ""; split; [exact P0 | reflexivity]|].
      cbn [strings.trimRunes]. simpl in Hlen.
      destruct (strings.asciiSpace c0) eqn:H1.
      { destruct (IH s1 ltac:(lia)) as (w & Hw & E).
        exists (String c0 w). split; [now apply P1 | simpl; now rewrite <- E]. }
      destruct s1 as [|c1 s2]; [exists ""; split; [exact P0 | reflexivity]|].
      simpl in Hlen.
      destruct (is2 c0 c1) eqn:H2.
      { destruct (IH s2 ltac:(lia)) as (w & Hw & E).
        exists (String c0 (String c1 w)). split; [now apply P2 | simpl; now rewrite <- E]. }
      destruct s2 as [|c2 s3]; [exists ""; split; [exact P0 | reflexivity]|].
      simpl in Hlen.
      destruct (is3 c0 c1 c2) eqn:H3.
      { destruct (IH s3 ltac:(lia)) as (w & Hw & E).
        exists (String c0 (String c1 (String c2 w))).
        split; [now apply P3 | simpl; now rewrite <- E]. }
      exists "". split; [exact P0 | reflexivity]. }
  apply (H (String.length s)). lia.
Qed.

Lemma trimLeftSpace_decompose (s : string) :
  exists w, whiteSpace w /\ s = w ++ strings.trimLeftSpace s.
Proof.
  apply (trimRunes_decompose strings.isSpace2 strings.isSpace3 whiteSpace).
  - constructor.
  - intros c w Hc Hw.
    apply (whiteSpace_rune (String c "") w); [now apply asciiSpace_rune | exact Hw].
  - intros c0 c1 w Hc Hw.
    apply (whiteSpace_rune (String c0 (String c1 "")) w);
      [now apply isSpace2_rune | exact Hw].
  - intros c0 c1 c2 w Hc Hw.
    apply (whiteSpace_rune (String c0 (String c1 (String c2 ""))) w);
      [now apply isSpace3_rune | exact Hw].
Qed.

Lemma trimRightSpace_decompose (s : string) :
  exists w, whiteSpace w /\ s = strings.trimRightSpace s ++ w.
Proof.
  unfold strings.trimRightSpace.
  destruct (trimRunes_decompose
              (fun c0 c1 => strings.isSpace2 c1 c0)
              (fun c0 c1 c2 => strings.isSpace3 c2 c1 c0)
              (fun w => whiteSpace (string_rev w))) with (s := string_rev s)
    as (w & Hw & E).
  - constructor.
  - intros c w Hc Hw. cbn [string_rev].
    apply whiteSpace_app; [exact Hw|]. apply whiteSpace_single. now apply asciiSpace_rune.
  - intros c0 c1 w Hc Hw. cbn [string_rev]. rewrite append_assoc.
    apply whiteSpace_app; [exact Hw|]. apply whiteSpace_single.
    now apply isSpace2_rune.
  - intros c0 c1 c2 w Hc Hw. cbn [string_rev]. rewrite !append_assoc.
    apply whiteSpace_app; [exact Hw|]. apply whiteSpace_single.
    now apply isSpace3_rune.
  - exists (string_rev w). split; [exact Hw|].
    rewrite <- string_rev_append, <- E. now rewrite string_rev_involutive.
Qed.

(** Every string is its trimmed part between two runs of white space. *)
Lemma TrimSpace_decompose (s : string) :
  exists w1 w2, whiteSpace w1 /\ whiteSpace w2 /\ s = w1 ++ strings.TrimSpace s ++ w2.
Proof.
  destruct (trimLeftSpace_decompose s) as (w1 & H1 & E1).
  destruct (trimRightSpace_decompose (strings.trimLeftSpace s)) as (w2 & H2 & E2).
  exists w1, w2. unfold strings.TrimSpace. rewrite <- E2. auto.
Qed.

Lemma trimLeftSpace_rune (r s : string) :
  In r whiteSpaceRunes -> strings.trimLeftSpace (r ++ s) = strings.trimLeftSpace s.
Proof.
  unfold whiteSpaceRunes. cbn [In]. intros H.
  repeat destruct H as [H|H]; try contradiction; subst r; reflexivity.
Qed.

Lemma trimLeftSpace_whiteSpace (w s : string) :
  whiteSpace w -> strings.trimLeftSpace (w ++ s) = strings.trimLeftSpace s.
Proof.
  intros Hw. induction Hw as [|r w Hr Hw IH]; [reflexivity|].
  rewrite append_assoc, trimLeftSpace_rune by exact Hr. exact IH.
Qed.

Lemma trimRunesRev_rune (r s : string) :
  In r whiteSpaceRunes ->
  strings.trimRunes (fun c0 c1 => strings.isSpace2 c1 c0)
    (fun c0 c1 c2 => strings.isSpace3 c2 c1 c0) (string_rev r ++ s)
  = strings.trimRunes (fun c0 c1 => strings.isSpace2 c1 c0)
      (fun c0 c1 c2 => strings.isSpace3 c2 c1 c0) s.
Proof.
  unfold whiteSpaceRunes. cbn [In]. intros H.
  repeat destruct H as [H|H]; try contradiction; subst r; reflexivity.
Qed.

Lemma trimRunesRev_whiteSpace (w s : string) :
  whiteSpace w ->
  strings.trimRunes (fun c0 c1 => strings.isSpace2 c1 c0)
    (fun c0 c1 c2 => strings.isSpace3 c2 c1 c0) (string_rev w ++ s)
  = strings.trimRunes (fun c0 c1 => strings.isSpace2 c1 c0)
      (fun c0 c1 c2 => strings.isSpace3 c2 c1 c0) s.
Proof.
  intros Hw. revert s. induction Hw as [|r w Hr Hw IH]; intros s; [reflexivity|].
  rewrite string_rev_append, append_assoc, IH. now apply trimRunesRev_rune.
Qed.

(** A byte below 128 that is not white space stops the trimming, from
    either side. *)
Lemma trimRunes_stop (is2 : ascii -> ascii -> bool)
    (is3 : ascii -> ascii -> ascii -> bool) (c : ascii) (s : string) :
  strings.asciiSpace c = false ->
  (forall c1, is2 c c1 = false) -> (forall c1 c2, is3 c c1 c2 = false) ->
  strings.trimRunes is2 is3 (String c s) = String c s.
Proof.
  intros H1 H2 H3. cbn [strings.trimRunes]. rewrite H1.
  destruct s as [|c1 s]; [reflexivity|]. rewrite H2.
  destruct s as [|c2 s]; [reflexivity|]. now rewrite H3.
Qed.

Lemma isSpace2_ascii_l (c c1 : ascii) : byteOf c < 128 -> strings.isSpace2 c c1 = false.
Proof.
  intros H. unfold strings.isSpace2. cbv zeta.
  replace (byteOf c =? 194) with false by (symmetry; apply Z.eqb_neq; lia).
  reflexivity.
Qed.

Lemma isSpace2_ascii_r (c c1 : ascii) : byteOf c < 128 -> strings.isSpace2 c1 c = false.
Proof.
  intros H. unfold strings.isSpace2. cbv zeta.
  replace (byteOf c =? 133) with false by (symmetry; apply Z.eqb_neq; lia).
  replace (byteOf c =? 160) with false by (symmetry; apply Z.eqb_neq; lia).
  apply andb_false_r.
Qed.

Lemma isSpace3_ascii_l (c c1 c2 : ascii) :
  byteOf c < 128 -> strings.isSpace3 c c1 c2 = false.
Proof.
  intros H. unfold strings.isSpace3. cbv zeta.
  replace (byteOf c =? 225) with false by (symmetry; apply Z.eqb_neq; lia).
  replace (byteOf c =? 226) with false by (symmetry; apply Z.eqb_neq; lia).
  replace (byteOf c =? 227) with false by (symmetry; apply Z.eqb_neq; lia).
  reflexivity.
Qed.

Lemma isSpace3_ascii_r (c c1 c2 : ascii) :
  byteOf c < 128 -> strings.isSpace3 c2 c1 c = false.
Proof.
  intros H. unfold strings.isSpace3. cbv zeta.
  replace (byteOf c =? 128) with false by (symmetry; apply Z.eqb_neq; lia).
  replace (byteOf c =? 159) with false by (symmetry; apply Z.eqb_neq; lia).
  replace (byteOf c =? 168) with false by (symmetry; apply Z.eqb_neq; lia).
  replace (byteOf c =? 169) with false by (symmetry; apply Z.eqb_neq; lia).
  replace (byteOf c =? 175) with false by (symmetry; apply Z.eqb_neq; lia).
  replace (128 <=? byteOf c) with false by (symmetry; apply Z.leb_gt; lia).
  rewrite !andb_false_r. reflexivity.
Qed.

(** White space around a text whose first and last bytes are ASCII and not
    white space is all that [TrimSpace] removes. *)
Lemma TrimSpace_core (w1 w2 : string) (c : ascii) (m : string) (c' : ascii) (m' : string) :
  whiteSpace w1 -> whiteSpace w2 ->
  byteOf c < 128 -> strings.asciiSpace c = false ->
  string_rev (String c m) = String c' m' ->
  byteOf c' < 128 -> strings.asciiSpace c' = false ->
  strings.TrimSpace (w1 ++ String c m ++ w2) = String c m.
Proof.
  intros Hw1 Hw2 Hc1 Hc2 Hrev Hc1' Hc2'.
  unfold strings.TrimSpace.
  rewrite trimLeftSpace_whiteSpace by exact Hw1.
  unfold strings.trimLeftSpace.
  change (String c m ++ w2) with (String c (m ++ w2)).
  rewrite trimRunes_stop;
    [| exact Hc2 | intros; now apply isSpace2_ascii_l
     | intros; now apply isSpace3_ascii_l ].
  unfold strings.trimRightSpace.
  change (String c (m ++ w2)) with (String c m ++ w2).
  rewrite string_rev_append, trimRunesRev_whiteSpace by exact Hw2.
  rewrite Hrev, trimRunes_stop;
    [| exact Hc2' | intros; now apply isSpace2_ascii_r
     | intros; now apply isSpace3_ascii_r ].
  rewrite <- Hrev. apply string_rev_involutive.
Qed.

(** ** regexp *)

Lemma many_S (f : mstate -> list mstate) (fuel : nat) (st : mstate) :
  many f (S fuel) st =
  flat_map
    (fun st' => (if Nat.ltb (pos st) (pos st') then many f fuel st' else []) ++ [st'])%list
    (f st).
Proof. reflexivity. Qed.

Lemma many_O (f : mstate -> list mstate) (st : mstate) :
  many f O st = flat_map (fun st' => [st']) (f st).
Proof. reflexivity. Qed.

Lemma step_Digit_inv (st st' : mstate) :
  In st' (step Digit st) ->
  exists c s', rest st = String c s' /\ isDigit c = true /\ st' = advance st s'.
Proof.
  cbn [step]. destruct (rest st) as [|c s']; [intros []|].
  destruct (isDigit c) eqn:Hc; [|intros []].
  intros [<-|[]]. eauto.
Qed.

(** Each way [\d+] matches reads a non-empty run of digits, and nothing
    else changes. *)
Lemma many_Digit_sound (fuel : nat) (st st' : mstate) :
  In st' (many (step Digit) fuel st) ->
  exists ds,
    isNumeral ds = true /\ rest st = ds ++ rest st'
    /\ pos st' = (pos st + String.length ds)%nat /\ caps st' = caps st.
Proof.
  revert st. induction fuel as [|fuel IH]; intros st.
  - rewrite many_O. intros H. apply in_flat_map in H as (m & Hm & [<-|[]]).
    apply step_Digit_inv in Hm as (c & s' & Hr & Hc & ->).
    exists (String c ""). cbn. rewrite Hc. repeat split; auto. lia.
  - rewrite many_S. intros H. apply in_flat_map in H as (m & Hm & Hin).
    apply step_Digit_inv in Hm as (c & s' & Hr & Hc & ->).
    apply in_app_or in Hin as [Hin|[<-|[]]].
    + destruct (Nat.ltb _ _); [|destruct Hin].
      apply IH in Hin as (ds & Hnum & Hrest & Hpos & Hcaps).
      exists (String c ds). cbn [advance rest pos caps] in *.
      repeat split.
      * cbn [isNumeral allDigits]. rewrite Hc. now apply isNumeral_allDigits.
      * rewrite Hr, Hrest. reflexivity.
      * rewrite Hpos. cbn [String.length]. lia.
      * exact Hcaps.
    + exists (String c ""). cbn. rewrite Hc. repeat split; auto. lia.
Qed.

Lemma many_nondigit (fuel : nat) (st : mstate) :
  startsWithDigit (rest st) = false -> many (step Digit) fuel st = [].
Proof.
  intros H.
  assert (E : step Digit st = []).
  { cbn [step]. destruct (rest st) as [|c s']; [reflexivity|].
    cbn [startsWithDigit] in H. now rewrite H. }
  destruct fuel; [rewrite many_O | rewrite many_S]; now rewrite E.
Qed.

Lemma step_Digit_cons (p : nat) (d : ascii) (s : string) (c : list (nat * string)) :
  step Digit (mkState p (String d s) c)
  = if isDigit d then [mkState (S p) s c] else [].
Proof. reflexivity. Qed.

(** When what follows cannot start on a digit, [\d+] takes the whole run of
    digits. *)
Lemma many_Digit_run (k : mstate -> list mstate) (ds r : string) :
  allDigits ds = true -> startsWithDigit r = false ->
  (forall st, startsWithDigit (rest st) = true -> k st = []) ->
  forall (d : ascii) (p : nat) (c : list (nat * string)) (fuel : nat),
    isDigit d = true -> (String.length ds < fuel)%nat ->
    flat_map k (many (step Digit) fuel (mkState p (String d ds ++ r) c))
    = k (mkState (p + S (String.length ds)) r c).
Proof.
  intros Hds Hr Hk. induction ds as [|d' ds IH]; intros d p c fuel Hd Hfuel.
  - destruct fuel as [|fuel]; [simpl in Hfuel; lia|].
    change (String d "" ++ r) with (String d r).
    rewrite many_S, step_Digit_cons, Hd.
    cbn [flat_map pos rest caps]. rewrite app_nil_r.
    replace (Nat.ltb p (S p)) with true by (symmetry; apply Nat.ltb_lt; lia).
    rewrite many_nondigit by exact Hr.
    cbn [app flat_map String.length]. rewrite app_nil_r.
    f_equal. f_equal. lia.
  - destruct fuel as [|fuel]; [simpl in Hfuel; lia|].
    cbn [allDigits] in Hds. apply andb_prop in Hds as [Hd' Hds].
    change (String d (String d' ds) ++ r) with (String d (String d' ds ++ r)).
    rewrite many_S, step_Digit_cons, Hd.
    cbn [flat_map pos rest caps]. rewrite app_nil_r.
    replace (Nat.ltb p (S p)) with true by (symmetry; apply Nat.ltb_lt; lia).
    rewrite flat_map_app.
    rewrite (IH Hds d' (S p) c fuel Hd') by (simpl in Hfuel; lia).
    cbn [flat_map]. rewrite (Hk (mkState (S p) (String d' ds ++ r) c)) by exact Hd'.
    cbn [app String.length]. rewrite app_nil_r. f_equal. f_equal. lia.
Qed.

Lemma flat_map_map {A B C : Type} (f : A -> B) (g : B -> list C) (l : list A) :
  flat_map g (map f l) = flat_map (fun x => g (f x)) l.
Proof. induction l as [|x l IH]; simpl; [reflexivity | now rewrite IH]. Qed.

Lemma substring_consumed (p : nat) (ds r : string) :
  substring 0 (p + String.length ds - p) (ds ++ r) = ds.
Proof.
  replace (p + String.length ds - p)%nat with (String.length ds) by lia.
  apply substring_append_prefix.
Qed.

(** [\d+] followed by something that cannot start on a digit. *)
Lemma step_PlusDigit_run (K : Regexp) (ds r : string) (p : nat) (c : list (nat * string)) :
  isNumeral ds = true -> startsWithDigit r = false ->
  (forall st, startsWithDigit (rest st) = true -> step K st = []) ->
  step (Cat (Plus Digit) K) (mkState p (ds ++ r) c)
  = step K (mkState (p + String.length ds) r c).
Proof.
  intros Hnum Hr HK.
  destruct (isNumeral_cons ds Hnum) as (d & ds' & -> & Hd & Hds).
  cbn [step rest].
  rewrite (many_Digit_run (step K) ds' r Hds Hr HK d p c) ;
    [reflexivity | exact Hd |].
  rewrite length_append. cbn [String.length]. lia.
Qed.

(** A capturing [(\d+)] followed by something that cannot start on a
    digit. *)
Lemma step_GroupDigits_run (n : nat) (K : Regexp) (ds r : string) (p : nat)
    (c : list (nat * string)) :
  isNumeral ds = true -> startsWithDigit r = false ->
  (forall st, startsWithDigit (rest st) = true -> step K st = []) ->
  step (Cat (Group n (Plus Digit)) K) (mkState p (ds ++ r) c)
  = step K (mkState (p + String.length ds) r ((n, ds) :: c)).
Proof.
  intros Hnum Hr HK.
  destruct (isNumeral_cons ds Hnum) as (d & ds' & E & Hd & Hds).
  cbn [step rest]. rewrite flat_map_map.
  rewrite E.
  rewrite (many_Digit_run
             (fun x => step K (mkState (pos x) (rest x)
                                 ((n, consumed (mkState p (String d ds' ++ r) c) x) :: caps x)))
             ds' r Hds Hr);
    [ | intros st Hst; now apply HK | exact Hd
      | rewrite length_append; cbn [String.length]; lia ].
  cbn [pos rest caps]. unfold consumed. cbn [pos rest].
  change (S (String.length ds')) with (String.length (String d ds')).
  now rewrite substring_consumed.
Qed.

Lemma step_GroupDigits_sound (n : nat) (st st' : mstate) :
  In st' (step (Group n (Plus Digit)) st) ->
  exists ds,
    isNumeral ds = true /\ rest st = ds ++ rest st'
    /\ pos st' = (pos st + String.length ds)%nat /\ caps st' = (n, ds) :: caps st.
Proof.
  cbn [step]. intros H. apply in_map_iff in H as (m & <- & Hm).
  apply many_Digit_sound in Hm as (ds & Hnum & Hrest & Hpos & Hcaps).
  exists ds. cbn [rest pos caps]. repeat split; auto.
  unfold consumed. rewrite Hrest, Hpos, Hcaps.
  now rewrite substring_consumed.
Qed.

Lemma step_Lit_inv (c : ascii) (st st' : mstate) :
  In st' (step (Lit c) st) -> rest st = String c (rest st') /\ st' = advance st (rest st').
Proof.
  cbn [step]. destruct (rest st) as [|c' s'] eqn:E; [intros []|].
  destruct (Ascii.eqb c c') eqn:Hc; [|intros []].
  apply Ascii.eqb_eq in Hc. subst c'. intros [<-|[]]. cbn. auto.
Qed.

Lemma step_Lit_digit (c : ascii) (K : Regexp) (st : mstate) :
  isDigit c = false -> startsWithDigit (rest st) = true ->
  step (Cat (Lit c) K) st = [].
Proof.
  intros Hc Hst. cbn [step]. destruct (rest st) as [|c' s']; [reflexivity|].
  cbn [startsWithDigit] in Hst.
  destruct (Ascii.eqb c c') eqn:E; [|reflexivity].
  apply Ascii.eqb_eq in E. subst c'. congruence.
Qed.

Lemma step_Lit_cons (c : ascii) (K : Regexp) (p : nat) (s : string)
    (cs : list (nat * string)) :
  step (Cat (Lit c) K) (mkState p (String c s) cs) = step K (mkState (S p) s cs).
Proof.
  cbn [step rest]. rewrite Ascii.eqb_refl. unfold advance; cbn [flat_map pos rest caps].
  apply app_nil_r.
Qed.

Lemma step_Lit_other (c c' : ascii) (K : Regexp) (p : nat) (s : string)
    (cs : list (nat * string)) :
  c <> c' -> step (Cat (Lit c) K) (mkState p (String c' s) cs) = [].
Proof.
  intros H. cbn [step rest].
  replace (Ascii.eqb c c') with false by (symmetry; now apply Ascii.eqb_neq).
  reflexivity.
Qed.

Lemma step_EndText_digit (st : mstate) :
  startsWithDigit (rest st) = true -> step EndText st = [].
Proof. cbn [step]. destruct (rest st); [discriminate | reflexivity]. Qed.

(** An expression anchored at the beginning of the text matches at offset 0
    or nowhere. *)
Lemma findFrom_anchored (r : Regexp) (s : string) (n : nat) :
  findFrom (Cat BeginText r) (S n) s = None.
Proof.
  revert n. induction s as [|c s IH]; intros n; cbn; [reflexivity | apply IH].
Qed.

Lemma findFrom_anchored_0 (r : Regexp) (s : string) :
  findFrom (Cat BeginText r) 0 s =
  match step r (mkState 0 s []) with
  | st' :: _ => Some (mkState 0 s [], st')
  | [] => None
  end.
Proof.
  destruct s as [|c s]; cbn [findFrom step pos Nat.eqb flat_map]; rewrite app_nil_r;
    destruct (step r _); try reflexivity.
  apply findFrom_anchored.
Qed.

Lemma step_Cat (a b : Regexp) (st : mstate) :
  step (Cat a b) st = flat_map (step b) (step a st).
Proof. reflexivity. Qed.

Lemma step_Quest_Cat (a b : Regexp) (st : mstate) :
  step (Cat (Quest a) b) st = (step (Cat a b) st ++ step b st)%list.
Proof.
  cbn [step]. rewrite flat_map_app. cbn [flat_map]. now rewrite app_nil_r.
Qed.

Lemma step_Cat_assoc (a b c : Regexp) (st : mstate) :
  step (Cat (Cat a b) c) st = step (Cat a (Cat b c)) st.
Proof.
  cbn [step]. induction (step a st) as [|x l IH]; [reflexivity|].
  cbn [flat_map]. now rewrite flat_map_app, IH.
Qed.

Lemma substring_whole (n : nat) (s : string) :
  n = String.length s -> substring 0 (n - 0) s = s.
Proof.
  intros ->. rewrite Nat.sub_0_r. rewrite <- (append_nil_r s) at 2.
  apply substring_append_prefix.
Qed.

(** *** The expression of the VF representor names *)

Lemma vfBody_complete (pf vf : string) (p : nat) (cs : list (nat * string)) :
  isNumeral pf = true -> isNumeral vf = true ->
  step (Str "pf" (Cat (Group 1 (Plus Digit))
                    (Str "vf" (Cat (Group 2 (Plus Digit)) EndText))))
    (mkState p ("pf" ++ pf ++ "vf" ++ vf) cs)
  = [mkState (S (S (S (S p + String.length pf))) + String.length vf) ""
       ((2%nat, vf) :: (1%nat, pf) :: cs)].
Proof.
  intros Hpf Hvf. cbn [Str].
  change ("pf" ++ pf ++ "vf" ++ vf) with (String "p" (String "f" (pf ++ "vf" ++ vf))).
  rewrite !step_Lit_cons.
  rewrite step_GroupDigits_run;
    [ | exact Hpf | reflexivity | intros st Hst; now apply step_Lit_digit ].
  change ("vf" ++ vf) with (String "v" (String "f" vf)).
  rewrite !step_Lit_cons.
  rewrite <- (append_nil_r vf) at 1.
  rewrite step_GroupDigits_run;
    [ | exact Hvf | reflexivity | intros st Hst; now apply step_EndText_digit ].
  reflexivity.
Qed.

Lemma vfBody_sound (st st' : mstate) :
  In st' (step (Str "pf" (Cat (Group 1 (Plus Digit))
                            (Str "vf" (Cat (Group 2 (Plus Digit)) EndText)))) st) ->
  exists pf vf,
    isNumeral pf = true /\ isNumeral vf = true
    /\ rest st = "pf" ++ pf ++ "vf" ++ vf
    /\ rest st' = ""
    /\ pos st' = (pos st + String.length (rest st))%nat
    /\ caps st' = (2%nat, vf) :: (1%nat, pf) :: caps st.
Proof.
  cbn [Str]. intros H.
  rewrite step_Cat in H. apply in_flat_map in H as (m1 & H1 & H).
  apply step_Lit_inv in H1 as [R1 E1].
  rewrite step_Cat in H. apply in_flat_map in H as (m2 & H2 & H).
  apply step_Lit_inv in H2 as [R2 E2].
  rewrite step_Cat in H. apply in_flat_map in H as (m3 & H3 & H).
  apply step_GroupDigits_sound in H3 as (pf & Hpf & R3 & P3 & C3).
  rewrite step_Cat in H. apply in_flat_map in H as (m4 & H4 & H).
  apply step_Lit_inv in H4 as [R4 E4].
  rewrite step_Cat in H. apply in_flat_map in H as (m5 & H5 & H).
  apply step_Lit_inv in H5 as [R5 E5].
  rewrite step_Cat in H. apply in_flat_map in H as (m6 & H6 & H).
  apply step_GroupDigits_sound in H6 as (vf & Hvf & R6 & P6 & C6).
  cbn [step] in H. destruct (rest m6) eqn:R7; [|destruct H].
  destruct H as [<-|[]].
  exists pf, vf.
  assert (Hrest : rest st = "pf" ++ pf ++ "vf" ++ vf).
  { rewrite R1, R2, R3, R4, R5, R6. rewrite append_nil_r. reflexivity. }
  repeat split; auto.
  - rewrite P6, E5. unfold advance at 1. cbn [pos].
    rewrite E4. unfold advance at 1. cbn [pos].
    rewrite P3, E2. unfold advance at 1. cbn [pos].
    rewrite E1. unfold advance at 1. cbn [pos].
    rewrite Hrest. cbn [append String.length].
    rewrite !length_append. cbn [String.length]. lia.
  - rewrite C6, E5. unfold advance at 1. cbn [caps].
    rewrite E4. unfold advance at 1. cbn [caps].
    rewrite C3, E2. unfold advance at 1. cbn [caps].
    rewrite E1. reflexivity.
Qed.

(** [FindStringSubmatch] on a name of the modern shape gives the name and
    its two digit groups. *)
Lemma vfPortRepRegex_complete (s pf vf : string) :
  modernShape s pf vf ->
  FindStringSubmatch vfPortRepRegex s = [s; pf; vf].
Proof.
  intros (c & Hc & Hpf & Hvf & ->).
  unfold FindStringSubmatch, vfPortRepRegex.
  rewrite findFrom_anchored_0, step_Quest_Cat.
  destruct Hc as [->|(n & Hn & ->)].
  - cbn [Str append]. rewrite step_Cat_assoc.
    rewrite (step_Lit_other "c" "p") by (intros E; discriminate E). cbn [app].
    change (String "p" (String "f" (pf ++ String "v" (String "f" vf))))
      with ("pf" ++ pf ++ "vf" ++ vf).
    change (Cat (Lit "p") (Cat (Lit "f")
              (Cat (Group 1 (Plus Digit))
                 (Cat (Lit "v") (Cat (Lit "f") (Cat (Group 2 (Plus Digit)) EndText))))))
      with (Str "pf" (Cat (Group 1 (Plus Digit))
                        (Str "vf" (Cat (Group 2 (Plus Digit)) EndText)))).
    rewrite vfBody_complete by assumption.
    unfold consumed. cbn [pos rest caps NumSubexp Str Nat.add seq map capture Nat.eqb].
    f_equal.
    apply substring_whole.
    cbn [append String.length]. rewrite !length_append. cbn [String.length]. lia.
  - cbn [Str]. rewrite step_Cat_assoc.
    change (("c" ++ n) ++ "pf" ++ pf ++ "vf" ++ vf)
      with (String "c" (n ++ "pf" ++ pf ++ "vf" ++ vf)).
    rewrite step_Lit_cons.
    rewrite step_PlusDigit_run;
      [ | exact Hn | reflexivity | intros st Hst; now apply step_Lit_digit ].
    rewrite (step_Lit_other "p" "c") by (intros E; discriminate E). rewrite app_nil_r.
    change (Cat (Lit "p") (Cat (Lit "f")
              (Cat (Group 1 (Plus Digit))
                 (Cat (Lit "v") (Cat (Lit "f") (Cat (Group 2 (Plus Digit)) EndText))))))
      with (Str "pf" (Cat (Group 1 (Plus Digit))
                        (Str "vf" (Cat (Group 2 (Plus Digit)) EndText)))).
    rewrite vfBody_complete by assumption.
    unfold consumed. cbn [pos rest caps NumSubexp Str Nat.add seq map capture Nat.eqb].
    f_equal.
    apply substring_whole.
    cbn [append String.length]. rewrite !length_append.
    cbn [append String.length]. rewrite !length_append. cbn [String.length]. lia.
Qed.

(** A match of the expression is a name of the modern shape, and the groups
    are its two runs of digits. *)
Lemma vfPortRepRegex_sound (s : string) :
  FindStringSubmatch vfPortRepRegex s <> [] ->
  exists pf vf, modernShape s pf vf /\ FindStringSubmatch vfPortRepRegex s = [s; pf; vf].
Proof.
  intros Hne.
  assert (Hshape : exists pf vf, modernShape s pf vf).
  { revert Hne. unfold FindStringSubmatch, vfPortRepRegex.
    rewrite findFrom_anchored_0, step_Quest_Cat.
    match goal with |- context [match ?l with [] => None | _ => _ end] =>
      destruct l as [|st' l'] eqn:El end; [intros H; now elim H|].
    intros _.
    assert (Hin : In st' (st' :: l')) by (left; reflexivity).
    rewrite <- El in Hin. apply in_app_or in Hin as [Hin|Hin].
    - cbn [Str] in Hin. rewrite step_Cat_assoc, step_Cat in Hin.
      apply in_flat_map in Hin as (m1 & H1 & Hin).
      apply step_Lit_inv in H1 as [R1 E1].
      rewrite step_Cat in Hin. apply in_flat_map in Hin as (m2 & H2 & Hin).
      cbn [step] in H2.
      apply many_Digit_sound in H2 as (n & Hn & R2 & P2 & C2).
      apply vfBody_sound in Hin as (pf & vf & Hpf & Hvf & R3 & _).
      exists pf, vf, ("c" ++ n). repeat split; auto.
      + right. eauto.
      + cbn [rest] in R1. rewrite R1, R2, R3. reflexivity.
    - apply vfBody_sound in Hin as (pf & vf & Hpf & Hvf & R3 & _).
      exists pf, vf, "". repeat split; auto. now left. }
  destruct Hshape as (pf & vf & Hshape). exists pf, vf.
  split; [exact Hshape | now apply vfPortRepRegex_complete].
Qed.

Lemma vfPortRepRegex_nomatch (s : string) :
  (forall pf vf, ~ modernShape s pf vf) -> FindStringSubmatch vfPortRepRegex s = [].
Proof.
  intros Hno. destruct (FindStringSubmatch vfPortRepRegex s) as [|x l] eqn:E; [reflexivity|].
  destruct (vfPortRepRegex_sound s) as (pf & vf & Hs & _); [rewrite E; discriminate|].
  now elim (Hno pf vf).
Qed.

(** *** The expression of the uplink port names *)

Lemma isUplinkShape_spec (s : string) : isUplinkShape s = true <-> uplinkShape s.
Proof.
  unfold uplinkShape. split.
  - destruct s as [|c n]; [discriminate|]. cbn [isUplinkShape].
    intros H. apply andb_prop in H as [Hc Hn]. apply Ascii.eqb_eq in Hc. subst c.
    exists n. auto.
  - intros (n & Hn & ->). cbn. exact Hn.
Qed.

Lemma physPortRepRegex_spec (s : string) :
  MatchString physPortRepRegex s = isUplinkShape s.
Proof.
  unfold MatchString, physPortRepRegex. rewrite findFrom_anchored_0. cbn [Str].
  destruct s as [|c n]; [reflexivity|]. cbn [isUplinkShape].
  destruct (Ascii.eqb c "p") eqn:Hc.
  - apply Ascii.eqb_eq in Hc. subst c. rewrite step_Lit_cons. cbn [andb].
    destruct (isNumeral n) eqn:Hn.
    + rewrite <- (append_nil_r n) at 1.
      rewrite step_GroupDigits_run;
        [ reflexivity | exact Hn | reflexivity
        | intros st Hst; now apply step_EndText_digit ].
    + destruct (step (Cat (Group 1 (Plus Digit)) EndText) (mkState 1 n []))
        as [|st' l] eqn:E; [reflexivity|].
      assert (Hin : In st' (st' :: l)) by (left; reflexivity).
      rewrite <- E, step_Cat in Hin. apply in_flat_map in Hin as (m & Hm & Hin).
      apply step_GroupDigits_sound in Hm as (ds & Hds & Hr & _).
      cbn [step] in Hin. destruct (rest m); [|destruct Hin].
      cbn [rest] in Hr. rewrite append_nil_r in Hr. congruence.
  - rewrite step_Lit_other; [reflexivity|].
    intros <-. now rewrite Ascii.eqb_refl in Hc.
Qed.

(** ** parsePortName *)

Lemma isDigit_solid (c : ascii) :
  isDigit c = true -> byteOf c < 128 /\ strings.asciiSpace c = false.
Proof.
  intros H. apply isDigit_range in H. split; [lia|].
  unfold strings.asciiSpace. cbv zeta.
  repeat (apply orb_false_intro); apply Z.eqb_neq; lia.
Qed.

Lemma string_rev_numeral (x ds : string) :
  isNumeral ds = true ->
  exists c m, string_rev (x ++ ds) = String c m /\ isDigit c = true.
Proof.
  intros H. rewrite string_rev_append.
  assert (Hds : exists c m, string_rev ds = String c m /\ isDigit c = true).
  { apply isNumeral_cons in H as (d & ds' & -> & Hd & Hds). clear x.
    revert d Hd. induction ds' as [|d' ds' IH]; intros d Hd.
    - exists d, "". auto.
    - cbn [allDigits] in Hds. apply andb_prop in Hds as [Hd' Hds].
      destruct (IH Hds d' Hd') as (c & m & E & Hc).
      change (string_rev (String d (String d' ds')))
        with (string_rev (String d' ds') ++ String d "").
      rewrite E. exists c, (m ++ String d ""). auto. }
  destruct Hds as (c & m & E & Hc). rewrite E. exists c, (m ++ string_rev x). auto.
Qed.

(** A pure integer between two runs of white space is what is left after
    trimming. *)
Lemma TrimSpace_literal (w1 w2 n : string) :
  whiteSpace w1 -> whiteSpace w2 -> isIntLiteral n = true ->
  strings.TrimSpace (w1 ++ n ++ w2) = n.
Proof.
  intros H1 H2 Hn.
  destruct n as [|c m]; [discriminate|].
  assert (Hrev : exists c' m', string_rev (String c m) = String c' m' /\ isDigit c' = true).
  { cbn [isIntLiteral] in Hn.
    destruct (Ascii.eqb c "+" || Ascii.eqb c "-").
    - change (String c m) with (String c "" ++ m). now apply string_rev_numeral.
    - change (String c m) with ("" ++ String c m). now apply string_rev_numeral. }
  destruct Hrev as (c' & m' & Hrev & Hc'). apply isDigit_solid in Hc' as [Hc1' Hc2'].
  apply (TrimSpace_core w1 w2 c m c' m'); auto.
  - cbn [isIntLiteral] in Hn.
    destruct (Ascii.eqb c "+") eqn:Ep; [apply Ascii.eqb_eq in Ep; subst c; reflexivity|].
    destruct (Ascii.eqb c "-") eqn:Em; [apply Ascii.eqb_eq in Em; subst c; reflexivity|].
    cbn [orb isNumeral allDigits] in Hn. apply andb_prop in Hn as [Hd _].
    now apply isDigit_solid in Hd.
  - cbn [isIntLiteral] in Hn.
    destruct (Ascii.eqb c "+") eqn:Ep; [apply Ascii.eqb_eq in Ep; subst c; reflexivity|].
    destruct (Ascii.eqb c "-") eqn:Em; [apply Ascii.eqb_eq in Em; subst c; reflexivity|].
    cbn [orb isNumeral allDigits] in Hn. apply andb_prop in Hn as [Hd _].
    now apply isDigit_solid in Hd.
Qed.

(** So is a name of the modern shape. *)
Lemma TrimSpace_modern (w1 w2 t pf vf : string) :
  whiteSpace w1 -> whiteSpace w2 -> modernShape t pf vf ->
  strings.TrimSpace (w1 ++ t ++ w2) = t.
Proof.
  intros H1 H2 (c & Hc & Hpf & Hvf & ->).
  destruct (string_rev_numeral (c ++ "pf" ++ pf ++ "vf") vf Hvf) as (c' & m' & Hrev & Hc').
  rewrite !append_assoc in Hrev.
  apply isDigit_solid in Hc' as [Hc1' Hc2'].
  destruct Hc as [->|(n & Hn & ->)].
  - apply (TrimSpace_core w1 w2 "p" ("f" ++ pf ++ "vf" ++ vf) c' m'); auto; reflexivity.
  - apply (TrimSpace_core w1 w2 "c" (n ++ "pf" ++ pf ++ "vf" ++ vf) c' m'); auto;
      reflexivity.
Qed.

Lemma modernShape_not_literal (t pf vf : string) :
  modernShape t pf vf -> isIntLiteral t = false.
Proof.
  intros (c & Hc & _ & _ & ->). destruct Hc as [->|(n & _ & ->)]; reflexivity.
Qed.

(** The three outcomes of [parsePortName], by what the trimmed name is. *)
Lemma parsePortName_literal (s : string) :
  isIntLiteral (strings.TrimSpace s) = true ->
  inIntRange (intLiteralValue (strings.TrimSpace s)) ->
  parsePortName s = (-1, intLiteralValue (strings.TrimSpace s), None).
Proof.
  intros H1 H2. unfold parsePortName. cbv zeta.
  rewrite (Atoi_ok _ H1 H2). reflexivity.
Qed.

Lemma parsePortName_shape (s pf vf : string) :
  modernShape (strings.TrimSpace s) pf vf ->
  parsePortName s =
  (let '(pfRepIndex, err) := strconv.Atoi pf in
   if isNil err then
     let '(vfRepIndex, err) := strconv.Atoi vf in (pfRepIndex, vfRepIndex, err)
   else (pfRepIndex, -1, err)).
Proof.
  intros H. unfold parsePortName. cbv zeta.
  destruct (Atoi_failure (strings.TrimSpace s)) as (v & e & Ha).
  { intros [Hl _]. rewrite (modernShape_not_literal _ _ _ H) in Hl. discriminate. }
  rewrite Ha. cbn [isNil].
  rewrite (vfPortRepRegex_complete _ _ _ H). reflexivity.
Qed.

Lemma parsePortName_nomatch (s : string) :
  ~ (isIntLiteral (strings.TrimSpace s) = true
     /\ inIntRange (intLiteralValue (strings.TrimSpace s))) ->
  (forall pf vf, ~ modernShape (strings.TrimSpace s) pf vf) ->
  parsePortName s =
  (-1, -1, Some (Errorf ("failed to parse physPortName " ++ strings.TrimSpace s))).
Proof.
  intros H1 H2. unfold parsePortName. cbv zeta.
  destruct (Atoi_failure _ H1) as (v & e & Ha). rewrite Ha. cbn [isNil].
  rewrite (vfPortRepRegex_nomatch _ H2). reflexivity.
Qed.

Lemma modernShape_dec (t : string) :
  (exists pf vf, modernShape t pf vf) \/ (forall pf vf, ~ modernShape t pf vf).
Proof.
  destruct (FindStringSubmatch vfPortRepRegex t) as [|x l] eqn:E.
  - right. intros pf vf H. rewrite (vfPortRepRegex_complete _ _ _ H) in E. discriminate.
  - left. destruct (vfPortRepRegex_sound t) as (pf & vf & H & _); [rewrite E; discriminate|].
    eauto.
Qed.

Lemma modernShape_unique (t pf vf pf' vf' : string) :
  modernShape t pf vf -> modernShape t pf' vf' -> pf = pf' /\ vf = vf'.
Proof.
  intros H H'.
  apply vfPortRepRegex_complete in H. apply vfPortRepRegex_complete in H'.
  rewrite H in H'. injection H' as E1 E2. auto.
Qed.

(** A successful parse is of a literal within range, or of a modern name
    whose two groups are within range. *)
Lemma parsePortName_success (s : string) (pfIndex vfIndex : Z) :
  parsePortName s = (pfIndex, vfIndex, None) ->
  (isIntLiteral (strings.TrimSpace s) = true
   /\ inIntRange (intLiteralValue (strings.TrimSpace s))
   /\ pfIndex = -1 /\ vfIndex = intLiteralValue (strings.TrimSpace s))
  \/ (exists pf vf,
        modernShape (strings.TrimSpace s) pf vf
        /\ pfIndex = decimalValue pf /\ 0 <= pfIndex <= MaxInt
        /\ vfIndex = decimalValue vf /\ 0 <= vfIndex <= MaxInt).
Proof.
  intros Hp.
  destruct (ParseInt_spec (strings.TrimSpace s)) as [(Hl & Hr & _)|(Hn & _)].
  - left. rewrite (parsePortName_literal s Hl Hr) in Hp. injection Hp as <- <-. auto.
  - right. destruct (modernShape_dec (strings.TrimSpace s)) as [(pf & vf & Hs)|Hno].
    + rewrite (parsePortName_shape s pf vf Hs) in Hp.
      pose proof Hs as (c & _ & Hpf & Hvf & _).
      destruct (strconv.Atoi pf) as [p ep] eqn:Ep.
      destruct ep as [e|]; cbn [isNil] in Hp; [discriminate|].
      destruct (strconv.Atoi vf) as [v ev] eqn:Ev.
      injection Hp as <- <- ->.
      apply (Atoi_numeral_inv _ _ Hpf) in Ep as [Ep1 Ep2].
      apply (Atoi_numeral_inv _ _ Hvf) in Ev as [Ev1 Ev2].
      exists pf, vf. auto.
    + rewrite (parsePortName_nomatch s Hn Hno) in Hp. discriminate.
Qed.

Lemma parsePortName_decodable (s : string) :
  decodableName (strings.TrimSpace s) -> succeeds (parsePortName s).
Proof.
  intros [[Hl Hr]|(pf & vf & Hs & Hpf & Hvf)]; unfold succeeds.
  - now rewrite (parsePortName_literal s Hl Hr).
  - rewrite (parsePortName_shape s pf vf Hs).
    pose proof Hs as (c & _ & Npf & Nvf & _).
    rewrite (Atoi_numeral pf Npf Hpf), (Atoi_numeral vf Nvf Hvf). reflexivity.
Qed.

Lemma parsePortName_succeeds_inv (s : string) :
  succeeds (parsePortName s) -> decodableName (strings.TrimSpace s).
Proof.
  unfold succeeds. destruct (parsePortName s) as [[p v] e] eqn:E. cbn [snd].
  intros ->. apply parsePortName_success in E as [(Hl & Hr & _)|(pf & vf & Hs & -> & Hp & -> & Hv)].
  - left. auto.
  - right. exists pf, vf. repeat split; auto; lia.
Qed.

Lemma decodableName_trim (w1 w2 t : string) :
  whiteSpace w1 -> whiteSpace w2 -> decodableName t ->
  strings.TrimSpace (w1 ++ t ++ w2) = t.
Proof.
  intros H1 H2 [[Hl _]|(pf & vf & Hs & _)].
  - now apply TrimSpace_literal.
  - now apply (TrimSpace_modern w1 w2 t pf vf).
Qed.

Lemma Atoi_numeral_failure (s : string) (v : Z) (e : error) :
  isNumeral s = true -> strconv.Atoi s = (v, Some e) -> v = MaxInt.
Proof.
  intros Hn. destruct (isNumeral_cons s Hn) as (c & s' & -> & Hc & Hs).
  assert (Hp : Ascii.eqb c "+" = false).
  { apply Ascii.eqb_neq. intros ->. discriminate. }
  assert (Hm : Ascii.eqb c "-" = false).
  { apply Ascii.eqb_neq. intros ->. discriminate. }
  unfold strconv.Atoi, strconv.ParseInt. rewrite Hp, Hm. cbn [orb negb andb].
  change (2 ^ (strconv.IntSize - 1)) with 9223372036854775808.
  change MaxInt with 9223372036854775807.
  destruct (ParseUint_cases (String c s')) as [(_ & _ & Hr)|[(Hr & _)|(_ & Hr)]].
  - rewrite Hr.
    destruct (decimalValue (String c s') >=? 9223372036854775808); intros H;
      [injection H as <- _; reflexivity | discriminate].
  - rewrite Hr. cbn. intros H. injection H as <- _. reflexivity.
  - congruence.
Qed.

(** The VF index that comes with a decode error is -1, or the largest [int]
    when the second digit group is beyond the range. *)
Lemma parsePortName_failure_values (s : string) (pfIndex vfIndex : Z) (e : error) :
  parsePortName s = (pfIndex, vfIndex, Some e) -> vfIndex = -1 \/ vfIndex = MaxInt.
Proof.
  intros Hp.
  destruct (ParseInt_spec (strings.TrimSpace s)) as [(Hl & Hr & _)|(Hn & _)].
  - rewrite (parsePortName_literal s Hl Hr) in Hp. discriminate.
  - destruct (modernShape_dec (strings.TrimSpace s)) as [(pf & vf & Hs)|Hno].
    + rewrite (parsePortName_shape s pf vf Hs) in Hp.
      pose proof Hs as (c & _ & Hpf & Hvf & _).
      destruct (strconv.Atoi pf) as [p [ep|]]; cbn [isNil] in Hp.
      * injection Hp as _ <- _. now left.
      * destruct (strconv.Atoi vf) as [v ev] eqn:Ev.
        injection Hp as _ <- ->. right.
        now apply (Atoi_numeral_failure vf v e).
    + rewrite (parsePortName_nomatch s Hn Hno) in Hp. injection Hp as _ <- _. now left.
Qed.

(** ** The port-name codec *)

(** Claim C3, as amended.  When [parsePortName] succeeds, the PF index is
    either absent (-1) or non-negative, and the VF index is non-negative
    unless the name is a legacy integer written with a minus sign, whose
    value it then is. *)
Theorem parsePortName_index_signs (s : string) (pfIndex vfIndex : Z) :
  parsePortName s = (pfIndex, vfIndex, None) ->
  (pfIndex = -1 \/ 0 <= pfIndex)
  /\ (0 <= vfIndex
      \/ (pfIndex = -1
          /\ exists n, legacyShape s (String "-" n) /\ vfIndex = - decimalValue n)).
Proof.
  intros Hp.
  apply parsePortName_success in Hp
    as [(Hl & Hr & -> & ->)|(pf & vf & Hs & _ & Hpf & _ & Hvf)].
  - split; [now left|].
    destruct (strings.TrimSpace s) as [|c n] eqn:Et; [discriminate|].
    destruct (Ascii.eqb c "-") eqn:Hneg.
    + right. split; [reflexivity|]. apply Ascii.eqb_eq in Hneg. subst c.
      exists n. split; [|reflexivity].
      destruct (TrimSpace_decompose s) as (w1 & w2 & H1 & H2 & E).
      exists w1, w2. rewrite Et in E. auto.
    + left. unfold isIntLiteral, intLiteralValue in *. rewrite Hneg in *.
      rewrite orb_false_r in Hl.
      destruct (Ascii.eqb c "+"); apply decimalValue_nonneg;
        now apply isNumeral_allDigits.
  - split; [right; lia | left; lia].
Qed.

Lemma parsePortName_index_signs_witness :
  (1 = -1 \/ 0 <= 1)
  /\ (0 <= 5
      \/ (1 = -1 /\ exists n, legacyShape "pf1vf5" (String "-" n) /\ 5 = - decimalValue n)).
Proof. apply (parsePortName_index_signs "pf1vf5" 1 5). reflexivity. Defined.

(** The claim C3 as it stands fails on a legacy name with a minus sign:
    ["-3"] decodes, to the VF index -3. *)
Lemma parsePortName_negative_vfIndex :
  ~ (forall pfIndex vfIndex,
        parsePortName "-3" = (pfIndex, vfIndex, None) ->
        0 <= vfIndex /\ (pfIndex = -1 \/ 0 <= pfIndex)).
Proof.
  intros H. destruct (H (-1) (-3) eq_refl) as [Hv _]. lia.
Qed.

(** Claim C4, as amended.  On a name of the modern shape the controller
    prefix does not change what [parsePortName] returns, and when the two
    digit groups are within the range of [int] the call succeeds with the
    values of the two groups. *)
Theorem parsePortName_modern_form (c pf vf : string) :
  controllerPrefix c -> isNumeral pf = true -> isNumeral vf = true ->
  parsePortName (c ++ "pf" ++ pf ++ "vf" ++ vf) = parsePortName ("pf" ++ pf ++ "vf" ++ vf)
  /\ (decimalValue pf <= MaxInt -> decimalValue vf <= MaxInt ->
      parsePortName (c ++ "pf" ++ pf ++ "vf" ++ vf)
      = (decimalValue pf, decimalValue vf, None)).
Proof.
  intros Hc Hpf Hvf.
  assert (Hs : forall c', controllerPrefix c' ->
                 modernShape (strings.TrimSpace (c' ++ "pf" ++ pf ++ "vf" ++ vf)) pf vf).
  { intros c' Hc'.
    assert (Hm : modernShape (c' ++ "pf" ++ pf ++ "vf" ++ vf) pf vf)
      by (exists c'; auto).
    pose proof (TrimSpace_modern "" "" _ pf vf whiteSpace_nil whiteSpace_nil Hm) as Et.
    rewrite append_nil_r in Et. change ("" ++ ?x) with x in Et. now rewrite Et. }
  split.
  - rewrite (parsePortName_shape _ pf vf (Hs c Hc)).
    pose proof (parsePortName_shape _ pf vf (Hs "" (or_introl eq_refl))) as E0.
    change ("" ++ ?x) with x in E0. now rewrite E0.
  - intros Rpf Rvf. rewrite (parsePortName_shape _ pf vf (Hs c Hc)).
    rewrite (Atoi_numeral pf Hpf Rpf), (Atoi_numeral vf Hvf Rvf). reflexivity.
Qed.

Lemma parsePortName_modern_form_witness :
  parsePortName "c2pf1vf5" = parsePortName "pf1vf5"
  /\ (decimalValue "1" <= MaxInt -> decimalValue "5" <= MaxInt ->
      parsePortName "c2pf1vf5" = (decimalValue "1", decimalValue "5", None)).
Proof.
  apply (parsePortName_modern_form "c2" "1" "5").
  - right. exists "2". split; reflexivity.
  - reflexivity.
  - reflexivity.
Defined.

(** The claim C4 as it stands fails on a digit group beyond the range of
    [int]: the name has the modern shape and is not decoded. *)
Lemma parsePortName_modern_overflow :
  modernShape "pf99999999999999999999vf1" "99999999999999999999" "1"
  /\ fails (parsePortName "pf99999999999999999999vf1").
Proof.
  split.
  - exists "". split; [now left|]. repeat split.
  - unfold fails. vm_compute. discriminate.
Qed.

(** Claim C5, as amended.  On a pure integer whose value is within the range
    of [int], optionally surrounded by white space, [parsePortName] succeeds
    with that value as VF index and no PF index. *)
Theorem parsePortName_legacy_form (w1 w2 n : string) :
  whiteSpace w1 -> whiteSpace w2 ->
  isIntLiteral n = true -> inIntRange (intLiteralValue n) ->
  parsePortName (w1 ++ n ++ w2) = (-1, intLiteralValue n, None).
Proof.
  intros H1 H2 Hn Hr.
  pose proof (TrimSpace_literal w1 w2 n H1 H2 Hn) as Et.
  rewrite parsePortName_literal; rewrite Et; auto.
Qed.

Lemma parsePortName_legacy_form_witness :
  parsePortName (" " ++ "3" ++ String "010" "") = (-1, intLiteralValue "3", None).
Proof.
  apply (parsePortName_legacy_form " " (String "010" "") "3").
  - apply whiteSpace_single. unfold whiteSpaceRunes. cbn [In]. do 5 right. left. reflexivity.
  - apply whiteSpace_single. unfold whiteSpaceRunes. cbn [In]. right. left. reflexivity.
  - reflexivity.
  - unfold inIntRange. vm_compute. split; discriminate.
Defined.

(** The claim C5 as it stands fails on an integer beyond the range of
    [int]. *)
Lemma parsePortName_legacy_overflow :
  legacyShape "99999999999999999999" "99999999999999999999"
  /\ fails (parsePortName "99999999999999999999").
Proof.
  split.
  - exists "", "". repeat split; try constructor.
  - unfold fails. vm_compute. discriminate.
Qed.

(** Claim C6.  Encoding a pair of non-negative [int] values as
    ["pf{pf}vf{vf}"] and decoding the result gives the pair back. *)
Theorem parsePortName_roundtrip (pf vf : Z) :
  0 <= pf <= MaxInt -> 0 <= vf <= MaxInt ->
  parsePortName (encodePortName pf vf) = (pf, vf, None).
Proof.
  intros Hpf Hvf. unfold encodePortName.
  destruct (Itoa_nonneg pf Hpf) as [Npf Vpf].
  destruct (Itoa_nonneg vf Hvf) as [Nvf Vvf].
  destruct (parsePortName_modern_form "" (strconv.Itoa pf) (strconv.Itoa vf))
    as [_ H]; [now left | exact Npf | exact Nvf |].
  cbn [append] in H. cbn [append]. rewrite H by lia. now rewrite Vpf, Vvf.
Qed.

Lemma parsePortName_roundtrip_witness :
  parsePortName (encodePortName 1 5) = (1, 5, None).
Proof.
  apply (parsePortName_roundtrip 1 5); unfold MaxInt; lia.
Defined.

(** Claim C7, as amended.  [parsePortName] fails exactly when its argument,
    with the white space around it removed, is neither a pure integer within
    the range of [int] nor a name of the modern shape whose two digit groups
    are within that range; it fails on ["pf1"] and on ["garbage"]. *)
Theorem parsePortName_fails_iff :
  (forall s,
      fails (parsePortName s) <->
      ~ (exists w1 w2 t,
            whiteSpace w1 /\ whiteSpace w2 /\ s = w1 ++ t ++ w2 /\ decodableName t))
  /\ fails (parsePortName "pf1")
  /\ fails (parsePortName "garbage").
Proof.
  split; [|split; unfold fails; vm_compute; discriminate].
  intros s. split.
  - intros Hf (w1 & w2 & t & H1 & H2 & -> & Hd).
    apply Hf. apply parsePortName_decodable.
    now rewrite (decodableName_trim w1 w2 t H1 H2 Hd).
  - intros Hn Hs. apply Hn.
    destruct (TrimSpace_decompose s) as (w1 & w2 & H1 & H2 & E).
    exists w1, w2, (strings.TrimSpace s). repeat split; auto.
    now apply parsePortName_succeeds_inv.
Qed.

(** The claim C7 as it stands fails in both directions: a modern name after
    white space matches neither shape and is decoded, and an integer beyond
    the range of [int] matches the legacy shape and is not. *)
Lemma parsePortName_shapes_mismatch :
  (succeeds (parsePortName " pf1vf5")
   /\ (forall n, ~ legacyShape " pf1vf5" n)
   /\ (forall pf vf, ~ modernShape " pf1vf5" pf vf))
  /\ (legacyShape "99999999999999999999" "99999999999999999999"
      /\ fails (parsePortName "99999999999999999999")).
Proof.
  split; [split; [reflexivity | split] | exact parsePortName_legacy_overflow].
  - intros n (w1 & w2 & H1 & H2 & Hn & E).
    pose proof (TrimSpace_literal w1 w2 n H1 H2 Hn) as Et.
    rewrite <- E in Et. vm_compute in Et. subst n. discriminate.
  - intros pf vf (c & [->|(n & _ & ->)] & _ & _ & E); discriminate.
Qed.

(** ** Running programs *)

Lemma run_bind {A B : Type} (fs : Filesystem) (p : prog A) (f : A -> prog B) :
  run fs (bind p f) =
  match run fs p with
  | (Returned a, t) => let '(o, t') := run fs (f a) in (o, (t ++ t')%list)
  | (Panicked msg, t) => (Panicked msg, t)
  end.
Proof.
  induction p as [a|msg|name k IH|dirname k IH|name k IH|n k IH]; cbn [bind run].
  - destruct (run fs (f a)); reflexivity.
  - reflexivity.
  - rewrite IH. destruct (run fs (k _)) as [[a|msg] t]; [destruct (run fs (f a))|];
      reflexivity.
  - rewrite IH. destruct (run fs (k _)) as [[a|msg] t]; [destruct (run fs (f a))|];
      reflexivity.
  - rewrite IH. destruct (run fs (k _)) as [[a|msg] t]; [destruct (run fs (f a))|];
      reflexivity.
  - rewrite IH. destruct (run fs (k _)) as [[a|msg] t]; [destruct (run fs (f a))|];
      reflexivity.
Qed.

Lemma eval_bind {A B : Type} (fs : Filesystem) (p : prog A) (f : A -> prog B) :
  eval fs (bind p f) =
  match eval fs p with
  | Returned a => eval fs (f a)
  | Panicked msg => Panicked msg
  end.
Proof.
  unfold eval. rewrite run_bind.
  destruct (run fs p) as [[a|msg] t]; cbn [fst];
    [destruct (run fs (f a)); reflexivity | reflexivity].
Qed.

Lemma trace_bind {A B : Type} (fs : Filesystem) (p : prog A) (f : A -> prog B) :
  trace fs (bind p f) =
  (trace fs p ++ match eval fs p with
                 | Returned a => trace fs (f a)
                 | Panicked _ => []
                 end)%list.
Proof.
  unfold trace, eval. rewrite run_bind.
  destruct (run fs p) as [[a|msg] t]; cbn [fst snd];
    [destruct (run fs (f a)); reflexivity | now rewrite app_nil_r].
Qed.

Lemma eval_ReadFile (fs : Filesystem) (name : string) :
  eval fs (utilfs.ReadFile name) = Returned (fsReadFile fs name).
Proof. reflexivity. Qed.

Lemma trace_ReadFile (fs : Filesystem) (name : string) :
  trace fs (utilfs.ReadFile name) = [CallReadFile name].
Proof. reflexivity. Qed.

Lemma eval_ReadDir (fs : Filesystem) (dirname : string) :
  eval fs (utilfs.ReadDir dirname) = Returned (fsReadDir fs dirname).
Proof. reflexivity. Qed.

Lemma trace_ReadDir (fs : Filesystem) (dirname : string) :
  trace fs (utilfs.ReadDir dirname) = [CallReadDir dirname].
Proof. reflexivity. Qed.

Lemma eval_Stat (fs : Filesystem) (name : string) :
  eval fs (utilfs.Stat name) = Returned (fsStat fs name).
Proof. reflexivity. Qed.

Lemma trace_Stat (fs : Filesystem) (name : string) :
  trace fs (utilfs.Stat name) = [CallStat name].
Proof. reflexivity. Qed.

Lemma eval_getPCIFromDeviceName (fs : Filesystem) (n : string) :
  eval fs (getPCIFromDeviceName n) = Returned (fsPCIFromDeviceName fs n).
Proof. reflexivity. Qed.

Section SwitchdevProperties.

Variables NetSysDir PciSysDir : string.
Variable fs : Filesystem.

Lemma eval_isSwitchdev (netdevice : string) :
  eval fs (isSwitchdev NetSysDir netdevice)
  = Returned (switchdevCapable NetSysDir fs netdevice).
Proof.
  unfold isSwitchdev, switchdevCapable. cbv zeta.
  rewrite eval_bind, eval_ReadFile.
  destruct (fsReadFile fs _) as [id [e|]]; cbn [isNil negb andb]; [reflexivity|].
  destruct (String.eqb id ""); reflexivity.
Qed.

Lemma trace_isSwitchdev (netdevice : string) :
  trace fs (isSwitchdev NetSysDir netdevice)
  = [CallReadFile (filepath.Join [NetSysDir; netdevice; netdevPhysSwitchID])].
Proof.
  unfold isSwitchdev. cbv zeta. rewrite trace_bind, trace_ReadFile, eval_ReadFile.
  destruct (fsReadFile fs _) as [id [e|]]; cbn [isNil negb]; [reflexivity|].
  destruct (String.eqb id ""); reflexivity.
Qed.

Lemma eval_getNetDevPhysPortName (netDev : string) :
  eval fs (getNetDevPhysPortName NetSysDir netDev)
  = Returned
      (let '(physPortName, err) :=
         fsReadFile fs (filepath.Join [NetSysDir; netDev; netdevPhysPortName]) in
       match err with
       | Some e => ("", Some (FsError e))
       | None => (strings.TrimSpace physPortName, None)
       end).
Proof.
  unfold getNetDevPhysPortName. cbv zeta. rewrite eval_bind, eval_ReadFile.
  destruct (fsReadFile fs _) as [raw [e|]]; reflexivity.
Qed.

Lemma trace_getNetDevPhysPortName (netDev : string) :
  trace fs (getNetDevPhysPortName NetSysDir netDev)
  = [CallReadFile (filepath.Join [NetSysDir; netDev; netdevPhysPortName])].
Proof.
  unfold getNetDevPhysPortName. cbv zeta.
  rewrite trace_bind, trace_ReadFile, eval_ReadFile.
  destruct (fsReadFile fs _) as [raw [e|]]; reflexivity.
Qed.

(** *** The uplink resolver *)

Lemma uplinkLoop_cons (pciAddress device : string) (devices : list string) :
  eval fs (uplinkLoop NetSysDir pciAddress (device :: devices))
  = if uplinkCandidate NetSysDir fs device then Returned (device, None)
    else eval fs (uplinkLoop NetSysDir pciAddress devices).
Proof.
  cbn [uplinkLoop]. rewrite eval_bind, eval_isSwitchdev. unfold uplinkCandidate.
  destruct (switchdevCapable NetSysDir fs device); cbn [andb]; [|reflexivity].
  rewrite eval_bind, eval_getNetDevPhysPortName.
  destruct (fsReadFile fs _) as [raw [e|]]; cbn [isNil andb]; [reflexivity|].
  rewrite physPortRepRegex_spec.
  destruct (isUplinkShape (strings.TrimSpace raw)); reflexivity.
Qed.

Lemma uplinkLoop_find (pciAddress : string) (devices : list string) :
  eval fs (uplinkLoop NetSysDir pciAddress devices)
  = Returned
      match find (uplinkCandidate NetSysDir fs) devices with
      | Some device => (device, None)
      | None => ("", Some (Errorf ("uplink for " ++ pciAddress ++ " not found")))
      end.
Proof.
  induction devices as [|device devices IH]; [reflexivity|].
  rewrite uplinkLoop_cons. cbn [find].
  destruct (uplinkCandidate NetSysDir fs device); [reflexivity | exact IH].
Qed.

Lemma uplinkLoop_trace (pciAddress : string) (devices : list string) (c : call) :
  In c (trace fs (uplinkLoop NetSysDir pciAddress devices)) ->
  exists name, c = CallReadFile name.
Proof.
  induction devices as [|device devices IH]; [intros []|].
  cbn [uplinkLoop]. rewrite trace_bind, trace_isSwitchdev, eval_isSwitchdev.
  intros [<-|H]; [eauto|].
  destruct (switchdevCapable NetSysDir fs device); [|now apply IH].
  rewrite trace_bind, trace_getNetDevPhysPortName, eval_getNetDevPhysPortName in H.
  destruct H as [<-|H]; [eauto|].
  destruct (fsReadFile fs _) as [raw [e|]]; cbn [isNil andb] in H; [destruct H|].
  destruct (negb _); [now apply IH | destruct H].
Qed.

Lemma uplinkCandidate_spec (device : string) :
  uplinkCandidate NetSysDir fs device = true <->
  switchdevCapable NetSysDir fs device = true
  /\ (snd (fsReadFile fs (filepath.Join [NetSysDir; device; netdevPhysPortName])) <> None
      \/ uplinkShape
           (strings.TrimSpace
              (fst (fsReadFile fs (filepath.Join [NetSysDir; device; netdevPhysPortName]))))).
Proof.
  unfold uplinkCandidate. rewrite andb_true_iff.
  destruct (fsReadFile fs _) as [raw [e|]]; cbn [fst snd].
  - split; intros [H _]; (split; [exact H|]); [left; discriminate | reflexivity].
  - rewrite isUplinkShape_spec. split; intros [H1 H2]; (split; [exact H1|]).
    + now right.
    + destruct H2 as [H2|H2]; [now elim H2 | exact H2].
Qed.

(** Claim C8.  [GetUplinkRepresentor] returns the first listed interface that
    is switchdev-capable and whose port name either cannot be read or, once
    read, has the shape [^p<digits>$]; a switchdev-capable interface whose
    port name is read and has another shape is passed over. *)
Theorem GetUplinkRepresentor_candidates (pciAddress : string) (devices : list string) :
  let physfn := filepath.Join [PciSysDir; pciAddress; "physfn"; "net"] in
  let own := filepath.Join [PciSysDir; pciAddress; "net"] in
  let devicePath :=
    match fsStat fs physfn with
    | Some e => if fsIsNotExist e then own else physfn
    | None => physfn
    end in
  let portName device :=
    fsReadFile fs (filepath.Join [NetSysDir; device; netdevPhysPortName]) in
  fsReadDir fs devicePath = (devices, None) ->
  eval fs (GetUplinkRepresentor NetSysDir PciSysDir pciAddress)
  = Returned
      match find (uplinkCandidate NetSysDir fs) devices with
      | Some device => (device, None)
      | None => ("", Some (Errorf ("uplink for " ++ pciAddress ++ " not found")))
      end
  /\ (forall device,
        uplinkCandidate NetSysDir fs device = true <->
        switchdevCapable NetSysDir fs device = true
        /\ (snd (portName device) <> None
            \/ uplinkShape (strings.TrimSpace (fst (portName device))))).
Proof.
  intros physfn own devicePath portName Hdir. split.
  - unfold GetUplinkRepresentor. cbv zeta.
    rewrite eval_bind, eval_Stat, eval_bind, eval_ReadDir.
    fold physfn own devicePath. rewrite Hdir.
    apply uplinkLoop_find.
  - intros device. apply uplinkCandidate_spec.
Qed.

End SwitchdevProperties.

Lemma GetUplinkRepresentor_candidates_witness :
  eval (fixtureFs deviceTree) (GetUplinkRepresentor netSysDir pciSysDir "0000:03:00.4")
  = Returned ("p0", None).
Proof.
  destruct (GetUplinkRepresentor_candidates netSysDir pciSysDir (fixtureFs deviceTree)
              "0000:03:00.4" ["eth0"; "p0"] eq_refl) as [H _].
  exact H.
Defined.

Section RepresentorProperties.

Variables NetSysDir PciSysDir : string.
Variable fs : Filesystem.

(** *** The fallback to the function's own directory *)

Lemma GetUplinkRepresentor_listing_fails (pciAddress : string) (e : fsError)
    (devices : list string) (e' : fsError) :
  let physfn := filepath.Join [PciSysDir; pciAddress; "physfn"; "net"] in
  fsStat fs physfn = Some e -> fsIsNotExist e = false ->
  fsReadDir fs physfn = (devices, Some e') ->
  run fs (GetUplinkRepresentor NetSysDir PciSysDir pciAddress)
  = (Returned
       ("", Some (Errorf ("failed to lookup " ++ pciAddress ++ ": " ++ fsErrorText e'))),
     [CallStat physfn; CallReadDir physfn]).
Proof.
  intros physfn Hs Hne Hd.
  unfold GetUplinkRepresentor. cbv zeta. cbn [bind utilfs.Stat utilfs.ReadDir run].
  fold physfn. rewrite Hs, Hne, Hd. reflexivity.
Qed.

(** Claim C10.  Only a stat failure that is a not-exist error moves the
    listing from the [physfn] directory to the function's own directory.
    After any other stat failure the [physfn] directory is the one listed;
    on a filesystem where a path that cannot be statted cannot be listed,
    that listing fails and the call returns an error that names the PCI
    address, the function's own directory not having been listed. *)
Theorem GetUplinkRepresentor_physfn_fallback (pciAddress : string) :
  let physfn := filepath.Join [PciSysDir; pciAddress; "physfn"; "net"] in
  let own := filepath.Join [PciSysDir; pciAddress; "net"] in
  let notExist := exists e, fsStat fs physfn = Some e /\ fsIsNotExist e = true in
  (forall dirname,
      In (CallReadDir dirname)
         (trace fs (GetUplinkRepresentor NetSysDir PciSysDir pciAddress)) ->
      (dirname = own /\ notExist) \/ (dirname = physfn /\ ~ notExist))
  /\ (forall e,
        statCoherent fs -> fsStat fs physfn = Some e -> fsIsNotExist e = false ->
        exists devices e',
          fsReadDir fs physfn = (devices, Some e')
          /\ run fs (GetUplinkRepresentor NetSysDir PciSysDir pciAddress)
             = (Returned
                  ("", Some (Errorf ("failed to lookup " ++ pciAddress ++ ": "
                                     ++ fsErrorText e'))),
                [CallStat physfn; CallReadDir physfn])
          /\ names ("failed to lookup " ++ pciAddress ++ ": " ++ fsErrorText e') pciAddress).
Proof.
  intros physfn own notExist. split.
  - intros dirname. unfold GetUplinkRepresentor. cbv zeta.
    rewrite trace_bind, trace_Stat, eval_Stat. fold physfn own.
    intros [H|H]; [discriminate H|].
    rewrite trace_bind, trace_ReadDir, eval_ReadDir in H.
    destruct H as [H|H].
    + injection H as <-.
      destruct (fsStat fs physfn) as [e|] eqn:Es.
      * destruct (fsIsNotExist e) eqn:Ee.
        -- left. split; [reflexivity|]. exists e. auto.
        -- right. split; [reflexivity|]. intros (e0 & E0 & Hne). congruence.
      * right. split; [reflexivity|]. intros (e0 & E0 & _). discriminate.
    + destruct (fsReadDir fs _) as [devices [e'|]]; [destruct H|].
      apply uplinkLoop_trace in H as (name & Hc). discriminate.
  - intros e Hco Hs Hne.
    destruct (Hco physfn e Hs) as (devices & e' & Hd).
    exists devices, e'. split; [exact Hd|]. split.
    + now apply (GetUplinkRepresentor_listing_fails pciAddress e devices e').
    + exists "failed to lookup ", (": " ++ fsErrorText e'). reflexivity.
Qed.

(** *** The VF representor resolver *)

(** Claim C9.  When the switch identifier of the uplink cannot be read or is
    empty, [GetVfRepresentor] fails at once with an error of its own that
    names the uplink; the reading of that attribute is its only call, so the
    subsystem directory is not listed. *)
Theorem GetVfRepresentor_no_switch_id (uplink : string) (vfIndex : Z)
    (physSwitchID : string) (err : option fsError) :
  fsReadFile fs (filepath.Join [NetSysDir; uplink; netdevPhysSwitchID]) = (physSwitchID, err) ->
  err <> None \/ physSwitchID = "" ->
  run fs (GetVfRepresentor NetSysDir uplink vfIndex)
  = (Returned ("", Some (Errorf ("cant get uplink " ++ uplink ++ " switch id"))),
     [CallReadFile (filepath.Join [NetSysDir; uplink; netdevPhysSwitchID])])
  /\ names ("cant get uplink " ++ uplink ++ " switch id") uplink
  /\ Errorf ("cant get uplink " ++ uplink ++ " switch id")
     <> Errorf ("failed to find VF representor for uplink " ++ uplink).
Proof.
  intros Hr Hc. split; [|split].
  - unfold GetVfRepresentor. cbv zeta. cbn [bind utilfs.ReadFile run]. rewrite Hr.
    destruct err as [e|]; cbn [isNil negb orb]; [reflexivity|].
    destruct Hc as [Hc | ->]; [now elim Hc | reflexivity].
  - exists "cant get uplink ", " switch id". reflexivity.
  - discriminate.
Qed.

(** An iteration of the sibling loop either returns the sibling, whose port
    name was read and gave the requested VF index, or goes on with the other
    siblings, or panics. *)
Lemma vfRepresentorLoop_cons (uplink physSwitchID : string) (vfIndex : Z)
    (device : string) (devices : list string) :
  (eval fs (vfRepresentorLoop NetSysDir uplink physSwitchID vfIndex (device :: devices))
   = Returned (device, None)
   /\ exists raw,
       fsReadFile fs (filepath.Join [NetSysDir; device; netdevPhysPortName]) = (raw, None)
       /\ snd (fst (parsePortName (strings.TrimSpace raw))) = vfIndex)
  \/ eval fs (vfRepresentorLoop NetSysDir uplink physSwitchID vfIndex (device :: devices))
     = eval fs (vfRepresentorLoop NetSysDir uplink physSwitchID vfIndex devices)
  \/ exists msg,
      eval fs (vfRepresentorLoop NetSysDir uplink physSwitchID vfIndex (device :: devices))
      = Panicked msg.
Proof.
  cbn [vfRepresentorLoop]. cbv zeta.
  rewrite eval_bind, eval_ReadFile.
  destruct (fsReadFile fs _) as [deviceSwID [e|]]; cbn [isNil negb orb]; [now right; left|].
  destruct (String.eqb deviceSwID physSwitchID); cbn [negb]; [|now right; left].
  rewrite eval_bind, eval_getNetDevPhysPortName.
  destruct (fsReadFile fs _) as [raw [e|]] eqn:Eraw; cbn [isNil negb]; [now right; left|].
  destruct (parsePortName (strings.TrimSpace raw)) as [[pfRepIndex vfRepIndex] perr] eqn:Ep.
  destruct (pfRepIndex =? -1); cbn [negb].
  - destruct (vfRepIndex =? vfIndex) eqn:Ev; [|now right; left].
    left. split; [reflexivity|]. exists raw. rewrite Ep. cbn [fst snd].
    split; [reflexivity | now apply Z.eqb_eq].
  - rewrite eval_bind, eval_getPCIFromDeviceName.
    destruct (fsPCIFromDeviceName fs uplink) as [pfPCIAddress [e|]]; cbn [isNil negb];
      [now right; left|].
    destruct (lastByte pfPCIAddress) as [b|]; [|right; right; eexists; reflexivity].
    destruct (strconv.Atoi (stringOfByte b)) as [PCIFuncAddress aerr].
    destruct (negb (pfRepIndex =? PCIFuncAddress) || negb (isNil aerr));
      [now right; left|].
    destruct (vfRepIndex =? vfIndex) eqn:Ev; [|now right; left].
    left. split; [reflexivity|]. exists raw. rewrite Ep. cbn [fst snd].
    split; [reflexivity | now apply Z.eqb_eq].
Qed.


Lemma vfRepresentorLoop_found (uplink physSwitchID : string) (vfIndex : Z)
    (devices : list string) (name : string) :
  eval fs (vfRepresentorLoop NetSysDir uplink physSwitchID vfIndex devices)
  = Returned (name, None) ->
  In name devices
  /\ exists raw,
      fsReadFile fs (filepath.Join [NetSysDir; name; netdevPhysPortName]) = (raw, None)
      /\ snd (fst (parsePortName (strings.TrimSpace raw))) = vfIndex.
Proof.
  induction devices as [|device devices IH].
  - cbn. discriminate.
  - destruct (vfRepresentorLoop_cons uplink physSwitchID vfIndex device devices)
      as [[E Hraw]|[E|(msg & E)]]; rewrite E.
    + intros H. injection H as <-. split; [now left | exact Hraw].
    + intros H. destruct (IH H) as [Hin Hraw]. split; [now right | exact Hraw].
    + discriminate.
Qed.


(** Property X11.  What does hold of the siblings that do not decode: for a
    requested index other than -1 and the largest [int], the sibling that is
    returned had its port name read and decoded. *)
Lemma GetVfRepresentor_skips_undecodable (uplink : string) (vfIndex : Z) (name : string) :
  vfIndex <> -1 -> vfIndex <> MaxInt ->
  eval fs (GetVfRepresentor NetSysDir uplink vfIndex) = Returned (name, None) ->
  exists raw,
    fsReadFile fs (filepath.Join [NetSysDir; name; netdevPhysPortName]) = (raw, None)
    /\ succeeds (parsePortName (strings.TrimSpace raw)).
Proof.
  intros H1 H2. unfold GetVfRepresentor. cbv zeta.
  rewrite eval_bind, eval_ReadFile.
  destruct (fsReadFile fs _) as [physSwitchID [e|]]; cbn [isNil negb orb]; [discriminate|].
  destruct (String.eqb physSwitchID ""); [discriminate|].
  rewrite eval_bind, eval_ReadDir.
  destruct (fsReadDir fs _) as [devices [e|]]; [discriminate|].
  intros H. apply vfRepresentorLoop_found in H as (_ & raw & Hraw & Hv).
  exists raw. split; [exact Hraw|]. unfold succeeds.
  destruct (parsePortName (strings.TrimSpace raw)) as [[p v] [e|]] eqn:Ep; [|reflexivity].
  cbn [fst snd] in Hv. subst v.
  apply parsePortName_failure_values in Ep. tauto.
Qed.

End RepresentorProperties.

Lemma fixtureFs_statCoherent (fx : fixture) : statCoherent (fixtureFs fx).
Proof.
  intros name e. cbn [fixtureFs fsStat fsReadDir].
  destruct (isDenied fx name); [eauto|].
  destruct (assoc name (files fx)); [discriminate|].
  destruct (assoc name (dirs fx)); [discriminate | eauto].
Qed.

Lemma GetUplinkRepresentor_physfn_fallback_witness :
  exists devices e',
    fsReadDir (fixtureFs deviceTree) "/sys/bus/pci/devices/0000:03:00.5/physfn/net"
    = (devices, Some e')
    /\ run (fixtureFs deviceTree) (GetUplinkRepresentor netSysDir pciSysDir "0000:03:00.5")
       = (Returned
            ("", Some (Errorf ("failed to lookup " ++ "0000:03:00.5" ++ ": "
                               ++ fsErrorText e'))),
          [CallStat "/sys/bus/pci/devices/0000:03:00.5/physfn/net";
           CallReadDir "/sys/bus/pci/devices/0000:03:00.5/physfn/net"])
    /\ names ("failed to lookup " ++ "0000:03:00.5" ++ ": " ++ fsErrorText e')
         "0000:03:00.5".
Proof.
  destruct (GetUplinkRepresentor_physfn_fallback netSysDir pciSysDir (fixtureFs deviceTree)
              "0000:03:00.5") as [_ H].
  exact (H (errPermission "stat" "/sys/bus/pci/devices/0000:03:00.5/physfn/net")
           (fixtureFs_statCoherent deviceTree) eq_refl eq_refl).
Defined.

Lemma GetVfRepresentor_no_switch_id_witness :
  run (fixtureFs deviceTree) (GetVfRepresentor netSysDir "eth0" 0)
  = (Returned ("", Some (Errorf "cant get uplink eth0 switch id")),
     [CallReadFile "/sys/class/net/eth0/phys_switch_id"]).
Proof.
  destruct (GetVfRepresentor_no_switch_id netSysDir (fixtureFs deviceTree) "eth0" 0 "" None
              eq_refl (or_intror eq_refl)) as [H _].
  exact H.
Defined.




(** Claim C1 fails on the code.  The resolver drops the error of
    [parsePortName] and keeps the indices returned with it, which are -1 when
    the name has none of the shapes: asked for the index -1, it returns a
    sibling whose port name does not decode.  Here the uplink [p0] itself,
    whose port name is ["p0"], is returned as the representor of VF -1. *)
Theorem GetVfRepresentor_returns_undecodable_sibling :
  eval (fixtureFs deviceTree) (getNetDevPhysPortName netSysDir "p0")
  = Returned ("p0", None)
  /\ fails (parsePortName "p0")
  /\ eval (fixtureFs deviceTree) (GetVfRepresentor netSysDir "p0" (-1))
     = Returned ("p0", None).
Proof.
  split; [reflexivity|]. split; [|reflexivity].
  unfold fails. vm_compute. discriminate.
Qed.

(** * Further properties of sriovnet_switchdev.go *)

Section SearchProperties.

Variable NetSysDir : string.
Variable fs : Filesystem.

(** ** findNetdevWithPortNameCriteria *)

Lemma findNetdevLoop_cons (criteria : string -> bool) (netdevName : string)
    (netdevs : list string) :
  eval fs (findNetdevLoop NetSysDir criteria (netdevName :: netdevs))
  = if searchCandidate NetSysDir fs criteria netdevName then Returned (netdevName, None)
    else eval fs (findNetdevLoop NetSysDir criteria netdevs).
Proof.
  cbn [findNetdevLoop]. rewrite eval_bind, eval_isSwitchdev. unfold searchCandidate.
  destruct (switchdevCapable NetSysDir fs netdevName); cbn [andb negb]; [|reflexivity].
  rewrite eval_bind, eval_getNetDevPhysPortName.
  destruct (fsReadFile fs _) as [raw [e|]]; cbn [isNil negb andb]; [reflexivity|].
  destruct (criteria (strings.TrimSpace raw)); reflexivity.
Qed.

Lemma findNetdevLoop_find (criteria : string -> bool) (netdevs : list string) :
  eval fs (findNetdevLoop NetSysDir criteria netdevs)
  = Returned
      match find (searchCandidate NetSysDir fs criteria) netdevs with
      | Some netdev => (netdev, None)
      | None => ("", Some (Errorf "no representor matched criteria"))
      end.
Proof.
  induction netdevs as [|netdevName netdevs IH]; [reflexivity|].
  rewrite findNetdevLoop_cons. cbn [find].
  destruct (searchCandidate NetSysDir fs criteria netdevName); [reflexivity | exact IH].
Qed.

(** Property X15.  The search returns the first listed interface that is
    switchdev-capable and whose port name is read and satisfies the criteria; an
    interface whose port name cannot be read is passed over, and when no
    interface is left the error is "no representor matched criteria". *)
Theorem findNetdevWithPortNameCriteria_first (criteria : string -> bool)
    (netdevs : list string) :
  fsReadDir fs NetSysDir = (netdevs, None) ->
  eval fs (findNetdevWithPortNameCriteria NetSysDir criteria)
  = Returned
      match find (searchCandidate NetSysDir fs criteria) netdevs with
      | Some netdev => (netdev, None)
      | None => ("", Some (Errorf "no representor matched criteria"))
      end.
Proof.
  intros Hd. unfold findNetdevWithPortNameCriteria.
  rewrite eval_bind, eval_ReadDir, Hd. apply findNetdevLoop_find.
Qed.

(** Property X16.  When the listing of the net directory fails, the search
    returns that error as it is, having made no other call. *)
Theorem findNetdevWithPortNameCriteria_listing_error (criteria : string -> bool)
    (netdevs : list string) (e : fsError) :
  fsReadDir fs NetSysDir = (netdevs, Some e) ->
  run fs (findNetdevWithPortNameCriteria NetSysDir criteria)
  = (Returned ("", Some (FsError e)), [CallReadDir NetSysDir]).
Proof.
  intros Hd. unfold findNetdevWithPortNameCriteria.
  cbn [bind utilfs.ReadDir run]. now rewrite Hd.
Qed.

Lemma find_weaken {A : Type} (f g : A -> bool) (l : list A) (x : A) :
  (forall a, f a = true -> g a = true) ->
  find f l = Some x -> exists y, find g l = Some y.
Proof.
  intros Hfg. induction l as [|a l IH]; cbn [find]; [discriminate|].
  destruct (f a) eqn:Hf.
  - intros _. rewrite (Hfg a Hf). eauto.
  - intros H. destruct (g a); [eauto | now apply IH].
Qed.

(** Property X17.  The search is monotone in its criteria: when it finds an
    interface for a criteria, it finds one for every weaker criteria. *)
Theorem findNetdevWithPortNameCriteria_monotone (c1 c2 : string -> bool) (netdev : string) :
  (forall portName, c1 portName = true -> c2 portName = true) ->
  eval fs (findNetdevWithPortNameCriteria NetSysDir c1) = Returned (netdev, None) ->
  exists netdev',
    eval fs (findNetdevWithPortNameCriteria NetSysDir c2) = Returned (netdev', None).
Proof.
  intros Hc. unfold findNetdevWithPortNameCriteria.
  rewrite !eval_bind, eval_ReadDir.
  destruct (fsReadDir fs NetSysDir) as [netdevs [e|]]; [discriminate|].
  rewrite !findNetdevLoop_find.
  destruct (find (searchCandidate NetSysDir fs c1) netdevs) as [d|] eqn:E1; [|discriminate].
  intros _.
  destruct (find_weaken (searchCandidate NetSysDir fs c1) (searchCandidate NetSysDir fs c2)
              netdevs d) as (d' & E2); [|exact E1|].
  - intros a. unfold searchCandidate.
    destruct (switchdevCapable NetSysDir fs a); [|discriminate]. cbn [andb].
    destruct (fsReadFile fs _) as [raw [e|]]; cbn [isNil andb]; [discriminate|].
    apply Hc.
  - rewrite E2. eauto.
Qed.

End SearchProperties.

Lemma findNetdevWithPortNameCriteria_first_witness :
  eval (fixtureFs dpuTree)
    (findNetdevWithPortNameCriteria netSysDir (fun pname => String.eqb pname "p1"))
  = Returned ("p1", None).
Proof.
  exact (findNetdevWithPortNameCriteria_first netSysDir (fixtureFs dpuTree)
           (fun pname => String.eqb pname "p1") ["lo"; "p0"; "p1"] eq_refl).
Defined.

Lemma findNetdevWithPortNameCriteria_listing_error_witness :
  run (fixtureFs dpuTree) (findNetdevWithPortNameCriteria "/sys/class/nonet" (fun _ => true))
  = (Returned ("", Some (FsError (errNotExist "open" "/sys/class/nonet"))),
     [CallReadDir "/sys/class/nonet"]).
Proof.
  exact (findNetdevWithPortNameCriteria_listing_error "/sys/class/nonet" (fixtureFs dpuTree)
           (fun _ => true) [] (errNotExist "open" "/sys/class/nonet") eq_refl).
Defined.

Lemma findNetdevWithPortNameCriteria_monotone_witness :
  exists netdev',
    eval (fixtureFs dpuTree) (findNetdevWithPortNameCriteria netSysDir isUplinkShape)
    = Returned (netdev', None).
Proof.
  apply (findNetdevWithPortNameCriteria_monotone netSysDir (fixtureFs dpuTree)
           (fun pname => String.eqb pname "p1") isUplinkShape "p1").
  - intros portName H. apply String.eqb_eq in H. subst portName. reflexivity.
  - reflexivity.
Defined.

Section ResolverProperties.

Variables NetSysDir PciSysDir : string.
Variable fs : Filesystem.

(** ** GetVfRepresentor *)

Lemma lastByte_None (s : string) : lastByte s = None -> s = "".
Proof.
  induction s as [|c s IH]; [reflexivity|]. cbn [lastByte].
  destruct s as [|c' s']; [discriminate|]. intros H. apply IH in H. discriminate.
Qed.

(** An iteration of the sibling loop returns the sibling exactly when the
    sibling qualifies; otherwise it goes on with the other siblings, unless
    the PCI lookup of the uplink succeeded on an empty address, on which the
    indexing of its last byte panics. *)
Lemma vfRepresentorLoop_step (uplink physSwitchID : string) (vfIndex : Z)
    (device : string) (devices : list string) :
  (representorOf NetSysDir fs uplink physSwitchID vfIndex device
   /\ eval fs (vfRepresentorLoop NetSysDir uplink physSwitchID vfIndex (device :: devices))
      = Returned (device, None))
  \/ (~ representorOf NetSysDir fs uplink physSwitchID vfIndex device
      /\ eval fs (vfRepresentorLoop NetSysDir uplink physSwitchID vfIndex (device :: devices))
         = eval fs (vfRepresentorLoop NetSysDir uplink physSwitchID vfIndex devices))
  \/ (~ representorOf NetSysDir fs uplink physSwitchID vfIndex device
      /\ eval fs (vfRepresentorLoop NetSysDir uplink physSwitchID vfIndex (device :: devices))
         = Panicked "index out of range"
      /\ fsPCIFromDeviceName fs uplink = ("", None)).
Proof.
  unfold representorOf. cbn [vfRepresentorLoop]. cbv zeta.
  rewrite eval_bind, eval_ReadFile.
  destruct (fsReadFile fs (filepath.Join [filepath.Join [NetSysDir; device]; netdevPhysSwitchID]))
    as [deviceSwID [e|]] eqn:Esw; cbn [isNil negb orb].
  { right; left. split; [|reflexivity]. intros [H _]. discriminate. }
  destruct (String.eqb deviceSwID physSwitchID) eqn:Eeq; cbn [negb].
  2:{ right; left. split; [|reflexivity]. intros [H _].
      apply String.eqb_neq in Eeq. congruence. }
  apply String.eqb_eq in Eeq. subst deviceSwID.
  rewrite eval_bind, eval_getNetDevPhysPortName.
  destruct (fsReadFile fs (filepath.Join [NetSysDir; device; netdevPhysPortName]))
    as [raw [e|]] eqn:Eraw; cbn [isNil negb].
  { right; left. split; [|reflexivity]. intros (_ & raw' & pf' & perr' & H & _).
    discriminate. }
  destruct (parsePortName (strings.TrimSpace raw)) as [[pfRepIndex vfRepIndex] perr] eqn:Ep.
  destruct (pfRepIndex =? -1) eqn:Epf; cbn [negb].
  - apply Z.eqb_eq in Epf. subst pfRepIndex.
    destruct (vfRepIndex =? vfIndex) eqn:Ev.
    + apply Z.eqb_eq in Ev. subst vfRepIndex. left. split; [|reflexivity].
      split; [reflexivity|]. exists raw, (-1), perr. auto.
    + right; left. split; [|reflexivity].
      intros (_ & raw' & pf' & perr' & H & Hp & _).
      injection H as <-. rewrite Ep in Hp. injection Hp as _ Hv _.
      apply Z.eqb_neq in Ev. congruence.
  - apply Z.eqb_neq in Epf.
    rewrite eval_bind, eval_getPCIFromDeviceName.
    destruct (fsPCIFromDeviceName fs uplink) as [pfPCIAddress [e|]] eqn:Epci;
      cbn [isNil negb].
    { right; left. split; [|reflexivity].
      intros (_ & raw' & pf' & perr' & H & Hp & [Hm|(a & b & Ha & _)]).
      - injection H as <-. rewrite Ep in Hp. injection Hp as Hpf _ _. congruence.
      - discriminate. }
    destruct (lastByte pfPCIAddress) as [b|] eqn:Eb.
    2:{ right; right. apply lastByte_None in Eb. subst pfPCIAddress.
        split; [|split; reflexivity].
        intros (_ & raw' & pf' & perr' & H & Hp & [Hm|(a & b & Ha & Hb & _)]).
        - injection H as <-. rewrite Ep in Hp. injection Hp as Hpf _ _. congruence.
        - injection Ha as <-. discriminate. }
    destruct (strconv.Atoi (stringOfByte b)) as [PCIFuncAddress aerr] eqn:Ea.
    destruct (pfRepIndex =? PCIFuncAddress) eqn:Efn; cbn [negb orb].
    2:{ right; left. split; [|reflexivity].
        intros (_ & raw' & pf' & perr' & H & Hp & [Hm|(a & b' & Ha & Hb & Hatoi)]).
        - injection H as <-. rewrite Ep in Hp. injection Hp as Hpf _ _. congruence.
        - injection H as <-. rewrite Ep in Hp. injection Hp as Hpf _ _. subst pf'.
          injection Ha as <-. rewrite Eb in Hb. injection Hb as <-.
          rewrite Ea in Hatoi. injection Hatoi as Hv _.
          apply Z.eqb_neq in Efn. congruence. }
    apply Z.eqb_eq in Efn. subst PCIFuncAddress.
    destruct aerr as [ae|]; cbn [isNil negb].
    { right; left. split; [|reflexivity].
      intros (_ & raw' & pf' & perr' & H & Hp & [Hm|(a & b' & Ha & Hb & Hatoi)]).
      - injection H as <-. rewrite Ep in Hp. injection Hp as Hpf _ _. congruence.
      - injection Ha as <-. rewrite Eb in Hb. injection Hb as <-.
        rewrite Ea in Hatoi. discriminate. }
    destruct (vfRepIndex =? vfIndex) eqn:Ev.
    + apply Z.eqb_eq in Ev. subst vfRepIndex. left. split; [|reflexivity].
      split; [reflexivity|]. exists raw, pfRepIndex, perr.
      split; [reflexivity|]. split; [exact Ep|]. right. exists pfPCIAddress, b. auto.
    + right; left. split; [|reflexivity].
      intros (_ & raw' & pf' & perr' & H & Hp & _).
      injection H as <-. rewrite Ep in Hp. injection Hp as _ Hv _.
      apply Z.eqb_neq in Ev. congruence.
Qed.

Lemma vfRepresentorLoop_sound (uplink physSwitchID : string) (vfIndex : Z)
    (devices : list string) (name : string) :
  eval fs (vfRepresentorLoop NetSysDir uplink physSwitchID vfIndex devices)
  = Returned (name, None) ->
  In name devices /\ representorOf NetSysDir fs uplink physSwitchID vfIndex name.
Proof.
  induction devices as [|device devices IH]; [cbn; discriminate|].
  destruct (vfRepresentorLoop_step uplink physSwitchID vfIndex device devices)
    as [[Hr E]|[[Hn E]|(Hn & E & _)]]; rewrite E.
  - intros H. injection H as <-. split; [now left | exact Hr].
  - intros H. destruct (IH H). split; [now right | assumption].
  - discriminate.
Qed.

Lemma vfRepresentorLoop_exhausted (uplink physSwitchID : string) (vfIndex : Z)
    (devices : list string) (name : string) (err : error) :
  eval fs (vfRepresentorLoop NetSysDir uplink physSwitchID vfIndex devices)
  = Returned (name, Some err) ->
  forall device, In device devices ->
                 ~ representorOf NetSysDir fs uplink physSwitchID vfIndex device.
Proof.
  induction devices as [|device devices IH]; [intros _ d []|].
  destruct (vfRepresentorLoop_step uplink physSwitchID vfIndex device devices)
    as [[Hr E]|[[Hn E]|(Hn & E & _)]]; rewrite E; [discriminate | | discriminate].
  intros H d [<-|Hin]; [exact Hn | now apply IH].
Qed.

Lemma vfRepresentorLoop_first (uplink physSwitchID : string) (vfIndex : Z)
    (before : list string) (device : string) (after : list string) :
  fsPCIFromDeviceName fs uplink <> ("", None) ->
  (forall d, In d before -> ~ representorOf NetSysDir fs uplink physSwitchID vfIndex d) ->
  representorOf NetSysDir fs uplink physSwitchID vfIndex device ->
  eval fs (vfRepresentorLoop NetSysDir uplink physSwitchID vfIndex
             (before ++ device :: after))
  = Returned (device, None).
Proof.
  intros Hpci Hb Hd. induction before as [|b before IH]; cbn [app].
  - destruct (vfRepresentorLoop_step uplink physSwitchID vfIndex device after)
      as [[_ E]|[[Hn _]|(Hn & _)]]; [exact E | now elim Hn | now elim Hn].
  - destruct (vfRepresentorLoop_step uplink physSwitchID vfIndex b
                (before ++ device :: after)) as [[Hr _]|[[_ E]|(_ & _ & Hp)]].
    + elim (Hb b); [now left | exact Hr].
    + rewrite E. apply IH. intros d Hin. apply Hb. now right.
    + now elim Hpci.
Qed.

Lemma vfRepresentorLoop_panic (uplink physSwitchID : string) (vfIndex : Z)
    (devices : list string) (msg : string) :
  eval fs (vfRepresentorLoop NetSysDir uplink physSwitchID vfIndex devices) = Panicked msg ->
  msg = "index out of range" /\ fsPCIFromDeviceName fs uplink = ("", None).
Proof.
  induction devices as [|device devices IH]; [cbn; discriminate|].
  destruct (vfRepresentorLoop_step uplink physSwitchID vfIndex device devices)
    as [[_ E]|[[_ E]|(_ & E & Hp)]]; rewrite E; [discriminate | exact IH |].
  intros H. injection H as <-. auto.
Qed.

(** Property X8.  What [GetVfRepresentor] returns without error is a listed
    sibling that qualifies: it has the switch identifier of the uplink, its port
    name was read and gave the requested VF index and, when it gave a PF index
    too, that index is the function digit of the uplink's PCI address. *)
Theorem GetVfRepresentor_sound (uplink : string) (vfIndex : Z) (name : string) :
  eval fs (GetVfRepresentor NetSysDir uplink vfIndex) = Returned (name, None) ->
  exists physSwitchID devices,
    fsReadFile fs (filepath.Join [NetSysDir; uplink; netdevPhysSwitchID])
    = (physSwitchID, None)
    /\ physSwitchID <> ""
    /\ fsReadDir fs (filepath.Join [NetSysDir; uplink; "subsystem"]) = (devices, None)
    /\ In name devices
    /\ representorOf NetSysDir fs uplink physSwitchID vfIndex name.
Proof.
  unfold GetVfRepresentor. cbv zeta. rewrite eval_bind, eval_ReadFile.
  destruct (fsReadFile fs _) as [physSwitchID [e|]] eqn:Er; cbn [isNil negb orb];
    [discriminate|].
  destruct (String.eqb physSwitchID "") eqn:Ee; [discriminate|].
  rewrite eval_bind, eval_ReadDir.
  destruct (fsReadDir fs _) as [devices [e|]] eqn:Ed; [discriminate|].
  intros H. apply vfRepresentorLoop_sound in H as [Hin Hr].
  exists physSwitchID, devices. apply String.eqb_neq in Ee. auto.
Qed.

(** Property X9.  The "not found" error is exact: when [GetVfRepresentor] fails
    after the listing, no listed sibling qualifies. *)
Theorem GetVfRepresentor_not_found_exact (uplink : string) (vfIndex : Z)
    (physSwitchID : string) (devices : list string) (name : string) (err : error) :
  fsReadFile fs (filepath.Join [NetSysDir; uplink; netdevPhysSwitchID]) = (physSwitchID, None) ->
  physSwitchID <> "" ->
  fsReadDir fs (filepath.Join [NetSysDir; uplink; "subsystem"]) = (devices, None) ->
  eval fs (GetVfRepresentor NetSysDir uplink vfIndex) = Returned (name, Some err) ->
  forall device, In device devices ->
                 ~ representorOf NetSysDir fs uplink physSwitchID vfIndex device.
Proof.
  intros Hr Hne Hd. unfold GetVfRepresentor. cbv zeta.
  rewrite eval_bind, eval_ReadFile, Hr. cbn [isNil negb orb].
  replace (String.eqb physSwitchID "") with false
    by (symmetry; now apply String.eqb_neq).
  rewrite eval_bind, eval_ReadDir, Hd.
  apply vfRepresentorLoop_exhausted.
Qed.

(** Property X10.  The first listed sibling that qualifies is the one returned,
    whatever follows it in the listing (the PCI lookup of the uplink not being
    the one that makes the loop panic). *)
Theorem GetVfRepresentor_first (uplink : string) (vfIndex : Z) (physSwitchID : string)
    (before : list string) (device : string) (after : list string) :
  fsReadFile fs (filepath.Join [NetSysDir; uplink; netdevPhysSwitchID]) = (physSwitchID, None) ->
  physSwitchID <> "" ->
  fsReadDir fs (filepath.Join [NetSysDir; uplink; "subsystem"])
  = ((before ++ device :: after)%list, None) ->
  fsPCIFromDeviceName fs uplink <> ("", None) ->
  (forall d, In d before -> ~ representorOf NetSysDir fs uplink physSwitchID vfIndex d) ->
  representorOf NetSysDir fs uplink physSwitchID vfIndex device ->
  eval fs (GetVfRepresentor NetSysDir uplink vfIndex) = Returned (device, None).
Proof.
  intros Hr Hne Hd Hpci Hb Hdev. unfold GetVfRepresentor. cbv zeta.
  rewrite eval_bind, eval_ReadFile, Hr. cbn [isNil negb orb].
  replace (String.eqb physSwitchID "") with false
    by (symmetry; now apply String.eqb_neq).
  rewrite eval_bind, eval_ReadDir, Hd.
  now apply vfRepresentorLoop_first.
Qed.

(** Property X12.  [GetVfRepresentor] panics only on the indexing of the last
    byte of the uplink's PCI address, when [getPCIFromDeviceName] returned the
    empty address without an error. *)
Theorem GetVfRepresentor_panics_only_on_empty_address (uplink : string) (vfIndex : Z)
    (msg : string) :
  eval fs (GetVfRepresentor NetSysDir uplink vfIndex) = Panicked msg ->
  msg = "index out of range" /\ fsPCIFromDeviceName fs uplink = ("", None).
Proof.
  unfold GetVfRepresentor. cbv zeta. rewrite eval_bind, eval_ReadFile.
  destruct (fsReadFile fs _) as [physSwitchID [e|]]; cbn [isNil negb orb]; [discriminate|].
  destruct (String.eqb physSwitchID ""); [discriminate|].
  rewrite eval_bind, eval_ReadDir.
  destruct (fsReadDir fs _) as [devices [e|]]; [discriminate|].
  apply vfRepresentorLoop_panic.
Qed.

(** Property X13.  When the listing of the subsystem directory fails,
    [GetVfRepresentor] returns that error as it is, after its two calls. *)
Theorem GetVfRepresentor_listing_error (uplink : string) (vfIndex : Z)
    (physSwitchID : string) (devices : list string) (e : fsError) :
  fsReadFile fs (filepath.Join [NetSysDir; uplink; netdevPhysSwitchID]) = (physSwitchID, None) ->
  physSwitchID <> "" ->
  fsReadDir fs (filepath.Join [NetSysDir; uplink; "subsystem"]) = (devices, Some e) ->
  run fs (GetVfRepresentor NetSysDir uplink vfIndex)
  = (Returned ("", Some (FsError e)),
     [CallReadFile (filepath.Join [NetSysDir; uplink; netdevPhysSwitchID]);
      CallReadDir (filepath.Join [NetSysDir; uplink; "subsystem"])]).
Proof.
  intros Hr Hne Hd. unfold GetVfRepresentor. cbv zeta.
  cbn [bind utilfs.ReadFile utilfs.ReadDir run]. rewrite Hr. cbn [isNil negb orb].
  replace (String.eqb physSwitchID "") with false
    by (symmetry; now apply String.eqb_neq).
  cbn [bind run]. rewrite Hd. reflexivity.
Qed.

End ResolverProperties.

Lemma GetVfRepresentor_sound_witness :
  exists physSwitchID devices,
    fsReadFile (fixtureFs deviceTree)
      (filepath.Join [netSysDir; "p0"; netdevPhysSwitchID]) = (physSwitchID, None)
    /\ physSwitchID <> ""
    /\ fsReadDir (fixtureFs deviceTree) (filepath.Join [netSysDir; "p0"; "subsystem"])
       = (devices, None)
    /\ In "pf0vf0" devices
    /\ representorOf netSysDir (fixtureFs deviceTree) "p0" physSwitchID 0 "pf0vf0".
Proof.
  exact (GetVfRepresentor_sound netSysDir (fixtureFs deviceTree) "p0" 0 "pf0vf0" eq_refl).
Defined.

Lemma GetVfRepresentor_not_found_exact_witness :
  In "pf0vf1" ["eth0"; "p0"; "pf0vf0"; "pf0vf1"]
  /\ ~ representorOf netSysDir (fixtureFs deviceTree) "p0" "sw1" 1 "pf0vf1".
Proof.
  split; [right; right; right; left; reflexivity|].
  refine (GetVfRepresentor_not_found_exact netSysDir (fixtureFs deviceTree) "p0" 1 "sw1"
            ["eth0"; "p0"; "pf0vf0"; "pf0vf1"] ""
            (Errorf "failed to find VF representor for uplink p0") _ _ _ _ "pf0vf1" _).
  - reflexivity.
  - discriminate.
  - reflexivity.
  - reflexivity.
  - right; right; right; left; reflexivity.
Defined.

Lemma GetVfRepresentor_first_witness :
  eval (fixtureFs deviceTree) (GetVfRepresentor netSysDir "p0" 0)
  = Returned ("pf0vf0", None).
Proof.
  apply (GetVfRepresentor_first netSysDir (fixtureFs deviceTree) "p0" 0 "sw1"
           ["eth0"; "p0"] "pf0vf0" ["pf0vf1"]).
  - reflexivity.
  - discriminate.
  - reflexivity.
  - discriminate.
  - intros d [<-|[<-|[]]].
    + intros [H _]. vm_compute in H. discriminate H.
    + intros (_ & raw & pf & perr & Hraw & Hp & _). vm_compute in Hraw.
      injection Hraw as <-. vm_compute in Hp. discriminate Hp.
  - split; [reflexivity|]. exists "pf0vf0", 0, None.
    split; [reflexivity|]. split; [reflexivity|].
    right. exists "0000:03:00.0", "0"%char. repeat split.
Defined.

Lemma GetVfRepresentor_panics_only_on_empty_address_witness :
  "index out of range" = "index out of range"
  /\ fsPCIFromDeviceName (fixtureFs deviceTreeEmptyPCI) "p0" = ("", None).
Proof.
  exact (GetVfRepresentor_panics_only_on_empty_address netSysDir
           (fixtureFs deviceTreeEmptyPCI) "p0" 0 "index out of range" eq_refl).
Defined.

Lemma GetVfRepresentor_listing_error_witness :
  run (fixtureFs dpuTree) (GetVfRepresentor netSysDir "p0" 0)
  = (Returned ("", Some (FsError (errNotExist "open" "/sys/class/net/p0/subsystem"))),
     [CallReadFile "/sys/class/net/p0/phys_switch_id";
      CallReadDir "/sys/class/net/p0/subsystem"]).
Proof.
  apply (GetVfRepresentor_listing_error netSysDir (fixtureFs dpuTree) "p0" 0 "sw1" []).
  - reflexivity.
  - discriminate.
  - reflexivity.
Defined.

Lemma GetVfRepresentor_skips_undecodable_witness :
  exists raw,
    fsReadFile (fixtureFs deviceTree)
      (filepath.Join [netSysDir; "pf0vf0"; netdevPhysPortName]) = (raw, None)
    /\ succeeds (parsePortName (strings.TrimSpace raw)).
Proof.
  apply (GetVfRepresentor_skips_undecodable netSysDir (fixtureFs deviceTree) "p0" 0 "pf0vf0").
  - discriminate.
  - discriminate.
  - reflexivity.
Defined.

Section CallProperties.

Variables NetSysDir PciSysDir : string.
Variable fs : Filesystem.

Lemma trace_getPCIFromDeviceName (n : string) :
  trace fs (getPCIFromDeviceName n) = [CallPCIFromDeviceName n].
Proof. reflexivity. Qed.

Lemma vfRepresentorLoop_calls (uplink physSwitchID : string) (vfIndex : Z)
    (devices : list string) :
  forallb (isSiblingCall uplink)
    (trace fs (vfRepresentorLoop NetSysDir uplink physSwitchID vfIndex devices)) = true
  /\ (List.length (trace fs (vfRepresentorLoop NetSysDir uplink physSwitchID vfIndex devices))
      <= 3 * List.length devices)%nat.
Proof.
  induction devices as [|device devices [IH1 IH2]]; [split; [reflexivity | cbn; lia]|].
  cbn [vfRepresentorLoop]. cbv zeta.
  rewrite trace_bind, trace_ReadFile, eval_ReadFile.
  cbn [app forallb isSiblingCall andb List.length].
  destruct (fsReadFile fs _) as [deviceSwID [e|]]; cbn [isNil negb orb];
    [split; [exact IH1 | lia]|].
  destruct (String.eqb deviceSwID physSwitchID); cbn [negb]; [|split; [exact IH1 | lia]].
  rewrite trace_bind, trace_getNetDevPhysPortName, eval_getNetDevPhysPortName.
  cbn [app forallb isSiblingCall andb List.length].
  destruct (fsReadFile fs _) as [raw [e|]]; cbn [isNil negb]; [split; [exact IH1 | lia]|].
  destruct (parsePortName (strings.TrimSpace raw)) as [[pfRepIndex vfRepIndex] perr].
  destruct (pfRepIndex =? -1); cbn [negb].
  - destruct (vfRepIndex =? vfIndex); [split; [reflexivity | cbn; lia] | split; [exact IH1 | lia]].
  - rewrite trace_bind, trace_getPCIFromDeviceName, eval_getPCIFromDeviceName.
    cbn [app forallb isSiblingCall andb List.length]. rewrite String.eqb_refl. cbn [andb].
    destruct (fsPCIFromDeviceName fs uplink) as [pfPCIAddress [e|]]; cbn [isNil negb];
      [split; [exact IH1 | lia]|].
    destruct (lastByte pfPCIAddress) as [b|]; [|split; [reflexivity | cbn; lia]].
    destruct (strconv.Atoi (stringOfByte b)) as [PCIFuncAddress aerr].
    destruct (negb (pfRepIndex =? PCIFuncAddress) || negb (isNil aerr));
      [split; [exact IH1 | lia]|].
    destruct (vfRepIndex =? vfIndex); [split; [reflexivity | cbn; lia] | split; [exact IH1 | lia]].
Qed.

(** Property X14.  The calls of [GetVfRepresentor]: the reading of the uplink's
    switch identifier, then at most one listing, of the uplink's subsystem
    directory, then readings of files and PCI lookups of the uplink, at most
    three for each listed sibling. Nothing is statted and no other directory is
    listed. *)
Theorem GetVfRepresentor_calls (uplink : string) (vfIndex : Z) :
  let subsystem := filepath.Join [NetSysDir; uplink; "subsystem"] in
  exists rest,
    trace fs (GetVfRepresentor NetSysDir uplink vfIndex)
    = CallReadFile (filepath.Join [NetSysDir; uplink; netdevPhysSwitchID]) :: rest
    /\ (rest = []
        \/ exists rest',
            rest = CallReadDir subsystem :: rest'
            /\ forallb (isSiblingCall uplink) rest' = true
            /\ (List.length rest' <= 3 * List.length (fst (fsReadDir fs subsystem)))%nat).
Proof.
  intros subsystem. unfold GetVfRepresentor. cbv zeta.
  rewrite trace_bind, trace_ReadFile, eval_ReadFile. cbn [app].
  eexists. split; [reflexivity|].
  destruct (fsReadFile fs _) as [physSwitchID [e|]]; cbn [isNil negb orb]; [now left|].
  destruct (String.eqb physSwitchID ""); [now left|].
  right. rewrite trace_bind, trace_ReadDir, eval_ReadDir. cbn [app]. fold subsystem.
  eexists. split; [reflexivity|].
  destruct (fsReadDir fs subsystem) as [devices [e|]]; cbn [fst].
  - split; [reflexivity | cbn; lia].
  - apply vfRepresentorLoop_calls.
Qed.

Lemma uplinkLoop_calls (pciAddress : string) (devices : list string) :
  forallb isReadFileCall (trace fs (uplinkLoop NetSysDir pciAddress devices)) = true
  /\ (List.length (trace fs (uplinkLoop NetSysDir pciAddress devices))
      <= 2 * List.length devices)%nat.
Proof.
  induction devices as [|device devices [IH1 IH2]]; [split; [reflexivity | cbn; lia]|].
  cbn [uplinkLoop]. rewrite trace_bind, trace_isSwitchdev, eval_isSwitchdev.
  cbn [app forallb isReadFileCall andb List.length].
  destruct (switchdevCapable NetSysDir fs device); [|split; [exact IH1 | lia]].
  rewrite trace_bind, trace_getNetDevPhysPortName, eval_getNetDevPhysPortName.
  cbn [app forallb isReadFileCall andb List.length].
  destruct (fsReadFile fs _) as [raw [e|]]; cbn [isNil andb]; [split; [reflexivity | cbn; lia]|].
  destruct (negb _); [split; [exact IH1 | lia] | split; [reflexivity | cbn; lia]].
Qed.

(** Property X7.  The calls of [GetUplinkRepresentor]: one stat, of the [physfn]
    directory, one listing, of that directory or of the function's own, then
    readings of files only, at most two for each listed interface. *)
Theorem GetUplinkRepresentor_calls (pciAddress : string) :
  let physfn := filepath.Join [PciSysDir; pciAddress; "physfn"; "net"] in
  let own := filepath.Join [PciSysDir; pciAddress; "net"] in
  exists devicePath rest,
    (devicePath = physfn \/ devicePath = own)
    /\ trace fs (GetUplinkRepresentor NetSysDir PciSysDir pciAddress)
       = CallStat physfn :: CallReadDir devicePath :: rest
    /\ forallb isReadFileCall rest = true
    /\ (List.length rest <= 2 * List.length (fst (fsReadDir fs devicePath)))%nat.
Proof.
  intros physfn own. unfold GetUplinkRepresentor. cbv zeta.
  rewrite trace_bind, trace_Stat, eval_Stat. fold physfn own. cbn [app].
  rewrite trace_bind, trace_ReadDir, eval_ReadDir. cbn [app].
  eexists. eexists. split; [|split; [reflexivity|]].
  - destruct (fsStat fs physfn) as [e|]; [destruct (fsIsNotExist e)|]; auto.
  - destruct (fsReadDir fs _) as [devices [e|]]; cbn [fst].
    + split; [reflexivity | cbn; lia].
    + apply uplinkLoop_calls.
Qed.

(** Property X6.  [GetUplinkRepresentor] never panics. What it returns without
    error is an interface that is switchdev-capable and whose port name is
    unreadable or of the uplink shape; otherwise it returns the empty name and
    an error whose message names the PCI address. *)
Theorem GetUplinkRepresentor_result (pciAddress : string) :
  exists name err,
    eval fs (GetUplinkRepresentor NetSysDir PciSysDir pciAddress) = Returned (name, err)
    /\ ((err = None /\ uplinkCandidate NetSysDir fs name = true)
        \/ (name = "" /\ exists msg, err = Some (Errorf msg) /\ names msg pciAddress)).
Proof.
  unfold GetUplinkRepresentor. cbv zeta.
  rewrite eval_bind, eval_Stat, eval_bind, eval_ReadDir.
  destruct (fsReadDir fs _) as [devices [e|]].
  - eexists _, _. split; [reflexivity|]. right. split; [reflexivity|].
    eexists. split; [reflexivity|].
    exists "failed to lookup ", (": " ++ fsErrorText e). reflexivity.
  - rewrite uplinkLoop_find.
    destruct (find (uplinkCandidate NetSysDir fs) devices) as [d|] eqn:Ef.
    + eexists _, _. split; [reflexivity|]. left. split; [reflexivity|].
      now apply find_some in Ef.
    + eexists _, _. split; [reflexivity|]. right. split; [reflexivity|].
      eexists. split; [reflexivity|].
      exists "uplink for ", " not found". reflexivity.
Qed.

End CallProperties.

(** ** parsePortName and white space *)

Lemma startsClean_trimRunes (is2 : ascii -> ascii -> bool)
    (is3 : ascii -> ascii -> ascii -> bool) (s : string) :
  startsClean is2 is3 (strings.trimRunes is2 is3 s) = true.
Proof.
  assert (H : forall n s, (String.length s <= n)%nat ->
                          startsClean is2 is3 (strings.trimRunes is2 is3 s) = true).
  { clear s. induction n as [|n IH]; intros s Hlen.
    - destruct s; [reflexivity | simpl in Hlen; lia].
    - destruct s as [|c0 s1]; [reflexivity|].
      cbn [strings.trimRunes]. simpl in Hlen.
      destruct (strings.asciiSpace c0) eqn:H1; [apply IH; lia|].
      destruct s1 as [|c1 s2]; [cbn; now rewrite H1|]. simpl in Hlen.
      destruct (is2 c0 c1) eqn:H2; [apply IH; lia|].
      destruct s2 as [|c2 s3]; [cbn; now rewrite H1, H2|]. simpl in Hlen.
      destruct (is3 c0 c1 c2) eqn:H3; [apply IH; lia|].
      cbn. now rewrite H1, H2, H3. }
  apply (H (String.length s)). lia.
Qed.

Lemma trimRunes_clean (is2 : ascii -> ascii -> bool)
    (is3 : ascii -> ascii -> ascii -> bool) (s : string) :
  startsClean is2 is3 s = true -> strings.trimRunes is2 is3 s = s.
Proof.
  destruct s as [|c0 s1]; [reflexivity|]. cbn [startsClean strings.trimRunes].
  intros H. apply andb_prop in H as [H1 H]. apply negb_true_iff in H1. rewrite H1.
  destruct s1 as [|c1 s2]; [reflexivity|].
  apply andb_prop in H as [H2 H]. apply negb_true_iff in H2. rewrite H2.
  destruct s2 as [|c2 s3]; [reflexivity|].
  apply negb_true_iff in H. now rewrite H.
Qed.

(** The first byte of a run of white space. *)
Lemma whiteSpace_first_byte (w : string) :
  whiteSpace w ->
  w = ""
  \/ exists c w', w = String c w'
                  /\ (strings.asciiSpace c = true
                      \/ byteOf c = 194 \/ byteOf c = 225 \/ byteOf c = 226
                      \/ byteOf c = 227).
Proof.
  intros H. induction H as [|r s Hr Hs IH]; [now left|].
  unfold whiteSpaceRunes in Hr. cbn [In] in Hr.
  repeat destruct Hr as [Hr|Hr]; try contradiction; subst r; right;
    eexists _, _; (split; [reflexivity|]);
    first [ left; reflexivity | right; left; reflexivity
          | right; right; left; reflexivity
          | right; right; right; left; reflexivity
          | right; right; right; right; reflexivity ].
Qed.

Lemma whiteSpace_first_not_continuation (c c0 c1 : ascii) :
  strings.asciiSpace c = true
  \/ byteOf c = 194 \/ byteOf c = 225 \/ byteOf c = 226 \/ byteOf c = 227 ->
  strings.isSpace2 c0 c = false
  /\ strings.isSpace3 c0 c c1 = false
  /\ strings.isSpace3 c0 c1 c = false.
Proof.
  intros H.
  assert (Hb : byteOf c < 128 \/ 194 <= byteOf c).
  { destruct H as [H|H]; [|lia]. left.
    unfold strings.asciiSpace in H. cbv zeta in H.
    rewrite !orb_true_iff, !Z.eqb_eq in H. lia. }
  unfold strings.isSpace2, strings.isSpace3. cbv zeta.
  repeat split.
  - apply andb_false_intro2. apply orb_false_intro; apply Z.eqb_neq; lia.
  - replace (byteOf c =? 154) with false by (symmetry; apply Z.eqb_neq; lia).
    replace (byteOf c =? 128) with false by (symmetry; apply Z.eqb_neq; lia).
    replace (byteOf c =? 129) with false by (symmetry; apply Z.eqb_neq; lia).
    rewrite !andb_false_r. reflexivity.
  - replace (byteOf c =? 128) with false by (symmetry; apply Z.eqb_neq; lia).
    replace (byteOf c =? 159) with false by (symmetry; apply Z.eqb_neq; lia).
    replace (byteOf c =? 168) with false by (symmetry; apply Z.eqb_neq; lia).
    replace (byteOf c =? 169) with false by (symmetry; apply Z.eqb_neq; lia).
    replace (byteOf c =? 175) with false by (symmetry; apply Z.eqb_neq; lia).
    replace ((128 <=? byteOf c) && (byteOf c <=? 138)) with false
      by (symmetry; apply andb_false_iff;
          destruct Hb; [left; apply Z.leb_gt; lia | right; apply Z.leb_gt; lia]).
    rewrite !andb_false_r. reflexivity.
Qed.

(** White space after a text that does not start on white space does not
    make it start on white space. *)
Lemma startsClean_app_whiteSpace (t w : string) :
  t <> "" -> whiteSpace w ->
  startsClean strings.isSpace2 strings.isSpace3 t = true ->
  startsClean strings.isSpace2 strings.isSpace3 (t ++ w) = true.
Proof.
  intros Ht Hw Hc.
  destruct (whiteSpace_first_byte w Hw) as [->|(c & w' & -> & Hfirst)];
    [now rewrite append_nil_r|].
  destruct t as [|c0 t1]; [now elim Ht|].
  cbn [startsClean] in Hc. apply andb_prop in Hc as [H1 Hc].
  destruct t1 as [|c1 t2].
  - cbn [append startsClean]. rewrite H1. cbn [andb].
    destruct (whiteSpace_first_not_continuation c c0 c0 Hfirst) as (E2 & _ & _).
    rewrite E2. cbn [negb andb].
    destruct w' as [|c2 w'']; [reflexivity|].
    destruct (whiteSpace_first_not_continuation c c0 c2 Hfirst) as (_ & E3 & _).
    now rewrite E3.
  - apply andb_prop in Hc as [H2 Hc].
    destruct t2 as [|c2 t3].
    + cbn [append startsClean]. rewrite H1, H2. cbn [andb].
      destruct (whiteSpace_first_not_continuation c c0 c1 Hfirst) as (_ & _ & E3).
      now rewrite E3.
    + cbn [append startsClean]. rewrite H1, H2. exact Hc.
Qed.

(** [TrimSpace] removes the white space around a text, whatever the text. *)
Lemma TrimSpace_whiteSpace (w1 w2 s : string) :
  whiteSpace w1 -> whiteSpace w2 ->
  strings.TrimSpace (w1 ++ s ++ w2) = strings.TrimSpace s.
Proof.
  intros H1 H2. unfold strings.TrimSpace.
  rewrite trimLeftSpace_whiteSpace by exact H1.
  destruct (trimLeftSpace_decompose s) as (a & Ha & Es).
  remember (strings.trimLeftSpace s) as t eqn:Et.
  assert (Hclean : startsClean strings.isSpace2 strings.isSpace3 t = true)
    by (subst t; apply startsClean_trimRunes).
  rewrite Es at 1. rewrite append_assoc, trimLeftSpace_whiteSpace by exact Ha.
  destruct t as [|c0 t'].
  - cbn [append].
    rewrite <- (append_nil_r w2), trimLeftSpace_whiteSpace by exact H2. reflexivity.
  - unfold strings.trimLeftSpace at 1.
    rewrite trimRunes_clean
      by (apply startsClean_app_whiteSpace; [discriminate | exact H2 | exact Hclean]).
    unfold strings.trimRightSpace.
    now rewrite string_rev_append, trimRunesRev_whiteSpace by exact H2.
Qed.

Lemma TrimSpace_idempotent (s : string) :
  strings.TrimSpace (strings.TrimSpace s) = strings.TrimSpace s.
Proof.
  destruct (TrimSpace_decompose s) as (w1 & w2 & H1 & H2 & E).
  rewrite E at 2. now rewrite TrimSpace_whiteSpace.
Qed.

(** Property X1.  [parsePortName] ignores the white space around its argument:
    surrounded by any white space, a name decodes as the name alone does, to the
    same indices and the same error. *)
Theorem parsePortName_ignores_whiteSpace (w1 w2 s : string) :
  whiteSpace w1 -> whiteSpace w2 ->
  parsePortName (w1 ++ s ++ w2) = parsePortName s.
Proof.
  intros H1 H2. unfold parsePortName. cbv zeta.
  now rewrite (TrimSpace_whiteSpace w1 w2 s H1 H2).
Qed.

Lemma parsePortName_ignores_whiteSpace_witness :
  parsePortName (String "009" "" ++ "pf1" ++ String "010" "") = parsePortName "pf1".
Proof.
  apply (parsePortName_ignores_whiteSpace (String "009" "") (String "010" "") "pf1").
  - apply whiteSpace_single. unfold whiteSpaceRunes. cbn [In]. left. reflexivity.
  - apply whiteSpace_single. unfold whiteSpaceRunes. cbn [In]. right. left. reflexivity.
Defined.

(** Property X5.  The port name [getNetDevPhysPortName] returns is trimmed
    already, and decodes as the content of the attribute file does. *)
Theorem getNetDevPhysPortName_trimmed (NetSysDir : string) (fs : Filesystem)
    (netDev portName : string) :
  eval fs (getNetDevPhysPortName NetSysDir netDev) = Returned (portName, None) ->
  strings.TrimSpace portName = portName
  /\ parsePortName portName
     = parsePortName (fst (fsReadFile fs (filepath.Join [NetSysDir; netDev; netdevPhysPortName]))).
Proof.
  rewrite eval_getNetDevPhysPortName.
  destruct (fsReadFile fs _) as [raw [e|]]; [discriminate|].
  intros H. injection H as <-. cbn [fst]. split.
  - apply TrimSpace_idempotent.
  - unfold parsePortName. cbv zeta. now rewrite TrimSpace_idempotent.
Qed.

Lemma getNetDevPhysPortName_trimmed_witness :
  strings.TrimSpace "p0" = "p0"
  /\ parsePortName "p0"
     = parsePortName
         (fst (fsReadFile (fixtureFs deviceTree)
                 (filepath.Join [netSysDir; "p0"; netdevPhysPortName]))).
Proof.
  exact (getNetDevPhysPortName_trimmed netSysDir (fixtureFs deviceTree) "p0" "p0" eq_refl).
Defined.

(** ** The failures of parsePortName *)

Lemma Atoi_numeral_range_error (s : string) (v : Z) (e : error) :
  isNumeral s = true -> strconv.Atoi s = (v, Some e) ->
  v = MaxInt /\ e = NumError "Atoi" s ErrRange.
Proof.
  intros Hn. destruct (isNumeral_cons s Hn) as (c & s' & -> & Hc & Hs).
  assert (Hp : Ascii.eqb c "+" = false).
  { apply Ascii.eqb_neq. intros ->. discriminate. }
  assert (Hm : Ascii.eqb c "-" = false).
  { apply Ascii.eqb_neq. intros ->. discriminate. }
  unfold strconv.Atoi, strconv.ParseInt. rewrite Hp, Hm. cbn [orb negb andb].
  change (2 ^ (strconv.IntSize - 1)) with 9223372036854775808.
  change MaxInt with 9223372036854775807.
  destruct (ParseUint_cases (String c s')) as [(_ & _ & Hr)|[(Hr & _)|(_ & Hr)]].
  - rewrite Hr.
    destruct (decimalValue (String c s') >=? 9223372036854775808); intros H;
      [injection H as <- <-; auto | discriminate].
  - rewrite Hr. cbn. intros H. injection H as <- <-. auto.
  - congruence.
Qed.

(** Property X2.  The three ways [parsePortName] fails. The name has none of the
    shapes: both indices are -1 and the message names the trimmed name. The
    first digit group of a modern name is beyond [int]: the PF index is the
    largest [int] and the VF index is -1. The second group is: the PF index is
    decoded and the VF index is the largest [int]. *)
Theorem parsePortName_failure_modes (s : string) (pfIndex vfIndex : Z) (e : error) :
  parsePortName s = (pfIndex, vfIndex, Some e) ->
  (pfIndex = -1 /\ vfIndex = -1
   /\ e = Errorf ("failed to parse physPortName " ++ strings.TrimSpace s))
  \/ (exists pf vf,
        modernShape (strings.TrimSpace s) pf vf
        /\ pfIndex = MaxInt /\ vfIndex = -1 /\ e = NumError "Atoi" pf ErrRange)
  \/ (exists pf vf,
        modernShape (strings.TrimSpace s) pf vf
        /\ pfIndex = decimalValue pf /\ 0 <= pfIndex <= MaxInt
        /\ vfIndex = MaxInt /\ e = NumError "Atoi" vf ErrRange).
Proof.
  intros Hp.
  destruct (ParseInt_spec (strings.TrimSpace s)) as [(Hl & Hr & _)|(Hn & _)].
  - rewrite (parsePortName_literal s Hl Hr) in Hp. discriminate.
  - destruct (modernShape_dec (strings.TrimSpace s)) as [(pf & vf & Hs)|Hno].
    + rewrite (parsePortName_shape s pf vf Hs) in Hp.
      pose proof Hs as (c & _ & Hpf & Hvf & _).
      destruct (strconv.Atoi pf) as [p [ep|]] eqn:Ep; cbn [isNil] in Hp.
      * injection Hp as <- <- <-. right; left. exists pf, vf.
        destruct (Atoi_numeral_range_error pf p ep Hpf Ep) as [-> ->]. auto.
      * destruct (strconv.Atoi vf) as [v ev] eqn:Ev.
        injection Hp as <- <- ->. right; right. exists pf, vf.
        destruct (Atoi_numeral_range_error vf v e Hvf Ev) as [-> ->].
        destruct (Atoi_numeral_inv pf p Hpf Ep) as [-> Hrange]. auto.
    + rewrite (parsePortName_nomatch s Hn Hno) in Hp. injection Hp as <- <- <-.
      left. auto.
Qed.

Lemma parsePortName_failure_modes_witness :
  (1 = -1 /\ MaxInt = -1
   /\ NumError "Atoi" "99999999999999999999" ErrRange
      = Errorf ("failed to parse physPortName "
                ++ strings.TrimSpace "pf1vf99999999999999999999"))
  \/ (exists pf vf,
        modernShape (strings.TrimSpace "pf1vf99999999999999999999") pf vf
        /\ 1 = MaxInt /\ MaxInt = -1
        /\ NumError "Atoi" "99999999999999999999" ErrRange = NumError "Atoi" pf ErrRange)
  \/ (exists pf vf,
        modernShape (strings.TrimSpace "pf1vf99999999999999999999") pf vf
        /\ 1 = decimalValue pf /\ 0 <= 1 <= MaxInt
        /\ MaxInt = MaxInt
        /\ NumError "Atoi" "99999999999999999999" ErrRange = NumError "Atoi" vf ErrRange).
Proof.
  apply (parsePortName_failure_modes "pf1vf99999999999999999999" 1 MaxInt
           (NumError "Atoi" "99999999999999999999" ErrRange)).
  vm_compute. reflexivity.
Defined.

(** ** The three expressions *)

Lemma pfBody_complete (n : string) (p : nat) (cs : list (nat * string)) :
  isNumeral n = true ->
  step (Str "pf" (Cat (Group 1 (Plus Digit)) EndText)) (mkState p ("pf" ++ n) cs)
  = [mkState (S (S p) + String.length n) "" ((1%nat, n) :: cs)].
Proof.
  intros Hn. cbn [Str].
  change ("pf" ++ n) with (String "p" (String "f" n)).
  rewrite !step_Lit_cons.
  rewrite <- (append_nil_r n) at 1.
  rewrite step_GroupDigits_run;
    [ reflexivity | exact Hn | reflexivity
    | intros st Hst; now apply step_EndText_digit ].
Qed.

Lemma pfBody_sound (st st' : mstate) :
  In st' (step (Str "pf" (Cat (Group 1 (Plus Digit)) EndText)) st) ->
  exists n, isNumeral n = true /\ rest st = "pf" ++ n.
Proof.
  cbn [Str]. intros H.
  rewrite step_Cat in H. apply in_flat_map in H as (m1 & H1 & H).
  apply step_Lit_inv in H1 as [R1 E1].
  rewrite step_Cat in H. apply in_flat_map in H as (m2 & H2 & H).
  apply step_Lit_inv in H2 as [R2 E2].
  rewrite step_Cat in H. apply in_flat_map in H as (m3 & H3 & H).
  apply step_GroupDigits_sound in H3 as (n & Hn & R3 & _).
  cbn [step] in H. destruct (rest m3) eqn:R4; [|destruct H].
  exists n. split; [exact Hn|]. rewrite R1, R2, R3, append_nil_r. reflexivity.
Qed.

(** The expression of the PF representor names matches the names of the
    shape [^(?:c<digits>)?pf<digits>$], and no other. *)
Lemma pfPortRepRegex_spec (s : string) :
  MatchString pfPortRepRegex s = true <-> pfShape s.
Proof.
  unfold MatchString, pfPortRepRegex. rewrite findFrom_anchored_0, step_Quest_Cat.
  split.
  - match goal with |- context [match ?l with [] => None | _ => _ end] =>
      destruct l as [|st' l'] eqn:El end; [discriminate|].
    intros _.
    assert (Hin : In st' (st' :: l')) by (left; reflexivity).
    rewrite <- El in Hin. apply in_app_or in Hin as [Hin|Hin].
    + cbn [Str] in Hin. rewrite step_Cat_assoc, step_Cat in Hin.
      apply in_flat_map in Hin as (m1 & H1 & Hin).
      apply step_Lit_inv in H1 as [R1 E1].
      rewrite step_Cat in Hin. apply in_flat_map in Hin as (m2 & H2 & Hin).
      cbn [step] in H2.
      apply many_Digit_sound in H2 as (c & Hc & R2 & _).
      apply pfBody_sound in Hin as (n & Hn & R3).
      exists ("c" ++ c), n. repeat split; auto.
      * right. eauto.
      * cbn [rest] in R1. rewrite R1, R2, R3. reflexivity.
    + apply pfBody_sound in Hin as (n & Hn & R3).
      exists "", n. repeat split; auto. now left.
  - intros (c & n & Hc & Hn & ->). destruct Hc as [->|(m & Hm & ->)].
    + cbn [Str append]. rewrite step_Cat_assoc.
      rewrite (step_Lit_other "c" "p") by (intros E; discriminate E). cbn [app].
      change (String "p" (String "f" n)) with ("pf" ++ n).
      change (Cat (Lit "p") (Cat (Lit "f") (Cat (Group 1 (Plus Digit)) EndText)))
        with (Str "pf" (Cat (Group 1 (Plus Digit)) EndText)).
      now rewrite pfBody_complete.
    + cbn [Str]. rewrite step_Cat_assoc.
      change (("c" ++ m) ++ "pf" ++ n) with (String "c" (m ++ "pf" ++ n)).
      rewrite step_Lit_cons.
      rewrite step_PlusDigit_run;
        [ | exact Hm | reflexivity | intros st Hst; now apply step_Lit_digit ].
      change (Cat (Lit "p") (Cat (Lit "f") (Cat (Group 1 (Plus Digit)) EndText)))
        with (Str "pf" (Cat (Group 1 (Plus Digit)) EndText)).
      now rewrite pfBody_complete.
Qed.

Lemma numeral_not_letter (n : string) (c : ascii) (x : string) :
  isNumeral n = true -> isDigit c = false -> n <> String c x.
Proof.
  intros Hn Hc ->. cbn in Hn. rewrite Hc in Hn. discriminate.
Qed.

Lemma modernShape_inv (s pf vf : string) :
  modernShape s pf vf ->
  exists c, controllerPrefix c /\ isNumeral pf = true /\ isNumeral vf = true
            /\ s = c ++ "pf" ++ pf ++ "vf" ++ vf.
Proof. intros H. exact H. Qed.

Lemma digit_run_unique (a a' r r' : string) :
  allDigits a = true -> allDigits a' = true ->
  startsWithDigit r = false -> startsWithDigit r' = false ->
  a ++ r = a' ++ r' -> a = a' /\ r = r'.
Proof.
  revert a'. induction a as [|d a IH]; intros a' Ha Ha' Hr Hr' E.
  - destruct a' as [|d' a']; [auto|].
    cbn [append] in E. subst r. cbn [allDigits] in Ha'.
    apply andb_prop in Ha' as [Hd _]. cbn in Hr. congruence.
  - destruct a' as [|d' a'].
    + cbn [append] in E. subst r'. cbn [allDigits] in Ha.
      apply andb_prop in Ha as [Hd _]. cbn in Hr'. congruence.
    + cbn [append] in E. injection E as <- E.
      cbn [allDigits] in Ha, Ha'.
      apply andb_prop in Ha as [_ Ha]. apply andb_prop in Ha' as [_ Ha'].
      destruct (IH a' Ha Ha' Hr Hr' E) as [-> ->]. auto.
Qed.

(** A PF representor name has not the shape of a VF representor name. *)
Lemma pfShape_not_modern (s pf vf : string) : pfShape s -> ~ modernShape s pf vf.
Proof.
  intros (c & n & Hc & Hn & ->) (c' & Hc' & Hpf & Hvf & E).
  assert (Hbody : forall x y, "pf" ++ x = "pf" ++ y -> x = y)
    by (intros x y H; now injection H).
  assert (Hfin : n ++ "" = pf ++ "vf" ++ vf -> False).
  { intros H.
    destruct (digit_run_unique n pf "" ("vf" ++ vf)
                (isNumeral_allDigits _ Hn) (isNumeral_allDigits _ Hpf)
                eq_refl eq_refl H) as [_ Habs].
    discriminate. }
  destruct Hc as [->|(m & Hm & ->)]; destruct Hc' as [->|(m' & Hm' & ->)].
  - apply Hbody in E. apply Hfin. now rewrite append_nil_r.
  - discriminate.
  - discriminate.
  - cbn [append] in E. injection E as E.
    destruct (digit_run_unique m m' ("pf" ++ n) ("pf" ++ pf ++ "vf" ++ vf)
                (isNumeral_allDigits _ Hm) (isNumeral_allDigits _ Hm')
                eq_refl eq_refl E) as [_ E'].
    apply Hbody in E'. apply Hfin. now rewrite append_nil_r.
Qed.

Lemma uplinkShape_not_modern (s pf vf : string) : uplinkShape s -> ~ modernShape s pf vf.
Proof.
  intros (n & Hn & ->) (c & Hc & _ & _ & E).
  destruct Hc as [->|(m & _ & ->)]; [|discriminate].
  cbn [append] in E. injection E as E.
  now apply (numeral_not_letter n "f" _ Hn eq_refl) in E.
Qed.

Lemma uplinkShape_not_pf (s : string) : uplinkShape s -> ~ pfShape s.
Proof.
  intros (n & Hn & ->) (c & m & Hc & _ & E).
  destruct Hc as [->|(k & _ & ->)]; [|discriminate].
  cbn [append] in E. injection E as E.
  now apply (numeral_not_letter n "f" _ Hn eq_refl) in E.
Qed.

Lemma TrimSpace_self (c : ascii) (m x n : string) :
  byteOf c < 128 -> strings.asciiSpace c = false ->
  String c m = x ++ n -> isNumeral n = true ->
  strings.TrimSpace (String c m) = String c m.
Proof.
  intros H1 H2 E Hn.
  destruct (string_rev_numeral x n Hn) as (c' & m' & Hrev & Hc').
  rewrite <- E in Hrev. apply isDigit_solid in Hc' as [Hc1' Hc2'].
  pose proof (TrimSpace_core "" "" c m c' m' whiteSpace_nil whiteSpace_nil
                H1 H2 Hrev Hc1' Hc2') as Et.
  rewrite append_nil_r in Et. exact Et.
Qed.

Lemma physPortRepRegex_shape (s : string) :
  MatchString physPortRepRegex s = true <-> uplinkShape s.
Proof. rewrite physPortRepRegex_spec. apply isUplinkShape_spec. Qed.

(** Property X4.  The three expressions of the package are pairwise exclusive: a
    name is matched by at most one of them. *)
Theorem port_name_expressions_exclusive (s : string) :
  (MatchString physPortRepRegex s = true ->
   MatchString pfPortRepRegex s = false /\ FindStringSubmatch vfPortRepRegex s = [])
  /\ (MatchString pfPortRepRegex s = true ->
      MatchString physPortRepRegex s = false /\ FindStringSubmatch vfPortRepRegex s = [])
  /\ (FindStringSubmatch vfPortRepRegex s <> [] ->
      MatchString physPortRepRegex s = false /\ MatchString pfPortRepRegex s = false).
Proof.
  split; [|split].
  - intros H. apply physPortRepRegex_shape in H. split.
    + destruct (MatchString pfPortRepRegex s) eqn:E; [|reflexivity].
      apply pfPortRepRegex_spec in E. now elim (uplinkShape_not_pf s H).
    + apply vfPortRepRegex_nomatch. intros pf vf. now apply uplinkShape_not_modern.
  - intros H. apply pfPortRepRegex_spec in H. split.
    + destruct (MatchString physPortRepRegex s) eqn:E; [|reflexivity].
      apply physPortRepRegex_shape in E. now elim (uplinkShape_not_pf s E).
    + apply vfPortRepRegex_nomatch. intros pf vf. now apply pfShape_not_modern.
  - intros H. destruct (vfPortRepRegex_sound s H) as (pf & vf & Hs & _). split.
    + destruct (MatchString physPortRepRegex s) eqn:E; [|reflexivity].
      apply physPortRepRegex_shape in E. now elim (uplinkShape_not_modern s pf vf E).
    + destruct (MatchString pfPortRepRegex s) eqn:E; [|reflexivity].
      apply pfPortRepRegex_spec in E. now elim (pfShape_not_modern s pf vf E).
Qed.

(** Property X3.  The name of an uplink or of a PF representor never decodes:
    [parsePortName] returns -1 for both indices and the parse error. *)
Theorem parsePortName_rejects_uplink_and_pf (s : string) :
  MatchString physPortRepRegex s = true \/ MatchString pfPortRepRegex s = true ->
  parsePortName s = (-1, -1, Some (Errorf ("failed to parse physPortName " ++ s))).
Proof.
  intros H.
  assert (Hshape : uplinkShape s \/ pfShape s).
  { destruct H as [H|H]; [left | right].
    - rewrite physPortRepRegex_spec in H. now apply isUplinkShape_spec.
    - now apply pfPortRepRegex_spec. }
  assert (Et : strings.TrimSpace s = s /\ isIntLiteral s = false).
  { destruct Hshape as [(n & Hn & ->)|(c & n & [->|(m & Hm & ->)] & Hn & ->)].
    - split; [|reflexivity]. apply (TrimSpace_self "p" n "p" n); auto; reflexivity.
    - split; [|reflexivity].
      apply (TrimSpace_self "p" ("f" ++ n) "pf" n); auto; reflexivity.
    - split; [|reflexivity].
      apply (TrimSpace_self "c" (m ++ "pf" ++ n) ("c" ++ m ++ "pf") n); auto;
        try reflexivity.
      cbn [append]. now rewrite !append_assoc. }
  destruct Et as [Et Hl].
  rewrite parsePortName_nomatch; rewrite Et.
  - reflexivity.
  - intros [Hlit _]. congruence.
  - intros pf vf. destruct Hshape as [Hu|Hp];
      [now apply uplinkShape_not_modern | now apply pfShape_not_modern].
Qed.

Lemma parsePortName_rejects_uplink_and_pf_witness :
  parsePortName "c1pf0" = (-1, -1, Some (Errorf ("failed to parse physPortName " ++ "c1pf0"))).
Proof.
  apply (parsePortName_rejects_uplink_and_pf "c1pf0"). right. reflexivity.
Defined.

(** ** The DPU stubs *)

(** Property X18.  [GetVfRepresentorDPU] succeeds exactly on the decimal writing
    of a VF index from 0 to 7, with the name [enP2p15s0v<index+1>], whatever the
    PF identifier; on anything else it returns the empty name and an error whose
    message names the PF identifier. *)
Theorem GetVfRepresentorDPU_table (pfID vfIndex : string) :
  (forall name,
      GetVfRepresentorDPU pfID vfIndex = (name, None) <->
      exists d, 0 <= d <= 7 /\ vfIndex = strconv.Itoa d
                /\ name = "enP2p15s0v" ++ strconv.Itoa (d + 1))
  /\ (forall name e,
        GetVfRepresentorDPU pfID vfIndex = (name, Some e) ->
        name = ""
        /\ e = Errorf ("naftaly: unexpected pfID(" ++ pfID ++ "). It should be 0 or 1")
        /\ names ("naftaly: unexpected pfID(" ++ pfID ++ "). It should be 0 or 1") pfID).
Proof.
  split.
  - intros name. split.
    + unfold GetVfRepresentorDPU.
      repeat match goal with
             | |- context [String.eqb vfIndex ?k] =>
                 let E := fresh "E" in
                 destruct (String.eqb vfIndex k) eqn:E;
                 [ apply String.eqb_eq in E; subst vfIndex; intros H; injection H as <-
                 | ]
             end.
      * exists 0. repeat split; lia.
      * exists 1. repeat split; lia.
      * exists 2. repeat split; lia.
      * exists 3. repeat split; lia.
      * exists 4. repeat split; lia.
      * exists 5. repeat split; lia.
      * exists 6. repeat split; lia.
      * exists 7. repeat split; lia.
      * discriminate.
    + intros (d & Hd & -> & ->).
      assert (Hc : d = 0 \/ d = 1 \/ d = 2 \/ d = 3 \/ d = 4 \/ d = 5 \/ d = 6 \/ d = 7)
        by lia.
      repeat destruct Hc as [Hc|Hc]; subst d; reflexivity.
  - intros name e. unfold GetVfRepresentorDPU.
    repeat match goal with
           | |- context [String.eqb vfIndex ?k] =>
               destruct (String.eqb vfIndex k); [discriminate|]
           end.
    intros H. injection H as <- <-. repeat split.
    exists "naftaly: unexpected pfID(", "). It should be 0 or 1". reflexivity.
Qed.

(** Property X19.  No name that [GetVfRepresentorDPU] returns is given a flavour
    by [GetRepresentorPortFlavour]: every one of them is reported as unknown,
    without an error. *)
Theorem GetVfRepresentorDPU_flavour_unknown (pfID vfIndex name : string) :
  GetVfRepresentorDPU pfID vfIndex = (name, None) ->
  GetRepresentorPortFlavour name = (PORT_FLAVOUR_UNKNOWN, None).
Proof.
  unfold GetVfRepresentorDPU.
  repeat match goal with
         | |- context [String.eqb vfIndex ?k] =>
             destruct (String.eqb vfIndex k);
             [intros H; injection H as <-; reflexivity|]
         end.
  discriminate.
Qed.

Lemma GetVfRepresentorDPU_flavour_unknown_witness :
  GetRepresentorPortFlavour "enP2p15s0v4" = (PORT_FLAVOUR_UNKNOWN, None).
Proof.
  exact (GetVfRepresentorDPU_flavour_unknown "0" "3" "enP2p15s0v4" eq_refl).
Defined.

(** ** parseDPUConfigFileOutput *)

Lemma occurs_append (c : ascii) (a b : string) :
  occurs c (a ++ b) = occurs c a || occurs c b.
Proof.
  induction a as [|x a IH]; cbn [append occurs]; [reflexivity|].
  now rewrite IH, orb_assoc.
Qed.

Lemma Split_nonempty (s : string) (sep : ascii) : exists h t, Split s sep = h :: t.
Proof.
  destruct s as [|c s]; cbn [Split]; [eauto|].
  destruct (Ascii.eqb c sep); [eauto|]. destruct (Split s sep); eauto.
Qed.

Lemma Split_app_sep (a b : string) (sep : ascii) :
  Split (a ++ String sep b) sep = (Split a sep ++ Split b sep)%list.
Proof.
  induction a as [|c a IH]; cbn [append Split].
  - now rewrite Ascii.eqb_refl.
  - rewrite IH. destruct (Ascii.eqb c sep); [reflexivity|].
    destruct (Split_nonempty a sep) as (h & t & ->). reflexivity.
Qed.

Lemma Split_nosep (s : string) (sep : ascii) :
  occurs sep s = false -> Split s sep = [s].
Proof.
  induction s as [|c s IH]; cbn [occurs Split]; [reflexivity|].
  intros H. apply orb_false_elim in H as [H1 H2].
  rewrite Ascii.eqb_sym, H1, (IH H2). reflexivity.
Qed.

Lemma Split_lines (s line : string) (sep : ascii) :
  In line (Split s sep) ->
  occurs sep line = false /\ forall c, occurs c line = true -> occurs c s = true.
Proof.
  revert line. induction s as [|c s IH]; intros line; cbn [Split].
  - intros [<-|[]]. auto.
  - destruct (Ascii.eqb c sep) eqn:E.
    + intros [<-|H]; [split; [reflexivity | discriminate]|].
      destruct (IH line H) as [H1 H2]. split; [exact H1|].
      intros c' Hc'. cbn [occurs]. rewrite (H2 c' Hc'). apply orb_true_r.
    + destruct (Split_nonempty s sep) as (h & t & Es). rewrite Es in *.
      intros [<-|H].
      * destruct (IH h (or_introl eq_refl)) as [H1 H2]. split.
        -- cbn [occurs]. rewrite Ascii.eqb_sym, E, H1. reflexivity.
        -- intros c' Hc'. cbn [occurs] in *.
           apply orb_true_iff in Hc' as [Hc'|Hc']; [now rewrite Hc'|].
           rewrite (H2 c' Hc'). apply orb_true_r.
      * destruct (IH line (or_intror H)) as [H1 H2]. split; [exact H1|].
        intros c' Hc'. cbn [occurs]. rewrite (H2 c' Hc'). apply orb_true_r.
Qed.

Lemma SplitN_2_nosep (s : string) (sep : ascii) :
  occurs sep s = false -> SplitN s sep 2 = [s].
Proof.
  induction s as [|c s IH]; cbn [occurs SplitN]; [reflexivity|].
  intros H. apply orb_false_elim in H as [H1 H2].
  rewrite Ascii.eqb_sym, H1, (IH H2). reflexivity.
Qed.

Lemma SplitN_1 (s : string) (sep : ascii) : SplitN s sep 1 = [s].
Proof. destruct s; reflexivity. Qed.

Lemma SplitN_2_sep (k v : string) (sep : ascii) :
  occurs sep k = false -> SplitN (k ++ String sep v) sep 2 = [k; v].
Proof.
  induction k as [|c k IH]; cbn [occurs append SplitN].
  - intros _. now rewrite Ascii.eqb_refl, SplitN_1.
  - intros H. apply orb_false_elim in H as [H1 H2].
    rewrite Ascii.eqb_sym, H1, (IH H2). reflexivity.
Qed.

(** What [SplitN] in two gives: the line itself when it has no separator,
    what is before and what is after the first separator when it has one. *)
Lemma SplitN_2_cases (s : string) (sep : ascii) :
  (occurs sep s = false /\ SplitN s sep 2 = [s])
  \/ exists k v, occurs sep k = false /\ s = k ++ String sep v /\ SplitN s sep 2 = [k; v].
Proof.
  induction s as [|c s IH].
  - left. split; reflexivity.
  - destruct (Ascii.eqb c sep) eqn:E.
    + right. apply Ascii.eqb_eq in E. subst c. exists "", s.
      repeat split. cbn [SplitN]. now rewrite Ascii.eqb_refl, SplitN_1.
    + destruct IH as [[H1 H2]|(k & v & H1 & -> & H2)].
      * left. split; [cbn [occurs]; now rewrite Ascii.eqb_sym, E, H1|].
        apply SplitN_2_nosep. cbn [occurs]. now rewrite Ascii.eqb_sym, E, H1.
      * right. exists (String c k), v. repeat split.
        -- cbn [occurs]. now rewrite Ascii.eqb_sym, E, H1.
        -- apply (SplitN_2_sep (String c k) v sep).
           cbn [occurs]. now rewrite Ascii.eqb_sym, E, H1.
Qed.

Lemma substring_append_suffix (a b : string) :
  substring (String.length a) (String.length b) (a ++ b) = b.
Proof.
  induction a as [|c a IH]; cbn [String.length append substring]; [|exact IH].
  rewrite <- (append_nil_r b) at 2. apply substring_append_prefix.
Qed.

Lemma substring_split (n : nat) (s : string) :
  (n <= String.length s)%nat ->
  s = substring 0 n s ++ substring n (String.length s - n) s.
Proof.
  revert s. induction n as [|n IH]; intros s Hn.
  - cbn [Nat.sub]. rewrite Nat.sub_0_r.
    replace (substring 0 0 s) with "" by (destruct s; reflexivity).
    cbn [append]. symmetry. rewrite <- (append_nil_r s) at 2.
    apply substring_append_prefix.
  - destruct s as [|c s]; [simpl in Hn; lia|].
    cbn [String.length substring append Nat.sub]. f_equal. apply IH.
    simpl in Hn. lia.
Qed.

Lemma HasSuffix_append (s suffix : string) : HasSuffix (s ++ suffix) suffix = true.
Proof.
  unfold HasSuffix. rewrite length_append. apply andb_true_intro. split.
  - apply Nat.leb_le. lia.
  - replace (String.length s + String.length suffix - String.length suffix)%nat
      with (String.length s) by lia.
    rewrite substring_append_suffix. apply String.eqb_refl.
Qed.

Lemma TrimSuffix_append (s suffix : string) : TrimSuffix (s ++ suffix) suffix = s.
Proof.
  unfold TrimSuffix. rewrite HasSuffix_append, length_append.
  replace (String.length s + String.length suffix - String.length suffix)%nat
    with (String.length s) by lia.
  apply substring_append_prefix.
Qed.

Lemma HasSuffix_inv (s suffix : string) :
  HasSuffix s suffix = true -> s = TrimSuffix s suffix ++ suffix.
Proof.
  intros H. unfold TrimSuffix. rewrite H. unfold HasSuffix in H.
  apply andb_prop in H as [Hlen Heq]. apply Nat.leb_le in Hlen.
  apply String.eqb_eq in Heq.
  rewrite (substring_split (String.length s - String.length suffix) s) at 1 by lia.
  f_equal.
  replace (String.length s - (String.length s - String.length suffix))%nat
    with (String.length suffix) by lia.
  exact Heq.
Qed.

Lemma lastByte_append (a b : string) : b <> "" -> lastByte (a ++ b) = lastByte b.
Proof.
  intros Hb. induction a as [|c a IH]; [reflexivity|].
  cbn [append lastByte]. rewrite IH.
  destruct (a ++ b) eqn:E; [|reflexivity].
  destruct a; [cbn in E; now elim Hb | discriminate].
Qed.

Lemma lastByte_occurs (s : string) (c : ascii) :
  lastByte s = Some c -> occurs c s = true.
Proof.
  induction s as [|x s IH]; [discriminate|]. cbn [lastByte occurs].
  destruct s as [|y s'].
  - intros H. injection H as ->. now rewrite Ascii.eqb_refl.
  - intros H. rewrite (IH H). apply orb_true_r.
Qed.

(** A text that does not end on a newline is not touched by
    [TrimSuffix]. *)
Lemma TrimSuffix_newline_none (s : string) (c : ascii) :
  lastByte s = Some c -> c <> "010"%char -> TrimSuffix s newline = s.
Proof.
  intros Hl Hc. unfold TrimSuffix.
  destruct (HasSuffix s newline) eqn:H; [|reflexivity].
  apply HasSuffix_inv in H. rewrite H in Hl.
  rewrite lastByte_append in Hl by discriminate.
  cbn in Hl. injection Hl as <-. now elim Hc.
Qed.

Lemma parseDPUConfigLine_nocolon (m : list (string * string)) (line : string) :
  occurs ":" line = false -> parseDPUConfigLine m line = m.
Proof.
  intros H. unfold parseDPUConfigLine. cbv zeta.
  now rewrite (SplitN_2_nosep line ":" H).
Qed.

Lemma parseDPUConfigLine_entry (m : list (string * string)) (k v : string) :
  occurs ":" k = false ->
  parseDPUConfigLine m (k ++ ":" ++ v)
  = mapSet (Trim k configCutset) (Trim v configCutset) m.
Proof.
  intros H. unfold parseDPUConfigLine. cbv zeta.
  change (k ++ ":" ++ v) with (k ++ String ":" v).
  now rewrite (SplitN_2_sep k v ":" H).
Qed.

Lemma fold_parse_nocolon (lines : list string) (m : list (string * string)) :
  (forall line, In line lines -> occurs ":" line = false) ->
  fold_left parseDPUConfigLine lines m = m.
Proof.
  revert m. induction lines as [|line lines IH]; intros m H; [reflexivity|].
  cbn [fold_left]. rewrite parseDPUConfigLine_nocolon by (apply H; now left).
  apply IH. intros l Hl. apply H. now right.
Qed.

(** The lines of a text and the lines of the text without its final
    newline give the same map: the empty last line is skipped. *)
Lemma fold_parse_TrimSuffix (s : string) :
  fold_left parseDPUConfigLine (Split s "010") []
  = parseDPUConfigFileOutput s.
Proof.
  unfold parseDPUConfigFileOutput.
  destruct (HasSuffix s newline) eqn:H.
  - apply HasSuffix_inv in H. remember (TrimSuffix s newline) as t eqn:Et.
    rewrite H. unfold newline. rewrite Split_app_sep, fold_left_app.
    cbn [Split fold_left]. apply parseDPUConfigLine_nocolon. reflexivity.
  - unfold TrimSuffix. now rewrite H.
Qed.

Lemma assoc_filter (key k : string) (m : list (string * string)) :
  String.eqb key k = false ->
  assoc key (filter (fun kv => negb (String.eqb k (fst kv))) m) = assoc key m.
Proof.
  intros Hk. induction m as [|[k' v'] m IH]; [reflexivity|].
  cbn [filter fst]. destruct (String.eqb k k') eqn:E; cbn [negb assoc].
  - apply String.eqb_eq in E. subst k'. now rewrite Hk.
  - now rewrite IH.
Qed.

Lemma assoc_mapSet (key k v : string) (m : list (string * string)) :
  assoc key (mapSet k v m) = if String.eqb key k then Some v else assoc key m.
Proof.
  unfold mapSet. cbn [assoc]. destruct (String.eqb key k) eqn:E; [reflexivity|].
  now apply assoc_filter.
Qed.

(** Property X20.  A text without a colon, the empty text among them, gives the
    empty map. *)
Theorem parseDPUConfigFileOutput_no_colon (out : string) :
  occurs ":" out = false -> parseDPUConfigFileOutput out = [].
Proof.
  intros H. rewrite <- fold_parse_TrimSuffix. apply fold_parse_nocolon.
  intros line Hl. destruct (Split_lines out line "010" Hl) as [_ Hsub].
  destruct (occurs ":" line) eqn:E; [|reflexivity].
  rewrite (Hsub ":"%char E) in H. discriminate.
Qed.

Lemma parseDPUConfigFileOutput_no_colon_witness :
  parseDPUConfigFileOutput ("no entries here" ++ newline) = [].
Proof.
  apply (parseDPUConfigFileOutput_no_colon ("no entries here" ++ newline)). reflexivity.
Defined.

Lemma last_line_no_newline (body k v : string) :
  occurs "010" v = false ->
  exists c, lastByte (body ++ newline ++ k ++ ":" ++ v) = Some c /\ c <> "010"%char.
Proof.
  intros Hv.
  assert (E : body ++ newline ++ k ++ ":" ++ v = (body ++ newline ++ k) ++ String ":" v)
    by (now rewrite !append_assoc).
  rewrite E, lastByte_append by discriminate.
  destruct v as [|c v'].
  - exists ":"%char. split; [reflexivity | discriminate].
  - destruct (lastByte (String ":" (String c v'))) as [c'|] eqn:El.
    + exists c'. split; [reflexivity|]. intros ->.
      change (String ":" (String c v')) with (String ":" "" ++ String c v') in El.
      rewrite lastByte_append in El by discriminate.
      apply lastByte_occurs in El. congruence.
    + apply lastByte_None in El. discriminate.
Qed.

(** Property X21.  A line ["<key>:<value>"] after a text assigns the trimmed
    value to the trimmed key and leaves the other keys as the text gives them,
    with or without a final newline. Only the first colon of the line separates:
    the value may contain colons. *)
Theorem parseDPUConfigFileOutput_append_line (body k v key : string) :
  occurs ":" k = false -> occurs "010" k = false -> occurs "010" v = false ->
  let k' := Trim k configCutset in
  let v' := Trim v configCutset in
  assoc key (parseDPUConfigFileOutput (body ++ newline ++ k ++ ":" ++ v))
  = (if String.eqb key k' then Some v' else assoc key (parseDPUConfigFileOutput body))
  /\ parseDPUConfigFileOutput (body ++ newline ++ k ++ ":" ++ v ++ newline)
     = parseDPUConfigFileOutput (body ++ newline ++ k ++ ":" ++ v).
Proof.
  intros Hk Hkn Hvn k' v'.
  destruct (last_line_no_newline body k v Hvn) as (c & Hl & Hc).
  assert (Hparse : parseDPUConfigFileOutput (body ++ newline ++ k ++ ":" ++ v)
                   = mapSet k' v' (parseDPUConfigFileOutput body)).
  { unfold parseDPUConfigFileOutput at 1.
    rewrite (TrimSuffix_newline_none _ c Hl Hc).
    unfold newline at 1. cbn [append]. rewrite Split_app_sep, fold_left_app.
    rewrite fold_parse_TrimSuffix.
    rewrite Split_nosep.
    - cbn [fold_left]. now apply parseDPUConfigLine_entry.
    - rewrite !occurs_append. cbn [occurs]. rewrite Hkn, Hvn. reflexivity. }
  split.
  - rewrite Hparse. apply assoc_mapSet.
  - unfold parseDPUConfigFileOutput at 1.
    replace (body ++ newline ++ k ++ ":" ++ v ++ newline)
      with ((body ++ newline ++ k ++ ":" ++ v) ++ newline)
      by (now rewrite !append_assoc).
    rewrite TrimSuffix_append. apply fold_parse_TrimSuffix.
Qed.

Lemma parseDPUConfigFileOutput_append_line_witness :
  assoc "MAC"
    (parseDPUConfigFileOutput
       ("State : Follow" ++ newline ++ " MAC  " ++ ":" ++ " 0c:42:a1:c6:cf:7c"))
  = (if String.eqb "MAC" (Trim " MAC  " configCutset)
     then Some (Trim " 0c:42:a1:c6:cf:7c" configCutset)
     else assoc "MAC" (parseDPUConfigFileOutput "State : Follow"))
  /\ parseDPUConfigFileOutput
       ("State : Follow" ++ newline ++ " MAC  " ++ ":" ++ " 0c:42:a1:c6:cf:7c" ++ newline)
     = parseDPUConfigFileOutput
         ("State : Follow" ++ newline ++ " MAC  " ++ ":" ++ " 0c:42:a1:c6:cf:7c").
Proof.
  apply (parseDPUConfigFileOutput_append_line "State : Follow" " MAC  "
           " 0c:42:a1:c6:cf:7c" "MAC"); reflexivity.
Defined.

Lemma occurs_string_rev (c : ascii) (s : string) :
  occurs c (string_rev s) = occurs c s.
Proof.
  induction s as [|x s IH]; [reflexivity|].
  cbn [string_rev occurs]. rewrite occurs_append, IH. cbn [occurs].
  rewrite orb_false_r. apply orb_comm.
Qed.

Lemma occurs_trimLeftBytes (cutset : string) (c : ascii) (s : string) :
  occurs c (trimLeftBytes cutset s) = true -> occurs c s = true.
Proof.
  induction s as [|x s IH]; [discriminate|]. cbn [trimLeftBytes].
  destruct (occurs x cutset); [|auto].
  intros H. cbn [occurs]. rewrite (IH H). apply orb_true_r.
Qed.

Lemma occurs_Trim (cutset : string) (c : ascii) (s : string) :
  occurs c (Trim s cutset) = true -> occurs c s = true.
Proof.
  unfold Trim, trimRightBytes. intros H.
  apply occurs_trimLeftBytes in H. rewrite occurs_string_rev in H.
  apply occurs_trimLeftBytes in H. now rewrite occurs_string_rev in H.
Qed.

Lemma trimLeftBytes_length (cutset s : string) :
  (String.length (trimLeftBytes cutset s) <= String.length s)%nat.
Proof.
  induction s as [|x s IH]; [reflexivity|]. cbn [trimLeftBytes].
  destruct (occurs x cutset); cbn [String.length]; lia.
Qed.

Lemma trimLeftBytes_fixed (cutset s : string) :
  trimLeftBytes cutset s = s <->
  s = "" \/ exists x s', s = String x s' /\ occurs x cutset = false.
Proof.
  split.
  - destruct s as [|x s']; [now left|]. cbn [trimLeftBytes].
    destruct (occurs x cutset) eqn:E; [|right; eauto].
    intros H. pose proof (trimLeftBytes_length cutset s') as Hl.
    rewrite H in Hl. cbn [String.length] in Hl. lia.
  - intros [->|(x & s' & -> & E)]; [reflexivity|]. cbn [trimLeftBytes]. now rewrite E.
Qed.

Lemma trimLeftBytes_idempotent (cutset s : string) :
  trimLeftBytes cutset (trimLeftBytes cutset s) = trimLeftBytes cutset s.
Proof.
  induction s as [|x s IH]; [reflexivity|]. cbn [trimLeftBytes].
  destruct (occurs x cutset) eqn:E; [exact IH|]. cbn [trimLeftBytes]. now rewrite E.
Qed.

Lemma trimLeftBytes_suffix (cutset s : string) :
  exists w, s = w ++ trimLeftBytes cutset s.
Proof.
  induction s as [|x s (w & IH)]; [exists ""; reflexivity|]. cbn [trimLeftBytes].
  destruct (occurs x cutset).
  - exists (String x w). cbn [append]. now rewrite <- IH.
  - exists "". reflexivity.
Qed.

Lemma trimLeftBytes_fixed_prefix (cutset a b : string) :
  a <> "" -> trimLeftBytes cutset (a ++ b) = a ++ b -> trimLeftBytes cutset a = a.
Proof.
  intros Ha H. apply trimLeftBytes_fixed. apply trimLeftBytes_fixed in H.
  destruct a as [|x a']; [now elim Ha|]. right.
  destruct H as [H|(y & s' & E & Hy)]; [discriminate|].
  cbn [append] in E. injection E as <- _. eauto.
Qed.

Lemma trimLeftBytes_fixed_append (cutset a b : string) :
  a <> "" -> trimLeftBytes cutset a = a -> trimLeftBytes cutset (a ++ b) = a ++ b.
Proof.
  intros Ha H. apply trimLeftBytes_fixed. apply trimLeftBytes_fixed in H.
  destruct H as [->|(x & s' & -> & Hx)]; [now elim Ha|].
  right. exists x, (s' ++ b). auto.
Qed.

Lemma string_rev_cons_nonempty (x : ascii) (s : string) :
  string_rev (String x s) <> "".
Proof.
  cbn [string_rev]. destruct (string_rev s); intros E; discriminate E.
Qed.

(** What [Trim] returns ends on no byte of the cutset. *)
Lemma trimRightBytes_Trim (cutset s : string) :
  trimRightBytes cutset (Trim s cutset) = Trim s cutset.
Proof.
  unfold Trim. set (r := trimRightBytes cutset s).
  destruct (trimLeftBytes_suffix cutset r) as (w & Er).
  set (t := trimLeftBytes cutset r) in *.
  assert (Hfix : trimLeftBytes cutset (string_rev r) = string_rev r).
  { unfold r, trimRightBytes. rewrite string_rev_involutive.
    apply trimLeftBytes_idempotent. }
  unfold trimRightBytes.
  destruct t as [|x t'] eqn:Et; [reflexivity|].
  rewrite Er, string_rev_append in Hfix.
  rewrite (trimLeftBytes_fixed_prefix cutset _ _ (string_rev_cons_nonempty x t') Hfix).
  apply string_rev_involutive.
Qed.

Lemma Trim_idempotent (cutset s : string) :
  Trim (Trim s cutset) cutset = Trim s cutset.
Proof.
  unfold Trim at 1. rewrite trimRightBytes_Trim.
  unfold Trim. apply trimLeftBytes_idempotent.
Qed.

Lemma assoc_In (key v : string) (m : list (string * string)) :
  assoc key m = Some v -> In (key, v) m.
Proof.
  induction m as [|[k' v'] m IH]; [discriminate|]. cbn [assoc].
  destruct (String.eqb key k') eqn:E.
  - intros H. injection H as ->. apply String.eqb_eq in E. subst k'. now left.
  - intros H. right. now apply IH.
Qed.

Lemma parseDPUConfigLine_invariant (P : string -> string -> Prop)
    (m : list (string * string)) (line : string) :
  (forall k v, occurs ":" k = false -> line = k ++ ":" ++ v ->
               P (Trim k configCutset) (Trim v configCutset)) ->
  (forall k v, In (k, v) m -> P k v) ->
  forall k v, In (k, v) (parseDPUConfigLine m line) -> P k v.
Proof.
  intros Hline Hm k v.
  destruct (SplitN_2_cases line ":") as [[Hno _]|(k0 & v0 & Hk0 & -> & _)].
  - rewrite parseDPUConfigLine_nocolon by exact Hno. apply Hm.
  - change (k0 ++ String ":" v0) with (k0 ++ ":" ++ v0).
    rewrite parseDPUConfigLine_entry by exact Hk0. unfold mapSet.
    intros [H|H].
    + injection H as <- <-. now apply Hline.
    + apply filter_In in H as [H _]. now apply Hm.
Qed.

(** Property X22.  Every entry of the map is trimmed, key and value, no key
    contains a colon, and neither keys nor values contain a newline. *)
Theorem parseDPUConfigFileOutput_entries_trimmed (out key value : string) :
  assoc key (parseDPUConfigFileOutput out) = Some value ->
  Trim key configCutset = key /\ Trim value configCutset = value
  /\ occurs ":" key = false /\ occurs "010" key = false /\ occurs "010" value = false.
Proof.
  intros H. apply assoc_In in H. revert key value H.
  unfold parseDPUConfigFileOutput.
  assert (Hlines : forall line, In line (Split (TrimSuffix out newline) "010") ->
                                occurs "010" line = false)
    by (intros line Hl; now destruct (Split_lines _ _ _ Hl)).
  revert Hlines. generalize (Split (TrimSuffix out newline) "010") as lines.
  intros lines Hlines.
  assert (Hgen : forall m,
             (forall k v, In (k, v) m ->
                Trim k configCutset = k /\ Trim v configCutset = v
                /\ occurs ":" k = false /\ occurs "010" k = false
                /\ occurs "010" v = false) ->
             forall k v, In (k, v) (fold_left parseDPUConfigLine lines m) ->
                Trim k configCutset = k /\ Trim v configCutset = v
                /\ occurs ":" k = false /\ occurs "010" k = false
                /\ occurs "010" v = false).
  { induction lines as [|line lines IH]; intros m Hm; [exact Hm|].
    cbn [fold_left]. apply IH.
    - intros l Hl. apply Hlines. now right.
    - apply parseDPUConfigLine_invariant; [|exact Hm].
      intros k v Hk ->.
      assert (Hnl : occurs "010" (k ++ ":" ++ v) = false) by (apply Hlines; now left).
      rewrite !occurs_append in Hnl. cbn [occurs] in Hnl.
      apply orb_false_elim in Hnl as [Hnk Hnv].
      apply orb_false_elim in Hnv as [_ Hnv].
      repeat split; try apply Trim_idempotent.
      + destruct (occurs ":" (Trim k configCutset)) eqn:E; [|reflexivity].
        apply occurs_Trim in E. congruence.
      + destruct (occurs "010" (Trim k configCutset)) eqn:E; [|reflexivity].
        apply occurs_Trim in E. congruence.
      + destruct (occurs "010" (Trim v configCutset)) eqn:E; [|reflexivity].
        apply occurs_Trim in E. congruence. }
  apply Hgen. intros k v [].
Qed.

Lemma parseDPUConfigFileOutput_entries_trimmed_witness :
  Trim "MaxTxRate" configCutset = "MaxTxRate" /\ Trim "0" configCutset = "0"
  /\ occurs ":" "MaxTxRate" = false /\ occurs "010" "MaxTxRate" = false
  /\ occurs "010" "0" = false.
Proof.
  apply (parseDPUConfigFileOutput_entries_trimmed
           (" MAC        : 0c:42:a1:c6:cf:7c" ++ newline ++ " MaxTxRate  : 0" ++ newline)
           "MaxTxRate" "0").
  reflexivity.
Defined.

Lemma Trim_append_space (k : string) :
  Trim (k ++ " ") configCutset = Trim k configCutset.
Proof.
  unfold Trim, trimRightBytes. rewrite string_rev_append. reflexivity.
Qed.

Lemma Trim_space_append (v : string) :
  Trim v configCutset = v -> Trim (" " ++ v) configCutset = v.
Proof.
  intros Hv.
  assert (Hr : trimRightBytes configCutset v = v)
    by (rewrite <- Hv at 1; rewrite trimRightBytes_Trim; exact Hv).
  assert (Hl : trimLeftBytes configCutset v = v).
  { rewrite <- Hv at 1. unfold Trim. rewrite trimLeftBytes_idempotent. exact Hv. }
  destruct v as [|x v']; [reflexivity|].
  unfold Trim, trimRightBytes. rewrite string_rev_append.
  assert (Hrev : trimLeftBytes configCutset (string_rev (String x v'))
                 = string_rev (String x v')).
  { unfold trimRightBytes in Hr.
    rewrite <- (string_rev_involutive
                  (trimLeftBytes configCutset (string_rev (String x v')))).
    now rewrite Hr. }
  rewrite trimLeftBytes_fixed_append;
    [ | apply string_rev_cons_nonempty | exact Hrev ].
  rewrite string_rev_append, !string_rev_involutive.
  change (" " ++ String x v') with (String " " (String x v')).
  cbn [trimLeftBytes]. change (occurs " " configCutset) with true. cbv iota. exact Hl.
Qed.

Lemma renderDPUConfig_app (es : list (string * string)) (k v : string) :
  renderDPUConfig (es ++ [(k, v)]) = renderDPUConfig es ++ k ++ " : " ++ v ++ newline.
Proof.
  induction es as [|[k' v'] es IH]; cbn [app renderDPUConfig].
  - now rewrite !append_nil_r.
  - rewrite IH. now rewrite !append_assoc.
Qed.

Lemma renderDPUConfig_ends (es : list (string * string)) :
  renderDPUConfig es = "" \/ HasSuffix (renderDPUConfig es) newline = true.
Proof.
  induction es as [|[k v] es IH]; [now left|]. right. cbn [renderDPUConfig].
  destruct IH as [->|H].
  - rewrite append_nil_r.
    replace (k ++ " : " ++ v ++ newline) with ((k ++ " : " ++ v) ++ newline)
      by (now rewrite !append_assoc).
    apply HasSuffix_append.
  - apply HasSuffix_inv in H. rewrite H.
    replace (k ++ " : " ++ v ++ newline ++ TrimSuffix (renderDPUConfig es) newline ++ newline)
      with ((k ++ " : " ++ v ++ newline ++ TrimSuffix (renderDPUConfig es) newline) ++ newline)
      by (now rewrite !append_assoc).
    apply HasSuffix_append.
Qed.

(** A complete line after a text made of complete lines is one more
    iteration of the loop. *)
Lemma parseDPUConfigFileOutput_line (R line : string) :
  R = "" \/ HasSuffix R newline = true ->
  occurs "010" line = false ->
  parseDPUConfigFileOutput (R ++ line ++ newline)
  = parseDPUConfigLine (parseDPUConfigFileOutput R) line.
Proof.
  intros HR Hline. unfold parseDPUConfigFileOutput at 1.
  rewrite <- append_assoc, TrimSuffix_append.
  destruct HR as [->|H].
  - cbn [append]. rewrite (Split_nosep line "010" Hline). reflexivity.
  - apply HasSuffix_inv in H. rewrite H at 1.
    unfold parseDPUConfigFileOutput.
    remember (TrimSuffix R newline) as R' eqn:ER.
    rewrite append_assoc. unfold newline. cbn [append].
    rewrite Split_app_sep, fold_left_app, (Split_nosep line "010" Hline).
    reflexivity.
Qed.

(** Property X23.  Round trip. Entries whose keys and values are trimmed, with
    no colon nor newline in a key and no newline in a value, written one per
    line as ["<key> : <value>"], are read back: each key has the value of its
    last line. *)
Theorem parseDPUConfigFileOutput_roundtrip (entries : list (string * string)) (key : string) :
  (forall k v, In (k, v) entries ->
     Trim k configCutset = k /\ occurs ":" k = false /\ occurs "010" k = false
     /\ Trim v configCutset = v /\ occurs "010" v = false) ->
  assoc key (parseDPUConfigFileOutput (renderDPUConfig entries))
  = assoc key (rev entries).
Proof.
  revert key. induction entries as [|[k v] entries IH] using rev_ind; intros key Hclean.
  - reflexivity.
  - destruct (Hclean k v) as (Hk & Hkc & Hkn & Hv & Hvn);
      [apply in_or_app; right; now left|].
    rewrite renderDPUConfig_app, rev_app_distr. cbn [rev app assoc].
    replace (renderDPUConfig entries ++ k ++ " : " ++ v ++ newline)
      with (renderDPUConfig entries ++ ((k ++ " ") ++ ":" ++ (" " ++ v)) ++ newline)
      by (now rewrite !append_assoc).
    rewrite parseDPUConfigFileOutput_line.
    + rewrite parseDPUConfigLine_entry.
      * rewrite assoc_mapSet, Trim_append_space, Hk, (Trim_space_append v Hv).
        destruct (String.eqb key k); [reflexivity|].
        apply IH. intros k0 v0 Hin. apply Hclean. apply in_or_app. now left.
      * rewrite occurs_append, Hkc. reflexivity.
    + apply renderDPUConfig_ends.
    + rewrite !occurs_append. cbn [occurs append]. rewrite Hkn.
      cbn [orb]. rewrite Hvn. reflexivity.
Qed.

Lemma parseDPUConfigFileOutput_roundtrip_witness :
  assoc "MAC"
    (parseDPUConfigFileOutput
       (renderDPUConfig
          [("MAC", "0c:42:a1:c6:cf:7c"); ("MaxTxRate", "0"); ("State", "Follow")]))
  = assoc "MAC" (rev [("MAC", "0c:42:a1:c6:cf:7c"); ("MaxTxRate", "0"); ("State", "Follow")]).
Proof.
  apply (parseDPUConfigFileOutput_roundtrip
           [("MAC", "0c:42:a1:c6:cf:7c"); ("MaxTxRate", "0"); ("State", "Follow")] "MAC").
  intros k v [H|[H|[H|[]]]]; injection H as <- <-; repeat split; reflexivity.
Defined.
